(** * git-stats: [bin/git_stats.py]

    A shallow embedding of the Python functions [_get_git_log],
    [_get_git_words], [_get_git_files_adds_dels],
    [_get_git_contributor_commit_count], [_get_git_contributor_emails],
    [get_statistics] and of the leaderboard part of [main], together with the
    fragment of Python's [re] module their patterns use; then of the rest of
    the program: [print_help], [print_version], [validate_repos], [clone],
    [read_config], [parse_args] and the whole of [main] with the text it
    prints.

    Conventions of the embedding.
    - A Python [str] is a Rocq [string]; the matcher works on its list of
      characters.  Characters are taken in the ASCII range: the classes
      [\s], [\w], [[0-9]] and case folding are the ASCII restrictions of the
      Unicode ones.
    - A Python [int] is a [Z] (unbounded).
    - A Python [dict] with string keys is a [gmap string _]; the records
      appended by [get_statistics] are a Rocq [Record].
    - A raised exception is the [Raise] case of [result].
    - GitPython's [Git(path).log(...)] is a parameter [git] of the
      development: it either returns the text git printed or raises
      [GitError].
    - The keyword of [_get_git_words] is spliced into its pattern as it
      is.  The pattern is read here for the keywords whose only special
      characters are dots; for any other keyword [re.match] is a parameter
      [sre] of the development, which returns a match with its first
      group, returns no match, or raises [re.error].
    - The functions that print, exit or touch the file system are
      computations [io] over an abstract machine state [world]: a
      computation gives the machine after it, the lines printed (each with
      its stream) and how it ended (it returns, exits with a status, or
      fails with an uncaught exception).  [getopt], the file system tests,
      the YAML loader and GitPython's [Repo], [remotes.origin], [fetch] and
      [clone_from] are variables of the development.  [Repo], [fetch] and
      [clone_from] return or raise [GitError]; the lookup of the remote
      [origin] may raise [AttributeError]; opening and loading the
      configuration may raise [YAMLError] or any other exception.
    - The configuration document is well typed: [tmpdir] a string,
      [repositories] and [wordlist] lists of strings.
    - Paths are joined as [posixpath.join] does. *)

From Stdlib Require Import ZArith Ascii String List Bool Lia Sorting.Sorted.
From stdpp Require Import base option list gmap strings.

Open Scope Z_scope.

(** ** Characters *)

Module Char.

Definition code (c : ascii) : nat := nat_of_ascii c.

Definition between (lo hi : nat) (c : ascii) : bool :=
  (lo <=? code c)%nat && (code c <=? hi)%nat.

(** [[0-9]] *)
Definition is_digit (c : ascii) : bool := between 48 57 c.

Definition is_upper (c : ascii) : bool := between 65 90 c.
Definition is_lower (c : ascii) : bool := between 97 122 c.

(** [\w]: letters, digits and the underscore. *)
Definition is_word (c : ascii) : bool :=
  is_digit c || is_upper c || is_lower c || (code c =? 95)%nat.

(** [\s] and [str.isspace]: TAB, LF, VT, FF, CR, FS, GS, RS, US and space. *)
Definition is_space (c : ascii) : bool :=
  between 9 13 c || between 28 31 c || (code c =? 32)%nat.

(** The line boundaries of [str.splitlines]: LF, VT, FF, CR, FS, GS, RS. *)
Definition is_linebreak (c : ascii) : bool :=
  between 10 13 c || between 28 30 c.

Definition is_LF (c : ascii) : bool := (code c =? 10)%nat.
Definition is_CR (c : ascii) : bool := (code c =? 13)%nat.

(** Case folding of [re.IGNORECASE]. *)
Definition lower (c : ascii) : ascii :=
  if is_upper c then ascii_of_nat (code c + 32) else c.

Definition eq_icase (a b : ascii) : bool :=
  (code (lower a) =? code (lower b))%nat.

(** The value of a decimal digit. *)
Definition digit_value (c : ascii) : Z := Z.of_nat (code c) - 48.

(** BACKSPACE: what [\b] is in a string literal that is not raw. *)
Definition backspace : ascii := ascii_of_nat 8.

End Char.

(** ** Exceptions *)

Inductive exn : Type :=
| KeyError (key : string)
| ValueError (text : string)
| ReError (pattern : string).    (* [re.error]: the pattern does not compile *)

Inductive result (A : Type) : Type :=
| Ok (a : A)
| Raise (e : exn).

Arguments Ok {A} a.
Arguments Raise {A} e.

(** Sequencing: an exception raised by the first computation skips the
    second.  With these instances [x ← m; k] is stdpp's notation for it. *)
#[global] Instance result_ret : MRet result := fun _ a => Ok a.

#[global] Instance result_bind : MBind result := fun _ _ f m =>
  match m with
  | Ok a => f a
  | Raise e => Raise e
  end.

(** A [for] loop whose body may raise: the state is threaded from left to
    right and the first exception ends the loop. *)
Fixpoint for_each {A S : Type} (l : list A) (body : S -> A -> result S) (s : S)
  : result S :=
  match l with
  | [] => Ok s
  | x :: l' => s' ← body s x; for_each l' body s'
  end.

(** ** The fragment of [re] used by the patterns *)

Module Re.

(** One-character items. *)
Inductive item : Type :=
| Lit (c : ascii)      (* an ordinary character *)
| Dot                  (* [.] *)
| Space                (* [\s] *)
| Digit.               (* [[0-9]] *)

Inductive regex : Type :=
| Empty                          (* the empty pattern *)
| Item (i : item)
| WordBoundary                   (* [\b] *)
| EndOfString                    (* [$] *)
| Cat (r1 r2 : regex)            (* r1 r2 *)
| Alt (r1 r2 : regex)            (* r1|r2 *)
| Star (r : regex)               (* r*, greedy *)
| Group (n : nat) (r : regex).   (* the n-th capturing group (r) *)

(** [r+] and [r?], both greedy. *)
Definition Plus (r : regex) : regex := Cat r (Star r).
Definition Opt (r : regex) : regex := Alt r Empty.

(** A literal text, character by character. *)
Fixpoint Text (s : list ascii) : regex :=
  match s with
  | [] => Empty
  | c :: s' => Cat (Item (Lit c)) (Text s')
  end.

(** Alternation of several branches, tried from left to right. *)
Fixpoint Alts (r : regex) (rs : list regex) : regex :=
  match rs with
  | [] => r
  | r' :: rs' => Alt r (Alts r' rs')
  end.

(** Does item [i] accept character [c], with [re.IGNORECASE] set? *)
Definition accepts (i : item) (c : ascii) : bool :=
  match i with
  | Lit a => Char.eq_icase a c
  | Dot => negb (Char.is_LF c)
  | Space => Char.is_space c
  | Digit => Char.is_digit c
  end.

(** The state of a match attempt: the text already consumed (last
    character first), the text still ahead, and the groups captured so far. *)
Record mstate : Type := MState {
  seen : list ascii;
  rest : list ascii;
  caps : gmap nat (list ascii)
}.

Definition word_behind (st : mstate) : bool :=
  match seen st with c :: _ => Char.is_word c | [] => false end.

Definition word_ahead (st : mstate) : bool :=
  match rest st with c :: _ => Char.is_word c | [] => false end.

(** [\b]: exactly one side of the position is a word character. *)
Definition at_boundary (st : mstate) : bool :=
  xorb (word_behind st) (word_ahead st).

(** [$]: at the end, or just before a final newline. *)
Definition at_end (st : mstate) : bool :=
  match rest st with
  | [] => true
  | [c] => Char.is_LF c
  | _ => false
  end.

Definition step (st : mstate) : option (ascii * mstate) :=
  match rest st with
  | c :: s => Some (c, MState (c :: seen st) s (caps st))
  | [] => None
  end.

(** The text consumed between two states of one attempt. *)
Definition consumed (st st' : mstate) : list ascii :=
  take (length (rest st) - length (rest st')) (rest st).

Definition capture (n : nat) (st st' : mstate) : mstate :=
  MState (seen st') (rest st') (<[n := consumed st st']> (caps st')).

(** The backtracking matcher, in continuation-passing style: [k] is the
    rest of the pattern; an alternative is abandoned when [k] fails on it.
    A repetition tries one more iteration before it tries to stop (greedy),
    and an iteration has to consume something. *)
Fixpoint run (r : regex) (st : mstate) (k : mstate -> option mstate)
  {struct r} : option mstate :=
  match r with
  | Empty => k st
  | Item i =>
      match step st with
      | Some (c, st') => if accepts i c then k st' else None
      | None => None
      end
  | WordBoundary => if at_boundary st then k st else None
  | EndOfString => if at_end st then k st else None
  | Cat r1 r2 => run r1 st (fun st1 => run r2 st1 k)
  | Alt r1 r2 =>
      match run r1 st k with
      | Some m => Some m
      | None => run r2 st k
      end
  | Star r1 =>
      (fix loop (fuel : nat) (st : mstate) {struct fuel} : option mstate :=
         match fuel with
         | O => k st
         | S fuel' =>
             match run r1 st (fun st1 =>
                     if (length (rest st1) <? length (rest st))%nat
                     then loop fuel' st1 else None) with
             | Some m => Some m
             | None => k st
             end
         end) (length (rest st)) st
  | Group n r1 => run r1 st (fun st1 => k (capture n st st1))
  end.

(** [re.match(pattern, string, re.I)]: the pattern has to match at the start
    of the string, not necessarily up to its end. *)
Definition re_match (r : regex) (s : string) : option mstate :=
  run r (MState [] (list_ascii_of_string s) ∅) Some.

(** [m.group(n)]: [None] when group [n] took no part in the match. *)
Definition group (m : mstate) (n : nat) : option string :=
  string_of_list_ascii <$> caps m !! n.

(** The characters that mean something to [re]; a text without them stands
    for itself in a pattern. *)
Definition special (c : ascii) : bool :=
  existsb (Ascii.eqb c) (list_ascii_of_string ".^$*+?{}[]\|()").

(** What [re.match(pattern, string, re.I)] does: return a match object,
    of which the program asks [group(1)], return [None], or raise
    [re.error] on a pattern that does not compile. *)
Inductive re_reply : Type :=
| Match (group1 : option string)
| NoMatch
| Invalid.

End Re.

(** ** The string methods the program calls *)

Module Str.

Definition chars (s : string) : list ascii := list_ascii_of_string s.
Definition of_chars (l : list ascii) : string := string_of_list_ascii l.

(** The double quote character, as the one-character string. *)
Definition dquote : string := String (ascii_of_nat 34) EmptyString.

(** The pending piece [cur] is kept last character first. *)
Definition flush (cur : list ascii) : list string :=
  match cur with
  | [] => []
  | _ => [of_chars (rev cur)]
  end.

(** [str.splitlines()]: cut at every line boundary, CR LF counting as one,
    the boundaries dropped; no empty last line. *)
Fixpoint lines_from (after_cr : bool) (cur s : list ascii) : list string :=
  match s with
  | [] => flush cur
  | c :: s' =>
      if after_cr && Char.is_LF c then lines_from false cur s'
      else if Char.is_linebreak c
           then of_chars (rev cur) :: lines_from (Char.is_CR c) [] s'
           else lines_from false (c :: cur) s'
  end.

Definition splitlines (s : string) : list string := lines_from false [] (chars s).

(** [str.split()]: the maximal runs of characters that are not blank. *)
Fixpoint words_from (cur s : list ascii) : list string :=
  match s with
  | [] => flush cur
  | c :: s' =>
      if Char.is_space c then flush cur ++ words_from [] s'
      else words_from (c :: cur) s'
  end.

Definition split (s : string) : list string := words_from [] (chars s).

Definition decimal (l : list ascii) : Z :=
  fold_left (fun n c => 10 * n + Char.digit_value c) l 0.

(** [int(s)] on a nonempty run of decimal digits.  Python reads a few more
    forms (a sign, blanks around the number, underscores); none of them
    can come out of a [[0-9]+] group, and they are reported as [ValueError]
    here together with the texts Python rejects. *)
Definition int (s : string) : result Z :=
  match chars s with
  | [] => Raise (ValueError s)
  | l => if forallb Char.is_digit l then Ok (decimal l) else Raise (ValueError s)
  end.

End Str.

(** ** The program *)

(** What [Git(path).log(...)] does: print, or raise [GitError]. *)
Inductive git_reply : Type :=
| Printed (text : string)
| GitError.

(** Python truth of a date argument: [None] and [''] count as false. *)
Definition truthy (d : option string) : bool :=
  match d with
  | Some (String _ _) => true
  | _ => false
  end.

Definition text_of (d : option string) : string := default EmptyString d.

(** The seven numeric columns of a contributor's record. *)
Inductive metric : Type :=
| Commits | Files | Adds | Dels | MaxFiles | MaxAdds | MaxDels.

(** The dictionary returned by [_get_git_files_adds_dels]. *)
Record churn : Type := Churn {
  c_files : Z;
  c_adds : Z;
  c_dels : Z;
  c_max_files : Z;
  c_max_adds : Z;
  c_max_dels : Z
}.

(** The dictionary appended to [stats] by [get_statistics]. *)
Record stat : Type := Stat {
  email : string;
  commits : Z;
  files : Z;
  adds : Z;
  dels : Z;
  max_files : Z;
  max_adds : Z;
  max_dels : Z;
  words : gmap string Z
}.

Definition value (m : metric) (d : stat) : Z :=
  match m with
  | Commits => commits d
  | Files => files d
  | Adds => adds d
  | Dels => dels d
  | MaxFiles => max_files d
  | MaxAdds => max_adds d
  | MaxDels => max_dels d
  end.

Import Re.

(** [r'.*\b(' + word + ')(\b|s|z|d|es|ed|er|rs|ers|or|ors|ing|in|-)?(\b|\\s|-|_|$).*']

    Of the two literals only the first is raw.  In the second, [\b] is the
    BACKSPACE character and [\\s] a backslash and an [s]: the pattern [re]
    is given has the character BACKSPACE where the source has [\b] after
    the keyword, and the class [\s] of whitespace.  Its text: *)
Definition forgiving_text (word : string) : string :=
  ".*\b(" +:+ word +:+ ")(" +:+
  String Char.backspace "|s|z|d|es|ed|er|rs|ers|or|ors|ing|in|-)?(" +:+
  String Char.backspace "|\s|-|_|$).*".

(** The keyword is spliced into the pattern as it is, not escaped: [re]
    reads it as a pattern.  A keyword of ordinary characters stands for
    itself, a dot in it for any character but a newline. *)
Definition keyword_item (c : ascii) : item :=
  if Ascii.eqb c "." then Dot else Lit c.

Fixpoint Keyword (s : list ascii) : regex :=
  match s with
  | [] => Empty
  | c :: s' => Cat (Item (keyword_item c)) (Keyword s')
  end.

(** The keywords read here: those whose only special characters are dots.
    What [re] makes of any other keyword (a pattern of its own, or
    [re.error]) is left to a parameter, see [forgiving_match]. *)
Definition embedded (word : string) : bool :=
  forallb (fun c => Ascii.eqb c "." || negb (special c)) (Str.chars word).

(** The optional second group: *)
Definition suffix_group : regex :=
  Opt (Group 2 (Alts (Item (Lit Char.backspace))
         (map (fun s => Text (Str.chars s))
            ["s"; "z"; "d"; "es"; "ed"; "er"; "rs"; "ers"; "or"; "ors";
             "ing"; "in"; "-"]))).

(** The third group and the final [.*]: *)
Definition closing : regex :=
  Cat (Group 3 (Alts (Item (Lit Char.backspace))
         [Item Space; Text (Str.chars "-"); Text (Str.chars "_"); EndOfString]))
      (Star (Item Dot)).

(** The whole pattern, for an embedded keyword: *)
Definition forgiving (word : string) : regex :=
  Cat (Star (Item Dot))
 (Cat WordBoundary
 (Cat (Group 1 (Keyword (Str.chars word)))
 (Cat suffix_group closing))).

(** [r'.*(\s+([0-9]+)\s+file)'], and the same with [inser] and [delet]. *)
Definition shortstat (unit : string) : regex :=
  Cat (Star (Item Dot))
      (Group 1 (Cat (Plus (Item Space))
               (Cat (Group 2 (Plus (Item Digit)))
               (Cat (Plus (Item Space))
                    (Text (Str.chars unit)))))).

Section Counter.

(** [re.match] on the text of a pattern and a message, for the patterns
    that are not read here. *)
Variable sre : string -> string -> re_reply.

(** [re.match(r'.*\b(' + word + ..., message, re.I)] *)
Definition forgiving_match (word message : string) : re_reply :=
  if embedded word
  then match re_match (forgiving word) message with
       | Some m => Match (group m 1)
       | None => NoMatch
       end
  else sre (forgiving_text word) message.

(** The body of the innermost loop of [_get_git_words]; nothing catches
    the [re.error] of a keyword that is no pattern. *)
Definition count_message (word : string) (words : gmap string Z)
  (message : string) : result (gmap string Z) :=
  match forgiving_match word message with
  | Invalid => Raise (ReError (forgiving_text word))
  | Match (Some _) =>
      match words !! word with
      | Some n => Ok (<[word := n + 1]> words)
      | None => Raise (KeyError word)
      end
  | Match None => Ok words
  | NoMatch => Ok words
  end.

(** The two loops over the words and the messages of one repository. *)
Definition count_messages (wordlist messages : list string)
  (words : gmap string Z) : result (gmap string Z) :=
  for_each wordlist
    (fun words word => for_each messages (count_message word) words) words.

End Counter.

(** One of the three blocks of the loop body of [_get_git_files_adds_dels]:
    add the number matched to the running total and raise the running
    maximum to it. *)
Definition tally (m : option mstate) (acc : Z * Z) : result (Z * Z) :=
  match m with
  | Some m =>
      match group m 2 with
      | Some g =>
          n ← Str.int g;
          Ok (fst acc + n, if snd acc <? n then n else snd acc)
      | None => Ok acc
      end
  | None => Ok acc
  end.

Definition count_line (c : churn) (line : string) : result churn :=
  let match_files := re_match (shortstat "file") line in
  let match_adds := re_match (shortstat "inser") line in
  let match_dels := re_match (shortstat "delet") line in
  f ← tally match_files (c_files c, c_max_files c);
  a ← tally match_adds (c_adds c, c_max_adds c);
  d ← tally match_dels (c_dels c, c_max_dels c);
  Ok (Churn (fst f) (fst a) (fst d) (snd f) (snd a) (snd d)).

(** The rows one section of the report prints, from the sorted records:
    [if item[key] > 0 and cnt < show_top]. *)
Fixpoint rows (top : nat) (key : stat -> Z) (cnt : nat) (l : list stat)
  : list stat :=
  match l with
  | [] => []
  | item :: l' =>
      if (0 <? key item) && (cnt <? top)%nat
      then item :: rows top key (S cnt) l'
      else rows top key (S cnt) l'
  end.

(** [sorted(l, key=key, reverse=True)].  Python's sort is stable, also with
    [reverse=True]: records with equal keys keep the order of [l].  There is
    one such list, computed here by insertion. *)
Fixpoint insert_desc {A : Type} (key : A -> Z) (x : A) (l : list A) : list A :=
  match l with
  | [] => [x]
  | y :: l' => if key x <? key y then y :: insert_desc key x l' else x :: l
  end.

Definition sorted_reverse {A : Type} (key : A -> Z) (l : list A) : list A :=
  fold_right (insert_desc key) [] l.

Definition show_top : nat := 10.

(** What is printed for a row: the number and the email. *)
Definition printed (key : stat -> Z) (item : stat) : Z * string :=
  (key item, email item).

(** A section of the seven numeric ones. *)
Definition section_items (top : nat) (m : metric) (statistics : list stat)
  : list stat :=
  rows top (value m) 0 (sorted_reverse (value m) statistics).

Definition section (top : nat) (m : metric) (statistics : list stat)
  : list (Z * string) :=
  map (printed (value m)) (section_items top m statistics).

(** The section of a word: the sort key guards its lookup
    ([d['words'][word] if word in d['words'] else 0]), the loop below it
    does not ([item['words'][word] > 0]). *)
Definition word_key (word : string) (d : stat) : Z :=
  default 0 (words d !! word).

Fixpoint word_rows (word : string) (cnt : nat) (l : list stat)
  : result (list (Z * string)) :=
  match l with
  | [] => Ok []
  | item :: l' =>
      match words item !! word with
      | None => Raise (KeyError word)
      | Some n =>
          out ← word_rows word (S cnt) l';
          Ok (if (0 <? n) && (cnt <? show_top)%nat
              then (n, email item) :: out else out)
      end
  end.

Definition word_section (word : string) (statistics : list stat)
  : result (list (Z * string)) :=
  word_rows word 0 (sorted_reverse (word_key word) statistics).

Section Program.

(** [re.match] for the patterns that are not read here, see
    [forgiving_match]. *)
Variable sre : string -> string -> re_reply.

(** [git path argv] is the call of [Git(path).log] on the arguments [argv]. *)
Variable git : string -> list string -> git_reply.

(** [list(set(l))]: the elements of [l] without repetition, in an order
    Python does not specify. *)
Variable list_set : list string -> list string.

(** [try: ... except GitError: return ''] around the call. *)
Definition log (git_path : string) (argv : list string) : string :=
  match git git_path argv with
  | Printed text => text
  | GitError => EmptyString
  end.

Definition after (d : option string) : string :=
  "--after=" +:+ Str.dquote +:+ text_of d +:+ Str.dquote.

Definition before (d : option string) : string :=
  "--before=" +:+ Str.dquote +:+ text_of d +:+ Str.dquote.

Definition _get_git_log (git_path : string) (start_date end_date : option string)
  (args : list string) : string :=
  if truthy start_date && truthy end_date
  then log git_path (after start_date :: before end_date :: args)
  else if truthy start_date
  then log git_path (after start_date :: args)
  else if truthy end_date
  then log git_path (before end_date :: args)
  else log git_path args.

Definition _get_git_words (git_paths : list string) (email : string)
  (wordlist : list string) (start_date end_date : option string)
  : result (gmap string Z) :=
  let words := fold_left (fun words word => <[word := 0]> words) wordlist ∅ in
  for_each git_paths
    (fun words path =>
       let messages :=
         Str.splitlines
           (_get_git_log path start_date end_date
              ["--author=" +:+ email; "--oneline"]) in
       count_messages sre wordlist messages words)
    words.

Definition _get_git_files_adds_dels (git_paths : list string) (email : string)
  (start_date end_date : option string) : result churn :=
  for_each git_paths
    (fun c path =>
       let lines :=
         Str.splitlines
           (_get_git_log path start_date end_date
              ["--author=" +:+ email; "--oneline"; "--shortstat"]) in
       for_each lines count_line c)
    (Churn 0 0 0 0 0 0).

(** The messages [_get_git_words] goes through, repository after
    repository. *)
Definition oneline_messages (git_paths : list string) (email : string)
  (start_date end_date : option string) : list string :=
  flat_map
    (fun path =>
       Str.splitlines
         (_get_git_log path start_date end_date
            ["--author=" +:+ email; "--oneline"]))
    git_paths.

(** The lines [_get_git_files_adds_dels] goes through, repository after
    repository. *)
Definition shortstat_lines (git_paths : list string) (email : string)
  (start_date end_date : option string) : list string :=
  flat_map
    (fun path =>
       Str.splitlines
         (_get_git_log path start_date end_date
            ["--author=" +:+ email; "--oneline"; "--shortstat"]))
    git_paths.

Definition _get_git_contributor_commit_count (git_paths : list string)
  (email : string) (start_date end_date : option string) : Z :=
  let commits :=
    fold_left
      (fun commits path =>
         let hashes :=
           Str.splitlines
             (_get_git_log path start_date end_date
                ["--author=" +:+ email;
                 "--format=" +:+ Str.dquote +:+ "%H" +:+ Str.dquote]) in
         commits ++ hashes)
      git_paths [] in
  Z.of_nat (length commits).

Definition _get_git_contributor_emails (git_paths : list string)
  (start_date end_date : option string) : list string :=
  fold_left
    (fun contributors path =>
       let committers :=
         Str.split (_get_git_log path start_date end_date ["--format=%cE"]) in
       let authors :=
         Str.split (_get_git_log path start_date end_date ["--format=%aE"]) in
       list_set (authors ++ committers ++ contributors))
    git_paths [].

Definition get_statistics (git_paths : list string)
  (start_date end_date : option string) (wordlist : list string)
  : result (list stat) :=
  let contributors := _get_git_contributor_emails git_paths start_date end_date in
  for_each contributors
    (fun stats email =>
       changes ← _get_git_files_adds_dels git_paths email start_date end_date;
       let commits :=
         _get_git_contributor_commit_count git_paths email start_date end_date in
       words ← _get_git_words git_paths email wordlist start_date end_date;
       Ok (stats ++ [Stat email commits (c_files changes) (c_adds changes)
                       (c_dels changes) (c_max_files changes)
                       (c_max_adds changes) (c_max_dels changes) words]))
    [].

End Program.

(** The four shapes of the query of [_get_git_log]. *)
Inductive shape : Type := Both | StartOnly | EndOnly | Neither.

Definition shape_of (start_date end_date : option string) : shape :=
  match truthy start_date, truthy end_date with
  | true, true => Both
  | true, false => StartOnly
  | false, true => EndOnly
  | false, false => Neither
  end.

(** The arguments of the query of each shape. *)
Definition query (sh : shape) (start_date end_date : option string)
  (args : list string) : list string :=
  match sh with
  | Both => after start_date :: before end_date :: args
  | StartOnly => after start_date :: args
  | EndOnly => before end_date :: args
  | Neither => args
  end.

(** The emails a repository's two listings name. *)
Definition listed (git : string -> list string -> git_reply) (path : string)
  (start_date end_date : option string) : list string :=
  Str.split (_get_git_log git path start_date end_date ["--format=%aE"]) ++
  Str.split (_get_git_log git path start_date end_date ["--format=%cE"]).

(** [list(set(l))] lists every element of [l] once. *)
Definition lists_a_set (list_set : list string -> list string) : Prop :=
  forall l, NoDup (list_set l) /\ forall x, x ∈ list_set l <-> x ∈ l.

(** A repository for the examples: one author with three commits, a second
    identity that only committed. *)
Definition example_git : string -> list string -> git_reply :=
  fun _ argv =>
    if existsb (String.eqb "--format=%aE") argv then Printed "a@x.com
a@x.com
a@x.com"
    else if existsb (String.eqb "--format=%cE") argv then Printed "a@x.com
b@x.com
a@x.com"
    else if existsb (String.eqb "--author=a@x.com") argv then
      if existsb (String.eqb "--shortstat") argv then Printed "1a2b3c4 Fix bug
 2 files changed, 10 insertions(+), 2 deletions(-)
5d6e7f8 fixes typo
 1 file changed, 1 insertion(+)
9a8b7c6 refactor
 4 files changed, 5 deletions(-)"
      else Printed "Fix bug
fixes typo
refactor"
    else GitError.

(** [d] is the record [get_statistics] builds for its email. *)
Definition record_of (sre : string -> string -> re_reply)
  (git : string -> list string -> git_reply)
  (git_paths : list string) (start_date end_date : option string)
  (wordlist : list string) (d : stat) : Prop :=
  _get_git_files_adds_dels git git_paths (email d) start_date end_date =
    Ok (Churn (files d) (adds d) (dels d) (max_files d) (max_adds d) (max_dels d)) /\
  commits d =
    _get_git_contributor_commit_count git git_paths (email d) start_date end_date /\
  _get_git_words sre git git_paths (email d) wordlist start_date end_date =
    Ok (words d).

(** ** What a pattern matches, said without the search

    [leads r st st'] holds when the pattern [r], started in state [st], can
    end in state [st'].  The matcher [Re.run] searches these end states in
    Python's order of preference. *)

Module ReSem.
Import Re.

Definition shorter (a b : mstate) : Prop :=
  (length (rest b) < length (rest a))%nat.

Fixpoint leads (r : regex) (st st' : mstate) : Prop :=
  match r with
  | Empty => st' = st
  | Item i => exists c, step st = Some (c, st') /\ accepts i c = true
  | WordBoundary => at_boundary st = true /\ st' = st
  | EndOfString => at_end st = true /\ st' = st
  | Cat r1 r2 => exists st1, leads r1 st st1 /\ leads r2 st1 st'
  | Alt r1 r2 => leads r1 st st' \/ leads r2 st st'
  | Star r1 => rtc (fun a b => leads r1 a b /\ shorter a b) st st'
  | Group n r1 => exists st1, leads r1 st st1 /\ st' = capture n st st1
  end.

(** [st'] is [st] after reading [t]. *)
Definition reads (st : mstate) (t : list ascii) (st' : mstate) : Prop :=
  rest st = t ++ rest st' /\ seen st' = rev t ++ seen st.

(** The same, the captures untouched. *)
Definition moves (st : mstate) (t : list ascii) (st' : mstate) : Prop :=
  rest st = t ++ rest st' /\ seen st' = rev t ++ seen st /\ caps st' = caps st.

(** The state [st] after reading [t], with [r] left ahead. *)
Definition jump (st : mstate) (t r : list ascii) : mstate :=
  MState (rev t ++ seen st) r (caps st).

(** The start of an attempt on [s]. *)
Definition start (s : string) : mstate := MState [] (Str.chars s) ∅.

End ReSem.

(** ** The vocabulary of the specification *)

Module Spec.

Definition is_word_opt (c : option ascii) : bool :=
  match c with Some c => Char.is_word c | None => false end.

(** A word boundary lies between [pre] and [post]: exactly one of the last
    character of [pre] and the first of [post] is a word character. *)
Definition boundary (pre post : list ascii) : Prop :=
  xorb (is_word_opt (last pre)) (is_word_opt (head post)) = true.

(** The same text, letter case apart. *)
Definition same_text (a b : list ascii) : Prop :=
  Forall2 (fun x y => Char.eq_icase x y = true) a b.

Definition begins_with (s : string) (l : list ascii) : Prop :=
  exists t l', l = t ++ l' /\ same_text (Str.chars s) t.

(** A message as [splitlines] hands it over: no line boundary inside. *)
Definition one_line (s : string) : Prop :=
  Forall (fun c => Char.is_linebreak c = false) (Str.chars s).

(** A keyword without the characters that mean something to [re]: it
    stands for itself in the pattern. *)
Definition ordinary (word : string) : Prop :=
  Forall (fun c => special c = false) (Str.chars word).

(** A text of ASCII characters. *)
Definition ascii_text (s : string) : Prop :=
  Forall (fun c => (Char.code c < 128)%nat) (Str.chars s).

Definition suffixes : list string :=
  ["s"; "z"; "d"; "es"; "ed"; "er"; "rs"; "ers"; "or"; "ors"; "ing"; "in"; "-"].

(** The suffix is absent or one of the list, letter case apart. *)
Definition listed_suffix (suf : list ascii) : Prop :=
  suf = [] \/ exists s, s ∈ suffixes /\ same_text (Str.chars s) suf.

(** What may follow the keyword and its optional suffix, in the words of
    the specification: a word boundary, a backslash and an [s], a hyphen,
    an underscore, or the end. *)
Definition closes (before post : list ascii) : Prop :=
  boundary before post \/ begins_with "\s" post \/ begins_with "-" post \/
  begins_with "_" post \/ post = [].

(** The forgiving match of a one-line message, in the words of the
    specification: somewhere in it the keyword starts at a word boundary,
    letter case apart, bare or with one of the suffixes, and what follows
    closes it. *)
Definition qualifies (word message : string) : Prop :=
  exists pre kw suf post,
    Str.chars message = pre ++ kw ++ suf ++ post /\
    boundary pre (kw ++ suf ++ post) /\
    same_text (Str.chars word) kw /\
    (suf = [] \/ exists s, s ∈ suffixes /\ same_text (Str.chars s) suf) /\
    closes (pre ++ kw ++ suf) post.

(** The pattern as the specification reads line 151, every [\b] a word
    boundary and [\\s] a backslash and an [s].  It is not the pattern of
    the program, which is [forgiving]; it decides [qualifies]. *)
Definition suffix_as_read : regex :=
  Opt (Group 2 (Alts WordBoundary (map (fun s => Text (Str.chars s)) suffixes))).

Definition closing_as_read : regex :=
  Cat (Group 3 (Alts WordBoundary
         [Text (Str.chars "\s"); Text (Str.chars "-"); Text (Str.chars "_");
          EndOfString]))
      (Star (Item Dot)).

Definition forgiving_as_read (word : string) : regex :=
  Cat (Star (Item Dot))
 (Cat WordBoundary
 (Cat (Group 1 (Text (Str.chars word)))
 (Cat suffix_as_read closing_as_read))).

Definition qualifies_b (word message : string) : bool :=
  bool_decide (is_Some (re_match (forgiving_as_read word) message)).

(** The keyword somewhere in the message, letter case apart, at a word
    boundary, with a suffix [suffix] allows and followed by what [closed]
    allows. *)
Definition occurs (suffix : list ascii -> Prop)
  (closed : list ascii -> list ascii -> Prop) (word message : string) : Prop :=
  exists pre kw suf post,
    Str.chars message = pre ++ kw ++ suf ++ post /\
    boundary pre (kw ++ suf ++ post) /\
    same_text (Str.chars word) kw /\
    suffix suf /\
    closed (pre ++ kw ++ suf) post.

(** A whitespace character, a hyphen or an underscore comes next, or
    nothing does. *)
Definition blank_next (post : list ascii) : Prop :=
  post = [] \/
  exists c post', post = c :: post' /\
    (Char.is_space c = true \/ c = "-"%char \/ c = "_"%char).

Definition backspace_next (post : list ascii) : Prop :=
  exists post', post = Char.backspace :: post'.

(** What the pattern of the program matches, for a keyword of ordinary
    characters and a one-line message: the keyword at a word boundary, then
    nothing, a BACKSPACE or a suffix of the list, then a BACKSPACE, a
    whitespace character, a hyphen, an underscore or the end. *)
Definition counted (word message : string) : Prop :=
  occurs (fun suf => suf = [Char.backspace] \/ listed_suffix suf)
         (fun _ post => backspace_next post \/ blank_next post) word message.

(** The keyword, bare or with a suffix of the list, followed by a
    whitespace character, a hyphen, an underscore or the end of the line. *)
Definition closed_by_blank (word message : string) : Prop :=
  occurs listed_suffix (fun _ post => blank_next post) word message.

(** The same, a word boundary after the keyword and its suffix being
    enough. *)
Definition closed_by_boundary (word message : string) : Prop :=
  occurs listed_suffix (fun before post => boundary before post \/ blank_next post)
         word message.

Definition no_backspace (message : string) : Prop :=
  Char.backspace ∉ Str.chars message.





(** A date is present: neither [None] nor the empty string, the two that
    are false in Python. *)
Definition present (d : option string) : Prop :=
  exists s, d = Some s /\ s <> EmptyString.

(** The argument [--after="..."] of a date, and [--before="..."]. *)
Definition after_bound (a : string) (d : option string) : Prop :=
  exists s, d = Some s /\ a = "--after=" +:+ Str.dquote +:+ s +:+ Str.dquote.

Definition before_bound (b : string) (d : option string) : Prop :=
  exists s, d = Some s /\ b = "--before=" +:+ Str.dquote +:+ s +:+ Str.dquote.

(** The number a shortstat line gives for a unit ([file], [inser],
    [delet]), if its pattern matches the line. *)
Definition matched (unit line : string) : option Z :=
  m ← Re.re_match (shortstat unit) line;
  g ← Re.group m 2;
  match Str.int g with Ok n => Some n | Raise _ => None end.

(** The same, with 0 for a line the pattern does not match. *)
Definition amount (unit line : string) : Z := default 0 (matched unit line).

Definition amounts (unit : string) (lines : list string) : list Z :=
  map (amount unit) lines.

Definition sum (l : list Z) : Z := fold_right Z.add 0 l.

(** The running maximum of the counter, which starts from 0. *)
Definition top (l : list Z) : Z := fold_right Z.max 0 l.

(** [x] is the largest number of [l], or 0 when [l] is empty. *)
Definition largest_or_zero (x : Z) (l : list Z) : Prop :=
  match l with
  | [] => x = 0
  | _ => x ∈ l /\ forall y, y ∈ l -> y <= x
  end.

(** The total and the maximum of a unit over some lines: the total is the
    sum of the numbers matched, a line without a match counting for 0; the
    maximum is the largest number matched, or 0 when no line matched. *)
Definition tallied (unit : string) (lines : list string) (total high : Z) : Prop :=
  total = sum (amounts unit lines) /\
  largest_or_zero high (omap (matched unit) lines).

(** The three running maxima are not negative. *)
Definition sane (c : churn) : Prop :=
  0 <= c_max_files c /\ 0 <= c_max_adds c /\ 0 <= c_max_dels c.

(** The test of the innermost loop of [_get_git_words] for a keyword that
    is read here, and how many of some messages pass it for a word. *)
Definition hit (word message : string) : bool :=
  match re_match (forgiving word) message with
  | Some m => bool_decide (is_Some (group m 1))
  | None => false
  end.

Definition hits (word : string) (messages : list string) : Z :=
  Z.of_nat (length (filter (fun message => hit word message = true) messages)).

(** How often a word is listed. *)
Definition occurrences (word : string) (wordlist : list string) : Z :=
  Z.of_nat (length (filter (fun w => w = word) wordlist)).

(** A list in descending order of [key]. *)
Definition descending {A : Type} (key : A -> Z) (l : list A) : Prop :=
  StronglySorted (fun a b => key b <= key a) l.

End Spec.

Arguments Re.re_match : simpl never.
Arguments Spec.matched : simpl never.
Arguments Spec.amount : simpl never.

(** A machine without the repositories: every query fails. *)
Definition failing_git : string -> list string -> git_reply := fun _ _ => GitError.


(** For the examples, whose keywords are all read here: a library that
    takes no pattern. *)
Definition no_sre : string -> string -> re_reply := fun _ _ => Invalid.

(** ** The rows as they are printed *)

Module Format.

(** The character of a decimal digit. *)
Definition digit (d : Z) : ascii := ascii_of_nat (48 + Z.to_nat d).

(** The decimal digits of [n], for [n] from 0 on, the lowest first;
    [fuel] bounds their number. *)
Fixpoint digits_low (fuel : nat) (n : Z) : list ascii :=
  match fuel with
  | O => []
  | S fuel' =>
      digit (n mod 10) :: (if n <? 10 then [] else digits_low fuel' (n / 10))
  end.

(** A number has no more decimal digits than binary ones. *)
Definition digits (n : Z) : list ascii :=
  digits_low (S (Z.to_nat (Z.log2 n))) n.

(** The [,] of a format: a comma between the groups of three digits,
    counted from the lowest digit. *)
Fixpoint group3 (l : list ascii) : list ascii :=
  match l with
  | a :: b :: c :: l' =>
      match l' with
      | [] => l
      | _ :: _ => a :: b :: c :: ","%char :: group3 l'
      end
  | _ => l
  end.

(** [format(n, ',d')]: the sign of a negative number, then the digits. *)
Definition comma_d (n : Z) : list ascii :=
  (if n <? 0 then ["-"%char] else []) ++ rev (group3 (digits (Z.abs n))).

(** [format(n, '9,d')]: blanks to the left up to the width 9. *)
Definition d9 (n : Z) : list ascii :=
  replicate (9 - length (comma_d n)) " "%char ++ comma_d n.

(** ['{:9,d}   {}'.format(n, email)] *)
Definition row (n : Z) (email : string) : string :=
  Str.of_chars (d9 n) +:+ "   " +:+ email.

(** Reading a number column back: blanks and commas dropped, a sign, then
    decimal digits. *)
Definition kept (c : ascii) : Prop := c <> ","%char /\ c <> " "%char.

Definition read (l : list ascii) : Z :=
  match filter kept l with
  | c :: ds => if Ascii.eqb c "-" then - Str.decimal ds else Str.decimal (c :: ds)
  | [] => 0
  end.

(** The value of decimal digits given lowest first. *)
Definition value_low (l : list ascii) : Z :=
  fold_right (fun c acc => 10 * acc + Char.digit_value c) 0 l.

End Format.

(** ** The pattern of [clone]

    [re.search('^.+?/([-_a-zA-Z0-9\\.]+)(\\.git)$', git_url, re.IGNORECASE)]
    needs three things the fragment above does not have: the anchor [^], a
    set of characters, and a lazy repetition.  They are added around it. *)

Module Search.

(** What a set [[...]] lists: single characters and ranges. *)
Inductive member : Type :=
| One (c : ascii)
| Range (lo hi : ascii).

Inductive pattern : Type :=
| Plain (r : regex)                (* a pattern of the fragment above *)
| StartOfString                    (* [^] *)
| OneOf (set : list member)        (* [[...]] *)
| Seq (p1 p2 : pattern)            (* p1 p2 *)
| Capture (n : nat) (p : pattern)  (* the n-th capturing group (p) *)
| Many (p : pattern)               (* p*, greedy *)
| Few (p : pattern).               (* p*?, lazy *)

(** [p+] and [p+?]. *)
Definition Many1 (p : pattern) : pattern := Seq p (Many p).
Definition Few1 (p : pattern) : pattern := Seq p (Few p).

Definition lists (m : member) (c : ascii) : bool :=
  match m with
  | One a => Ascii.eqb a c
  | Range lo hi => Char.between (Char.code lo) (Char.code hi) c
  end.

Definition upper (c : ascii) : ascii :=
  if Char.is_lower c then ascii_of_nat (Char.code c - 32) else c.

(** With [re.IGNORECASE] a set accepts a character that it lists in one of
    the two cases. *)
Definition in_set (set : list member) (c : ascii) : bool :=
  existsb (fun m => lists m (Char.lower c) || lists m (upper c)) set.

(** The matcher, in the style of [Re.run].  A greedy repetition tries one
    more iteration before it tries to stop, a lazy one tries to stop
    first. *)
Fixpoint run (p : pattern) (st : mstate) (k : mstate -> option mstate)
  {struct p} : option mstate :=
  match p with
  | Plain r => Re.run r st k
  | StartOfString =>
      match seen st with
      | [] => k st
      | _ :: _ => None
      end
  | OneOf set =>
      match step st with
      | Some (c, st') => if in_set set c then k st' else None
      | None => None
      end
  | Seq p1 p2 => run p1 st (fun st1 => run p2 st1 k)
  | Capture n p1 => run p1 st (fun st1 => k (capture n st st1))
  | Many p1 =>
      (fix loop (fuel : nat) (st : mstate) {struct fuel} : option mstate :=
         match fuel with
         | O => k st
         | S fuel' =>
             match run p1 st (fun st1 =>
                     if (length (rest st1) <? length (rest st))%nat
                     then loop fuel' st1 else None) with
             | Some m => Some m
             | None => k st
             end
         end) (length (rest st)) st
  | Few p1 =>
      (fix loop (fuel : nat) (st : mstate) {struct fuel} : option mstate :=
         match k st with
         | Some m => Some m
         | None =>
             match fuel with
             | O => None
             | S fuel' =>
                 run p1 st (fun st1 =>
                   if (length (rest st1) <? length (rest st))%nat
                   then loop fuel' st1 else None)
             end
         end) (length (rest st)) st
  end.

(** [re.search]: the first position of the string, from the left, at which
    the pattern matches; [seen] is the text before the position, last
    character first. *)
Fixpoint scan (p : pattern) (seen rest : list ascii) : option mstate :=
  match run p (MState seen rest ∅) Some with
  | Some m => Some m
  | None =>
      match rest with
      | [] => None
      | c :: rest' => scan p (c :: seen) rest'
      end
  end.

Definition search (p : pattern) (s : string) : option mstate :=
  scan p [] (Str.chars s).

End Search.

(** [[-_a-zA-Z0-9\.]] *)
Definition name_set : list Search.member :=
  [Search.One "-"; Search.One "_"; Search.Range "a" "z"; Search.Range "A" "Z";
   Search.Range "0" "9"; Search.One "."].

(** ['^.+?/([-_a-zA-Z0-9\\.]+)(\\.git)$'] *)
Definition repo_name_pattern : Search.pattern :=
  Search.Seq Search.StartOfString
 (Search.Seq (Search.Few1 (Search.Plain (Item Dot)))
 (Search.Seq (Search.Plain (Item (Lit "/")))
 (Search.Seq (Search.Capture 1 (Search.Many1 (Search.OneOf name_set)))
 (Search.Seq (Search.Capture 2 (Search.Plain (Text (Str.chars ".git"))))
             (Search.Plain EndOfString))))).

(** ** Paths

    [os.path.join] of [posixpath], the separator being ["/"]: a component
    that starts with the separator starts the path anew; otherwise it is
    appended, after a separator unless the path is empty or ends with
    one. *)

Definition starts_with_sep (s : string) : bool :=
  match s with
  | String c _ => Ascii.eqb c "/"
  | EmptyString => false
  end.

Definition ends_with_sep (s : string) : bool :=
  match rev (Str.chars s) with
  | c :: _ => Ascii.eqb c "/"
  | [] => false
  end.

Definition join_step (path b : string) : string :=
  if starts_with_sep b then b
  else if String.eqb path EmptyString || ends_with_sep path then path +:+ b
  else path +:+ "/" +:+ b.

Definition path_join (a : string) (p : list string) : string :=
  fold_left join_step p a.

(** ** The command line, the configuration and the repositories *)

Inductive stream : Type := Stdout | Stderr.

(** A call of [print]: the stream and the text. *)
Definition event : Type := (stream * string)%type.

(** The exceptions nothing catches. *)
Inductive error : Type :=
| Exn (e : exn)                  (* one of the statistics above *)
| AttributeError (text : string)
| TypeError (text : string)
| UncaughtGitError
| Other (name text : string).    (* an exception of another class *)

(** How a call ends: it returns, [sys.exit] is called, or an exception
    leaves it. *)
Inductive outcome (A : Type) : Type :=
| Returns (a : A)
| Exits (status : Z)
| Fails (e : error).

Arguments Returns {A} a.
Arguments Exits {A} status.
Arguments Fails {A} e.

(** What [getopt.getopt] does: return the options and the other arguments,
    or raise [GetoptError]. *)
Inductive getopt_reply : Type :=
| Parsed (opts : list (string * string)) (args : list string)
| GetoptError (msg : string).

(** The dictionary [parse_args] returns; [options.get('init', False)] is
    all that reads the key [init], which is absent or [True]. *)
Record cmd_options : Type := Options {
  opt_init : bool;
  opt_config : option string;
  opt_tmpdir : option string
}.

(** The mapping of a configuration file, its keys [tmpdir], [repositories]
    and [wordlist] of the types the program expects, each present or not;
    other keys play no part. *)
Record document : Type := Document {
  doc_tmpdir : option string;
  doc_repositories : option (list string);
  doc_wordlist : option (list string)
}.

(** What [open(path, 'r')] and [yaml.load(stream)] do: return the
    document, [None] for an empty one, raise [YAMLError], or raise an
    exception that is no [YAMLError]: [open] is outside the [try] and may
    raise [OSError] on a file that cannot be read, [yaml.load] may raise
    [UnicodeDecodeError] on one that cannot be decoded, or [TypeError] where
    the library asks for a second argument. *)
Inductive yaml_reply : Type :=
| Loaded (data : option document)
| YAMLError (text : string)
| LoadFails (name text : string).

(** The dictionary [read_config] returns. *)
Record config : Type := Settings {
  cfg_tmpdir : string;
  cfg_repositories : list string;
  cfg_wordlist : list string
}.

Definition is_in (opt : string) (names : list string) : bool :=
  existsb (String.eqb opt) names.

(** The line of dashes around a title. *)
Definition rule : string :=
  "---------------------------------------------------------------------------------------".

(** [print()], the rule, the title, the rule. *)
Definition heading (title : string) : list string :=
  [EmptyString; rule; title; rule].

Definition row_of (r : Z * string) : string := Format.row (fst r) (snd r).

Section System.

(** The machine the program runs on: its files and repositories.  The
    calls that look at it or change it are parameters. *)
Variable world : Type.

(** [getopt.getopt(argv, 'c:t:hvi', [...])] *)
Variable getopt : list string -> getopt_reply.

(** [os.path.isfile], [os.path.isdir] *)
Variable isfile : world -> string -> bool.
Variable isdir : world -> string -> bool.

(** [yaml.load] on the opened file *)
Variable load : world -> string -> yaml_reply.

(** [Repo(path)]: does it return, or raise [GitError]? *)
Variable opens : world -> string -> bool.

(** [repo.remotes.origin]: is there a remote of the name [origin]?  The
    attribute is looked up by name and missing without one. *)
Variable has_origin : world -> string -> bool.

(** [origin.fetch()] and [Repo.clone_from(url, path)]: [true] when the
    call returns, [false] when it raises [GitError]; and the machine after
    it. *)
Variable fetch : world -> string -> bool * world.
Variable clone_from : world -> string -> string -> bool * world.

(** [Git(path).log(...)] *)
Variable git_log : world -> string -> list string -> git_reply.

(** [re.match] for the patterns that are not read here, see
    [forgiving_match]. *)
Variable sre : string -> string -> re_reply.

Variable list_set : list string -> list string.

(** The globals [CONFIG_PATH] and [TMPDIR_PATH], computed from the
    environment when the module is loaded. *)
Variable CONFIG_PATH : string.
Variable TMPDIR_PATH : string.

(** A computation: from the machine before it to the machine after it,
    what was printed, and how it ended. *)
Record reply (A : Type) : Type := Reply {
  final : world;
  output : list event;
  ending : outcome A
}.

Arguments Reply {A} final output ending.
Arguments final {A} r.
Arguments output {A} r.
Arguments ending {A} r.

Definition io (A : Type) : Type := world -> reply A.

#[global] Instance io_ret : MRet io := fun _ a w => Reply w [] (Returns a).

#[global] Instance io_bind : MBind io := fun _ _ f m w =>
  let r := m w in
  match ending r with
  | Returns a =>
      let r' := f a (final r) in
      Reply (final r') (output r ++ output r') (ending r')
  | Exits status => Reply (final r) (output r) (Exits status)
  | Fails e => Reply (final r) (output r) (Fails e)
  end.

Definition print (s : stream) (text : string) : io unit :=
  fun w => Reply w [(s, text)] (Returns tt).

Definition sys_exit {A : Type} (status : Z) : io A :=
  fun w => Reply w [] (Exits status).

Definition raise {A : Type} (e : error) : io A :=
  fun w => Reply w [] (Fails e).

(** A look at the machine. *)
Definition ask {A : Type} (f : world -> A) : io A :=
  fun w => Reply w [] (Returns (f w)).

(** A call that may change the machine. *)
Definition act (f : world -> bool * world) : io bool :=
  fun w => Reply (snd (f w)) [] (Returns (fst (f w))).

Definition lift {A : Type} (r : result A) : io A :=
  match r with
  | Ok a => mret a
  | Raise e => raise (Exn e)
  end.

(** A loop that collects what its body returns. *)
Fixpoint for_io {A B : Type} (l : list A) (body : A -> io B) : io (list B) :=
  match l with
  | [] => mret []
  | x :: l' => b ← body x; bs ← for_io l' body; mret (b :: bs)
  end.

Definition print_help : io unit := print Stdout "Help".
Definition print_version : io unit := print Stdout "Version".

Fixpoint validate_repos (repo_paths : list string) : io unit :=
  match repo_paths with
  | [] => mret tt
  | repo_path :: repo_paths' =>
      ok ← ask (fun w => opens w repo_path);
      if ok : bool then validate_repos repo_paths'
      else
        print Stderr ("[ERR] Repo does not yet exist: " +:+ repo_path);;
        print Stderr "Run with --init first, see --help";;
        sys_exit 1
  end.

(** [repo.remotes.origin.fetch()], after ["Updating"] is printed: without
    a remote [origin] the lookup raises [AttributeError], which the handler
    of [GitError] does not catch. *)
Definition fetch_origin (repo_path : string) : io bool :=
  origin ← ask (fun w => has_origin w repo_path);
  if origin : bool then act (fun w => fetch w repo_path)
  else raise (AttributeError "'IterableList' object has no attribute 'origin'").

(** [repo_name.group(1)] on [None] is an [AttributeError]; a group that
    took no part would make [os.path.join] raise [TypeError]. *)
Definition clone (git_url tmp_dir : string) (init : bool) : io string :=
  match Search.search repo_name_pattern git_url with
  | None => raise (AttributeError "'NoneType' object has no attribute 'group'")
  | Some m =>
      match group m 1 with
      | None => raise (TypeError "expected str, bytes or os.PathLike object, not NoneType")
      | Some repo_name =>
          let repo_path := path_join "/" [tmp_dir; repo_name] in
          if negb init then mret repo_path
          else
            opened ← ask (fun w => opens w repo_path);
            fetched ←
              (if opened : bool
               then print Stdout ("Updating: " +:+ repo_path);;
                    fetch_origin repo_path
               else mret false);
            if fetched : bool then mret repo_path
            else
              print Stdout ("Cloning : " +:+ repo_path);;
              cloned ← act (fun w => clone_from w git_url repo_path);
              if cloned : bool then mret repo_path else raise UncaughtGitError
      end
  end.

Definition empty_document : document := Document None None None.

Definition normalize (data : document) : config :=
  Settings (default TMPDIR_PATH (doc_tmpdir data))
           (default [] (doc_repositories data))
           (default [] (doc_wordlist data)).

Definition CONFIG_DEFS : config := Settings TMPDIR_PATH [] [].

Definition read_config (path : string) : io config :=
  found ← ask (fun w => isfile w path);
  if found : bool then
    loaded ← ask (fun w => load w path);
    match loaded with
    | Loaded None => mret CONFIG_DEFS
    | Loaded (Some data) => mret (normalize data)
    | YAMLError text =>
        print Stderr "[ERR] Cannot read yaml file";;
        print Stderr text;;
        mret (normalize empty_document)
    | LoadFails name text => raise (Other name text)
    end
  else mret (normalize empty_document).

(** The loop of [parse_args] over the options [getopt] found. *)
Fixpoint parse_opts (opts : list (string * string)) (options : cmd_options)
  : io cmd_options :=
  match opts with
  | [] => mret options
  | (opt, arg) :: opts' =>
      if is_in opt ["-h"; "--help"] then print_help;; sys_exit 0
      else if is_in opt ["-v"; "--version"] then print_version;; sys_exit 0
      else if is_in opt ["-i"; "--init"] then
        parse_opts opts' (Options true (opt_config options) (opt_tmpdir options))
      else if is_in opt ["-c"; "--config"] then
        found ← ask (fun w => isfile w arg);
        if found : bool then
          parse_opts opts' (Options (opt_init options) (Some arg) (opt_tmpdir options))
        else
          print Stderr ("[ERR] " +:+ opt +:+ " specified config does not exist: " +:+ arg);;
          sys_exit 2
      else if is_in opt ["-t"; "--tmpdir"] then
        found ← ask (fun w => isdir w arg);
        if found : bool then
          parse_opts opts' (Options (opt_init options) (opt_config options) (Some arg))
        else
          print Stderr ("[ERR] " +:+ opt +:+ " specified directory does not exist: " +:+ arg);;
          sys_exit 2
      else parse_opts opts' options
  end.

(** In the handler of [GetoptError], [map(str, err)] raises [TypeError], an
    exception not being iterable: the two calls of [print] and
    [sys.exit(2)] are not reached. *)
Definition parse_args (argv : list string) : io cmd_options :=
  match getopt argv with
  | GetoptError _ => raise (TypeError "'GetoptError' object is not iterable")
  | Parsed opts _ => parse_opts opts (Options false None None)
  end.

Fixpoint print_lines (lines : list string) : io unit :=
  match lines with
  | [] => mret tt
  | line :: lines' => print Stdout line;; print_lines lines'
  end.

(** A numeric section of the report. *)
Definition print_section (title : string) (m : metric) (statistics : list stat)
  : io unit :=
  print_lines (heading title);;
  print_lines (map row_of (section show_top m statistics)).

(** The loop over the sorted records in the section of a word: the rows
    are printed one by one, up to a record without the word. *)
Fixpoint print_word_rows (word : string) (cnt : nat) (l : list stat) : io unit :=
  match l with
  | [] => mret tt
  | item :: l' =>
      match words item !! word with
      | None => raise (Exn (KeyError word))
      | Some n =>
          (if (0 <? n) && (cnt <? show_top)%nat
           then print Stdout (Format.row n (email item)) else mret tt);;
          print_word_rows word (S cnt) l'
      end
  end.

Definition print_word_section (statistics : list stat) (word : string) : io unit :=
  print_lines (heading (" WORD: " +:+ word));;
  print_word_rows word 0 (sorted_reverse (word_key word) statistics).

(** The part of [main] that prints. *)
Definition report (statistics : list stat) (wordlist : list string) : io unit :=
  print_section " NUMBER OF COMMITS" Commits statistics;;
  print_section " CHANGED FILES" Files statistics;;
  print_section " MAX CHANGED FILES PER COMMIT" MaxFiles statistics;;
  print_section " LINES OF ADDITIONS" Adds statistics;;
  print_section " MAX LINES OF ADDITIONS PER COMMIT" MaxAdds statistics;;
  print_section " LINES OF DELETIONS" Dels statistics;;
  print_section " MAX LINES OF DELETIONS PER COMMIT" MaxDels statistics;;
  for_io wordlist (print_word_section statistics);;
  mret tt.

Definition start_date : option string := Some "2019-01-01".
Definition end_date : option string := Some "2019-12-31".

Definition main (argv : list string) : io unit :=
  options ← parse_args argv;
  settings ← read_config (default CONFIG_PATH (opt_config options));
  let tmpdir := default (cfg_tmpdir settings) (opt_tmpdir options) in
  repo_paths ← for_io (cfg_repositories settings)
                 (fun repo => clone repo tmpdir (opt_init options));
  validate_repos repo_paths;;
  statistics ← (fun w =>
    lift (get_statistics sre (git_log w) list_set repo_paths start_date end_date
            (cfg_wordlist settings)) w);
  report statistics (cfg_wordlist settings).

End System.

Arguments Reply {world A} final output ending.
Arguments final {world A} r.
Arguments output {world A} r.
Arguments ending {world A} r.
Arguments print {world} s text _.
Arguments sys_exit {world A} status _.
Arguments raise {world A} e _.
Arguments ask {world A} f _.
Arguments act {world} f _.
Arguments lift {world A} r _.
Arguments for_io {world A B} l body _.
Arguments print_lines {world} lines _.
Arguments print_help {world} _.
Arguments print_version {world} _.
Arguments print_section {world} title m statistics _.
Arguments print_word_rows {world} word cnt l _.
Arguments print_word_section {world} statistics word _.
Arguments report {world} statistics wordlist _.
Arguments validate_repos {world} opens repo_paths _.
Arguments fetch_origin {world} has_origin fetch repo_path _.
Arguments clone {world} opens has_origin fetch clone_from git_url tmp_dir init _.
Arguments read_config {world} isfile load TMPDIR_PATH path _.
Arguments parse_opts {world} isfile isdir opts options _.
Arguments parse_args {world} getopt isfile isdir argv _.
Arguments main {world} getopt isfile isdir load opens has_origin fetch clone_from
  git_log sre list_set CONFIG_PATH TMPDIR_PATH argv _.

(** What a pattern with the additions of [Search] matches, said without
    the search. *)

Module SearchSem.

Fixpoint leads (p : Search.pattern) (st st' : mstate) : Prop :=
  match p with
  | Search.Plain r => ReSem.leads r st st'
  | Search.StartOfString => seen st = [] /\ st' = st
  | Search.OneOf set =>
      exists c, step st = Some (c, st') /\ Search.in_set set c = true
  | Search.Seq p1 p2 => exists st1, leads p1 st st1 /\ leads p2 st1 st'
  | Search.Capture n p1 => exists st1, leads p1 st st1 /\ st' = capture n st st1
  | Search.Many p1 | Search.Few p1 =>
      rtc (fun a b => leads p1 a b /\ ReSem.shorter a b) st st'
  end.

End SearchSem.

(** The URLs the pattern of [clone] matches, and the name each gives: some
    text without a newline, a slash, the name, made of letters, digits,
    hyphens, underscores and dots, then [.git] in any case, at the end of
    the URL or before a newline that ends it. *)
Definition names (git_url name : string) : Prop :=
  exists pre ext nl,
    Str.chars git_url = pre ++ "/"%char :: Str.chars name ++ ext ++ nl /\
    pre <> [] /\ Forall (fun c => Char.is_LF c = false) pre /\
    Str.chars name <> [] /\
    Forall (fun c => Search.in_set name_set c = true) (Str.chars name) /\
    Spec.same_text (Str.chars ".git") ext /\
    (nl = [] \/ exists c, nl = [c] /\ Char.is_LF c = true).

(** An option at which the loop of [parse_args] stops: help or version
    asked for, a configuration file that is no file, a directory that is no
    directory. *)
Definition stops {world : Type} (isfile isdir : world -> string -> bool)
  (w : world) (o : string * string) : Prop :=
  is_in (fst o) ["-h"; "--help"; "-v"; "--version"] = true \/
  (is_in (fst o) ["-c"; "--config"] = true /\ isfile w (snd o) = false) \/
  (is_in (fst o) ["-t"; "--tmpdir"] = true /\ isdir w (snd o) = false).

(** The argument of the last of the options of some names. *)
Definition last_arg (names : list string) (opts : list (string * string))
  : option string :=
  last (map snd (filter (fun o => is_in (fst o) names = true) opts)).

(** The options after a part of the command line that the loop passes,
    from the options before it. *)
Definition options_after (opts : list (string * string)) (options : cmd_options)
  : cmd_options :=
  Options (opt_init options || existsb (fun o => is_in (fst o) ["-i"; "--init"]) opts)
          (from_option Some (opt_config options) (last_arg ["-c"; "--config"] opts))
          (from_option Some (opt_tmpdir options) (last_arg ["-t"; "--tmpdir"] opts)).

(** What the loop does at an option that stops it. *)
Definition stop_reply {world : Type} (isfile isdir : world -> string -> bool)
  (w : world) (opt arg : string) (r : reply world cmd_options) : Prop :=
  (is_in opt ["-h"; "--help"] = true /\
   r = Reply w [(Stdout, "Help")] (Exits 0)) \/
  (is_in opt ["-v"; "--version"] = true /\
   r = Reply w [(Stdout, "Version")] (Exits 0)) \/
  (is_in opt ["-c"; "--config"] = true /\ isfile w arg = false /\
   r = Reply w [(Stderr, "[ERR] " +:+ opt +:+ " specified config does not exist: " +:+ arg)]
         (Exits 2)) \/
  (is_in opt ["-t"; "--tmpdir"] = true /\ isdir w arg = false /\
   r = Reply w [(Stderr, "[ERR] " +:+ opt +:+ " specified directory does not exist: " +:+ arg)]
         (Exits 2)).

(** The test of [stops], computed. *)
Definition passes {world : Type} (isfile isdir : world -> string -> bool)
  (w : world) (o : string * string) : bool :=
  negb (is_in (fst o) ["-h"; "--help"; "-v"; "--version"]) &&
  (negb (is_in (fst o) ["-c"; "--config"]) || isfile w (snd o)) &&
  (negb (is_in (fst o) ["-t"; "--tmpdir"]) || isdir w (snd o)).

(** The titles of the seven numeric sections, in the order [main] prints
    them, each with its metric. *)
Definition numeric_titles : list (string * metric) :=
  [(" NUMBER OF COMMITS", Commits);
   (" CHANGED FILES", Files);
   (" MAX CHANGED FILES PER COMMIT", MaxFiles);
   (" LINES OF ADDITIONS", Adds);
   (" MAX LINES OF ADDITIONS PER COMMIT", MaxAdds);
   (" LINES OF DELETIONS", Dels);
   (" MAX LINES OF DELETIONS PER COMMIT", MaxDels)].

(** The lines of a section: the heading and the rows. *)
Definition section_lines (title : string) (rows : list (Z * string)) : list string :=
  heading title ++ map row_of rows.

(** The lines of the seven numeric sections. *)
Definition numeric_lines (statistics : list stat) : list string :=
  concat (map (fun tm => section_lines (fst tm) (section show_top (snd tm) statistics))
              numeric_titles).

(** Lines as calls of [print] on the standard output. *)
Definition on_stdout (lines : list string) : list event := map (pair Stdout) lines.

(** The exceptions that can leave [main]: the [TypeError] of the handler
    of [GetoptError], what [open] and [yaml.load] raise that is no
    [YAMLError], the [AttributeError] of a URL without a name or of a
    repository without a remote [origin], the [GitError] of a failed
    cloning, the [re.error] of a keyword that is no pattern. *)
Definition escapes (e : error) : Prop :=
  e = TypeError "'GetoptError' object is not iterable" \/
  (exists name text, e = Other name text) \/
  e = AttributeError "'NoneType' object has no attribute 'group'" \/
  e = AttributeError "'IterableList' object has no attribute 'origin'" \/
  e = UncaughtGitError \/
  (exists pattern, e = Exn (ReError pattern)).

(** Nothing of the report is among some printed lines: the rule is not. *)
Definition before_report (out : list event) : Prop := (Stdout, rule) ∉ out.

(** A machine for the examples: the paths that hold a repository; cloning
    adds the path, fetching changes nothing, and both succeed. *)
Definition example_opens (w : list string) (path : string) : bool :=
  existsb (String.eqb path) w.

Definition example_has_origin (w : list string) (path : string) : bool := true.

Definition example_fetch (w : list string) (path : string) : bool * list string :=
  (true, w).

Definition example_clone_from (w : list string) (git_url path : string)
  : bool * list string :=
  (true, path :: w).

Definition example_isfile (w : list string) (path : string) : bool :=
  String.eqb path "conf.yml".

Definition example_isdir (w : list string) (path : string) : bool :=
  String.eqb path "/tmp".

(** What [getopt] makes of some command lines. *)
Definition example_getopt (argv : list string) : getopt_reply :=
  match argv with
  | ["-c"; path] => Parsed [("-c", path)] []
  | ["-i"; "-c"; path] => Parsed [("-i", EmptyString); ("-c", path)] []
  | ["-c"; path; "--help"; "-t"; dir] =>
      Parsed [("-c", path); ("--help", EmptyString); ("-t", dir)] []
  | _ => GetoptError "option not recognized"
  end.

(** A configuration file with one repository and one word, and the log of
    the examples above for every machine. *)
Definition example_load (w : list string) (path : string) : yaml_reply :=
  Loaded (Some (Document None
                  (Some ["https://github.com/cytopia/git-stats.git"])
                  (Some ["fix"]))).

Definition example_git_log (w : list string) : string -> list string -> git_reply :=
  example_git.

(** [main] on the machine of the examples. *)
Definition example_main (argv : list string) : io (list string) unit :=
  main example_getopt example_isfile example_isdir example_load example_opens
    example_has_origin example_fetch example_clone_from example_git_log no_sre
    remove_dups "/home/user/.config/git-stats/conf.yml" "/tmp" argv.

(** Three machines on which [main] fails: the configuration file cannot
    be opened; the wordlist holds a keyword that is no pattern; the
    repositories have no remote [origin]. *)
Definition unreadable_load (w : list string) (path : string) : yaml_reply :=
  LoadFails "PermissionError" "[Errno 13] Permission denied".

Definition bad_keyword_load (w : list string) (path : string) : yaml_reply :=
  Loaded (Some (Document None
                  (Some ["https://github.com/cytopia/git-stats.git"])
                  (Some ["fix("]))).

Definition without_origin (w : list string) (path : string) : bool := false.

Definition failing_main (load : list string -> string -> yaml_reply)
  (has_origin : list string -> string -> bool) (argv : list string)
  : io (list string) unit :=
  main example_getopt example_isfile example_isdir load example_opens
    has_origin example_fetch example_clone_from example_git_log no_sre
    remove_dups "/home/user/.config/git-stats/conf.yml" "/tmp" argv.

(** A log that answers only the queries for the year of [main]. *)
Definition example_git_2019 (w : list string) (path : string) (argv : list string)
  : git_reply :=
  match argv with
  | a :: b :: _ =>
      if String.eqb a (after start_date) && String.eqb b (before end_date)
      then example_git path argv else GitError
  | _ => GitError
  end.


(** * Properties *)

(** ** The matcher finds a match exactly when there is one *)

Module ReFacts.
Import Re ReSem.

Lemma run_correct (r : regex) : forall st k,
  (forall m, run r st k = Some m -> exists st', leads r st st' /\ k st' = Some m) /\
  (run r st k = None -> forall st', leads r st st' -> k st' = None).
Proof.
  induction r as [ | i | | | r1 IH1 r2 IH2 | r1 IH1 r2 IH2 | r1 IH1 | n r1 IH1];
    intros st k; simpl.
  - split; [intros m H; exists st; auto | intros H st' ->; exact H].
  - destruct (step st) as [[c st1]|] eqn:Hs.
    + destruct (accepts i c) eqn:Ha; split.
      * intros m H. exists st1. split; [exists c; auto | exact H].
      * intros H st' (c' & Hc' & _). congruence.
      * discriminate.
      * intros _ st' (c' & Hc' & Ha'). congruence.
    + split; [discriminate | intros _ st' (c' & Hc' & _); discriminate].
  - destruct (at_boundary st); split.
    + intros m H. exists st. auto.
    + intros H st' [_ ->]. exact H.
    + discriminate.
    + intros _ st' [? _]. discriminate.
  - destruct (at_end st); split.
    + intros m H. exists st. auto.
    + intros H st' [_ ->]. exact H.
    + discriminate.
    + intros _ st' [? _]. discriminate.
  - split.
    + intros m H. apply IH1 in H as (st1 & H1 & H).
      apply IH2 in H as (st' & H2 & H). exists st'. split; [exists st1; auto | exact H].
    + intros H st' (st1 & H1 & H2).
      pose proof (proj2 (IH1 st _) H st1 H1) as H'. simpl in H'.
      exact (proj2 (IH2 st1 k) H' st' H2).
  - destruct (run r1 st k) as [m1|] eqn:E1; split.
    + intros m [= <-]. apply IH1 in E1 as (st' & ? & ?). exists st'. auto.
    + discriminate.
    + intros m H. apply IH2 in H as (st' & ? & ?). exists st'. auto.
    + intros H st' [H1 | H2].
      * exact (proj2 (IH1 st k) E1 st' H1).
      * exact (proj2 (IH2 st k) H st' H2).
  - assert (Hfuel : (length (rest st) <= length (rest st))%nat) by lia.
    revert Hfuel. generalize (length (rest st)) at 2 3 4 as fuel.
    intros fuel. revert st.
    induction fuel as [|fuel IHf]; intros st Hfuel.
    + split.
      * intros m H. exists st. split; [apply rtc_refl | exact H].
      * intros H st' Hr. destruct Hr as [|a b c [_ Hs] _]; [exact H|].
        unfold shorter in Hs. lia.
    + match goal with
      | |- context [run r1 st ?k1] => set (k' := k1)
      end.
      destruct (run r1 st k') as [m1|] eqn:E1; split.
      * intros m [= <-]. apply IH1 in E1 as (st1 & H1 & Hk). unfold k' in Hk.
        destruct (length (rest st1) <? length (rest st))%nat eqn:Hlt; [|discriminate].
        apply Nat.ltb_lt in Hlt.
        apply IHf in Hk as (st' & Hr & Hk); [|lia].
        exists st'. split; [|exact Hk].
        eapply rtc_l; [split; [exact H1 | exact Hlt] | exact Hr].
      * discriminate.
      * intros m H. exists st. split; [apply rtc_refl | exact H].
      * intros H st' Hr. destruct Hr as [|a b c [H1 Hs] Hr]; [exact H|].
        pose proof (proj2 (IH1 a k') E1 b H1) as Hk. unfold k' in Hk.
        unfold shorter in Hs. apply Nat.ltb_lt in Hs as Hs'. rewrite Hs' in Hk.
        refine (proj2 (IHf b _) Hk c Hr). lia.
  - split.
    + intros m H. apply IH1 in H as (st1 & H1 & H).
      exists (capture n st st1). split; [exists st1; auto | exact H].
    + intros H st' (st1 & H1 & ->). exact (proj2 (IH1 st _) H st1 H1).
Qed.

Lemma moves_nil st : moves st [] st.
Proof. repeat split. Qed.

Lemma moves_app st t1 st1 t2 st2 :
  moves st t1 st1 -> moves st1 t2 st2 -> moves st (t1 ++ t2) st2.
Proof.
  intros (R1 & S1 & C1) (R2 & S2 & C2). repeat split.
  - rewrite R1, R2. now rewrite <- app_assoc.
  - rewrite S2, S1, rev_app_distr. now rewrite <- app_assoc.
  - congruence.
Qed.

Lemma moves_inv st st' : moves st [] st' -> st' = st.
Proof.
  destruct st, st'. intros (R & S & C). simpl in *. congruence.
Qed.

Lemma step_moves st c st' : step st = Some (c, st') <-> moves st [c] st'.
Proof.
  unfold step, moves. destruct st as [s r cs], st' as [s' r' cs']; simpl. split.
  - destruct r as [|x r]; [discriminate|]. intros [= -> <- <- <-]. auto.
  - intros (-> & -> & ->). reflexivity.
Qed.

Lemma moves_length st t st' :
  moves st t st' -> length (rest st) = (length t + length (rest st'))%nat.
Proof. intros (R & _). rewrite R. apply length_app. Qed.

Lemma leads_star_items i st st' :
  leads (Star (Item i)) st st' <->
  exists t, moves st t st' /\ Forall (fun c => accepts i c = true) t.
Proof.
  simpl. split.
  - induction 1 as [st | a b c [(x & Hs & Ha) _] _ (t & Hm & Ht)].
    + exists []. split; [apply moves_nil | constructor].
    + exists (x :: t). split; [|constructor; auto].
      apply step_moves in Hs. apply (moves_app _ [x] _ _ _ Hs Hm).
  - intros (t & Hm & Ht). revert st Hm. induction Ht as [|x t Hx Ht IH]; intros st Hm.
    + apply moves_inv in Hm as ->. apply rtc_refl.
    + set (st1 := MState (x :: seen st) (t ++ rest st') (caps st)).
      assert (Hs : step st = Some (x, st1)).
      { unfold step. destruct Hm as (-> & _). reflexivity. }
      apply rtc_l with st1.
      * split; [exists x; auto|]. unfold shorter, st1. simpl.
        destruct Hm as (-> & _). simpl. lia.
      * apply IH. destruct Hm as (R & S & C). repeat split; simpl; auto.
        rewrite S. simpl. now rewrite <- app_assoc.
Qed.

Lemma leads_plus_items i st st' :
  leads (Plus (Item i)) st st' <->
  exists t, moves st t st' /\ Forall (fun c => accepts i c = true) t /\ t <> [].
Proof.
  unfold Plus. change (leads (Cat ?a ?b) st st') with
    (exists st1, leads a st st1 /\ leads b st1 st'). split.
  - intros (st1 & (x & Hs & Ha) & H). apply leads_star_items in H as (t & Hm & Ht).
    exists (x :: t). split; [|split; [constructor; auto | discriminate]].
    apply step_moves in Hs. apply (moves_app _ [x] _ _ _ Hs Hm).
  - intros (t & Hm & Ht & Hne). destruct t as [|x t]; [congruence|].
    inversion Ht as [|? ? Hx Ht']; subst.
    set (st1 := MState (x :: seen st) (t ++ rest st') (caps st)).
    exists st1. split.
    + exists x. split; [|exact Hx]. unfold step. destruct Hm as (-> & _). reflexivity.
    + apply leads_star_items. exists t. split; [|exact Ht'].
      destruct Hm as (R & S & C). repeat split; simpl; auto.
      rewrite S. simpl. now rewrite <- app_assoc.
Qed.

Lemma leads_text w st st' :
  leads (Text w) st st' <-> exists t, moves st t st' /\ Spec.same_text w t.
Proof.
  revert st. induction w as [|a w IH]; intros st; simpl.
  - split.
    + intros ->. exists []. split; [apply moves_nil | constructor].
    + intros (t & Hm & Ht). inversion Ht; subst. now apply moves_inv in Hm.
  - split.
    + intros (st1 & (x & Hs & Ha) & H). apply IH in H as (t & Hm & Ht).
      exists (x :: t). split; [|constructor; auto].
      apply step_moves in Hs. apply (moves_app _ [x] _ _ _ Hs Hm).
    + intros (t & Hm & Ht). inversion Ht as [|? x ? t' Hx Ht']; subst.
      set (st1 := MState (x :: seen st) (t' ++ rest st') (caps st)).
      exists st1. split.
      * exists x. split; [|exact Hx]. unfold step. destruct Hm as (-> & _). reflexivity.
      * apply IH. exists t'. split; [|exact Ht'].
        destruct Hm as (R & S & C). repeat split; simpl; auto.
        rewrite S. simpl. now rewrite <- app_assoc.
Qed.

Lemma moves_consumed st t st' : moves st t st' -> consumed st st' = t.
Proof.
  intros Hm. unfold consumed. rewrite (moves_length _ _ _ Hm).
  destruct Hm as (-> & _).
  replace (length t + length (rest st') - length (rest st'))%nat with (length t) by lia.
  now rewrite take_app_length.
Qed.

(** Unfolding [leads] one constructor at a time. *)
Lemma leads_cat a b st st' :
  leads (Cat a b) st st' <-> exists st1, leads a st st1 /\ leads b st1 st'.
Proof. reflexivity. Qed.

Lemma leads_group n a st st' :
  leads (Group n a) st st' <-> exists st1, leads a st st1 /\ st' = capture n st st1.
Proof. reflexivity. Qed.

Lemma leads_opt a st st' :
  leads (Opt a) st st' <-> leads a st st' \/ st' = st.
Proof. reflexivity. Qed.

Lemma leads_alts a rs st st' :
  leads (Alts a rs) st st' <-> leads a st st' \/ exists b, b ∈ rs /\ leads b st st'.
Proof.
  revert a. induction rs as [|b rs IH]; intros a; simpl.
  - split; [auto | intros [H | (b & Hb & _)]; [exact H | inversion Hb]].
  - rewrite IH. split.
    + intros [H | [H | (c & Hc & H)]]; [auto | right | right].
      * exists b. split; [constructor | exact H].
      * exists c. split; [now constructor | exact H].
    + intros [H | (c & Hc & H)]; [auto|]. right.
      inversion Hc; subst; [auto | right; eauto].
Qed.

(** What [re_match] finds. *)
Lemma re_match_sound r s m : re_match r s = Some m -> leads r (start s) m.
Proof.
  intros H. apply (proj1 (run_correct r _ _)) in H as (st' & H & [= ->]). exact H.
Qed.

Lemma re_match_complete r s st' :
  leads r (start s) st' -> exists m, re_match r s = Some m.
Proof.
  intros H. destruct (re_match r s) as [m|] eqn:E; [eauto|].
  pose proof (proj2 (run_correct r _ _) E st' H). discriminate.
Qed.

Lemma moves_reads st t st' : moves st t st' -> reads st t st'.
Proof. intros (R & S & _). split; auto. Qed.

Lemma reads_nil st : reads st [] st.
Proof. split; reflexivity. Qed.

Lemma reads_app st t1 st1 t2 st2 :
  reads st t1 st1 -> reads st1 t2 st2 -> reads st (t1 ++ t2) st2.
Proof.
  intros (R1 & S1) (R2 & S2). split.
  - rewrite R1, R2. now rewrite <- app_assoc.
  - rewrite S2, S1, rev_app_distr. now rewrite <- app_assoc.
Qed.

Lemma reads_capture st t st' n a : reads st t st' -> reads st t (capture n a st').
Proof. intros (R & S). split; assumption. Qed.

Lemma reads_from_capture st t st' n a :
  reads (capture n a st) t st' -> reads st t st'.
Proof. intros (R & S). split; assumption. Qed.

Lemma head_rev (l : list ascii) : head (rev l) = last l.
Proof.
  induction l as [|x l _] using rev_ind; [reflexivity|].
  rewrite rev_app_distr, last_snoc. reflexivity.
Qed.

Lemma at_boundary_spec st pre :
  seen st = rev pre -> at_boundary st = true <-> Spec.boundary pre (rest st).
Proof.
  intros Hs. unfold at_boundary, Spec.boundary, word_behind, word_ahead.
  rewrite Hs, <- head_rev. now destruct (rev pre), (rest st).
Qed.

(** The digits of a shortstat match. *)
Lemma shortstat_group unit line m :
  re_match (shortstat unit) line = Some m ->
  exists ds, group m 2 = Some (Str.of_chars ds) /\ ds <> [] /\
             Forall (fun c => Char.is_digit c = true) ds.
Proof.
  intros H. apply re_match_sound in H. unfold shortstat in H.
  apply leads_cat in H as (s1 & _ & H).
  apply leads_group in H as (s2 & H & ->).
  apply leads_cat in H as (a & _ & H).
  apply leads_cat in H as (b & Hb & H).
  apply leads_group in Hb as (c & Hd & ->).
  apply leads_cat in H as (d & Hsp & Hu).
  apply leads_plus_items in Hd as (ds & Hm & Hds & Hne).
  apply leads_plus_items in Hsp as (? & (_ & _ & Hc1) & _).
  apply leads_text in Hu as (? & (_ & _ & Hc2) & _).
  exists ds. split; [|split; assumption].
  unfold group, capture at 1. simpl. rewrite lookup_insert_ne by discriminate.
  rewrite Hc2, Hc1. simpl. rewrite lookup_insert_eq. simpl.
  now rewrite (moves_consumed _ _ _ Hm).
Qed.

Lemma digit_value_nonneg c : Char.is_digit c = true -> 0 <= Char.digit_value c.
Proof.
  unfold Char.is_digit, Char.between, Char.digit_value.
  intros H. apply andb_true_iff in H as [H _]. apply Nat.leb_le in H. lia.
Qed.

Lemma decimal_from_nonneg ds : forall n,
  Forall (fun c => Char.is_digit c = true) ds -> 0 <= n ->
  0 <= fold_left (fun n c => 10 * n + Char.digit_value c) ds n.
Proof.
  induction ds as [|c ds IH]; intros n Hd Hn; simpl; [exact Hn|].
  inversion Hd as [|? ? Hc Hd']; subst. apply IH; [exact Hd'|].
  pose proof (digit_value_nonneg c Hc). lia.
Qed.

Lemma forallb_of_Forall {A} (f : A -> bool) l :
  Forall (fun x => f x = true) l -> forallb f l = true.
Proof. induction 1 as [|x l Hx _ IH]; simpl; [reflexivity | now rewrite Hx, IH]. Qed.

Lemma int_digits ds :
  ds <> [] -> Forall (fun c => Char.is_digit c = true) ds ->
  Str.int (Str.of_chars ds) = Ok (Str.decimal ds) /\ 0 <= Str.decimal ds.
Proof.
  intros Hne Hd. split; [|apply decimal_from_nonneg; [exact Hd | lia]].
  unfold Str.int, Str.chars, Str.of_chars.
  rewrite list_ascii_of_string_of_list_ascii.
  apply forallb_of_Forall in Hd.
  destruct ds as [|c ds]; [congruence|]. now rewrite Hd.
Qed.

(** A shortstat pattern that matches gives a number, and not a negative one. *)
Lemma matched_spec unit line :
  match re_match (shortstat unit) line with
  | Some m => exists g n, group m 2 = Some g /\ Str.int g = Ok n /\ 0 <= n /\
                          Spec.matched unit line = Some n
  | None => Spec.matched unit line = None
  end.
Proof.
  unfold Spec.matched. destruct (re_match (shortstat unit) line) as [m|] eqn:E; [|reflexivity].
  apply shortstat_group in E as (ds & Hg & Hne & Hd).
  destruct (int_digits ds Hne Hd) as [Hi Hn].
  exists (Str.of_chars ds), (Str.decimal ds). simpl. rewrite Hg. simpl. rewrite Hi. auto.
Qed.

(** A capture made is never lost, only replaced. *)
Lemma leads_keeps_group r n : forall st st',
  leads r st st' -> is_Some (caps st !! n) -> is_Some (caps st' !! n).
Proof.
  induction r as [ | i | | | r1 IH1 r2 IH2 | r1 IH1 r2 IH2 | r1 IH1 | k r1 IH1];
    intros st st'; simpl.
  - now intros ->.
  - intros (c & Hs & _). apply step_moves in Hs as (_ & _ & ->). auto.
  - now intros [_ ->].
  - now intros [_ ->].
  - intros (st1 & H1 & H2) H. eauto.
  - intros [H1 | H2] H; eauto.
  - induction 1 as [|a b c [H1 _] _ IH]; eauto.
  - intros (st1 & H1 & ->) H. simpl. apply lookup_insert_is_Some'. eauto.
Qed.

Lemma moves_jump st t r : rest st = t ++ r -> moves st t (jump st t r).
Proof. intros H. repeat split. exact H. Qed.

Lemma linebreak_LF c : Char.is_linebreak c = false -> Char.is_LF c = false.
Proof.
  unfold Char.is_linebreak, Char.is_LF, Char.between.
  destruct (Char.code c =? 10)%nat eqn:E; [|reflexivity].
  apply Nat.eqb_eq in E. rewrite E. discriminate.
Qed.

Lemma one_line_dots l :
  Forall (fun c => Char.is_linebreak c = false) l ->
  Forall (fun c => accepts Dot c = true) l.
Proof.
  intros H. eapply Forall_impl; [exact H|].
  intros c Hc. simpl. now rewrite (linebreak_LF c Hc).
Qed.

Lemma closing_as_read_sound st m before :
  Forall (fun c => Char.is_linebreak c = false) (rest st) ->
  seen st = rev before -> leads Spec.closing_as_read st m -> Spec.closes before (rest st).
Proof.
  intros Hl Hs H. unfold Spec.closing_as_read in H.
  apply leads_cat in H as (s5 & H & _).
  apply leads_group in H as (x & H & _).
  apply leads_alts in H as [[Hb _] | (b & Hb & H)].
  - left. now apply (at_boundary_spec st before Hs).
  - right. repeat (apply elem_of_cons in Hb as [-> | Hb]); [| | | | inversion Hb].
    + left. apply leads_text in H as (t & (R & _) & Ht). now exists t, (rest x).
    + right; left. apply leads_text in H as (t & (R & _) & Ht). now exists t, (rest x).
    + right; right; left. apply leads_text in H as (t & (R & _) & Ht). now exists t, (rest x).
    + right; right; right. destruct H as [He _]. unfold at_end in He.
      destruct (rest st) as [|c [|? ?]]; [reflexivity | | discriminate].
      inversion Hl as [|? ? Hc _]; subst. apply linebreak_LF in Hc. congruence.
Qed.

Lemma closing_as_read_complete st before :
  seen st = rev before -> Spec.closes before (rest st) ->
  exists m, leads Spec.closing_as_read st m.
Proof.
  intros Hs Hc. unfold Spec.closing_as_read.
  assert (H : exists x, leads (Alts WordBoundary
         [Text (Str.chars "\s"); Text (Str.chars "-"); Text (Str.chars "_");
          EndOfString]) st x).
  { destruct Hc as [Hb | [Hc | [Hc | [Hc | Hc]]]].
    - exists st. apply leads_alts. left. split; [|reflexivity].
      now apply (at_boundary_spec st before Hs).
    - destruct Hc as (t & l' & R & Ht). exists (jump st t l').
      apply leads_alts. right. exists (Text (Str.chars "\s")).
      split; [rewrite !elem_of_cons; auto|].
      apply leads_text. exists t. split; [now apply moves_jump | exact Ht].
    - destruct Hc as (t & l' & R & Ht). exists (jump st t l').
      apply leads_alts. right. exists (Text (Str.chars "-")).
      split; [rewrite !elem_of_cons; auto|].
      apply leads_text. exists t. split; [now apply moves_jump | exact Ht].
    - destruct Hc as (t & l' & R & Ht). exists (jump st t l').
      apply leads_alts. right. exists (Text (Str.chars "_")).
      split; [rewrite !elem_of_cons; auto|].
      apply leads_text. exists t. split; [now apply moves_jump | exact Ht].
    - exists st. apply leads_alts. right. exists EndOfString.
      split; [rewrite !elem_of_cons; auto 6|].
      split; [|reflexivity]. unfold at_end. now rewrite Hc. }
  destruct H as (x & H). exists (capture 3 st x).
  apply leads_cat. exists (capture 3 st x). split.
  - apply leads_group. now exists x.
  - apply rtc_refl.
Qed.

Lemma suffix_as_read_sound st st' :
  leads Spec.suffix_as_read st st' ->
  exists suf, reads st suf st' /\
    (suf = [] \/ exists s, s ∈ Spec.suffixes /\ Spec.same_text (Str.chars s) suf).
Proof.
  intros H. apply leads_opt in H as [H | ->]; [|exists []; split; [apply reads_nil | auto]].
  apply leads_group in H as (x & H & ->).
  apply leads_alts in H as [[_ ->] | (b & Hb & H)].
  - exists []. split; [apply reads_capture, reads_nil | auto].
  - apply list_elem_of_In, in_map_iff in Hb as (s & <- & Hs).
    apply leads_text in H as (suf & Hm & Ht). exists suf. split.
    + apply reads_capture, moves_reads, Hm.
    + right. exists s. split; [now apply list_elem_of_In | exact Ht].
Qed.

Lemma suffix_as_read_complete st suf post :
  rest st = suf ++ post ->
  (suf = [] \/ exists s, s ∈ Spec.suffixes /\ Spec.same_text (Str.chars s) suf) ->
  exists st', leads Spec.suffix_as_read st st' /\ reads st suf st'.
Proof.
  intros R [-> | (s & Hs & Ht)].
  - exists st. split; [apply leads_opt; now right | apply reads_nil].
  - exists (capture 2 st (jump st suf post)). split.
    + apply leads_opt. left. apply leads_group. eexists. split; [|reflexivity].
      apply leads_alts. right. exists (Text (Str.chars s)). split.
      * apply list_elem_of_In, in_map_iff. exists s. split; [reflexivity|].
        now apply list_elem_of_In.
      * apply leads_text. exists suf. split; [now apply moves_jump | exact Ht].
    + apply reads_capture, moves_reads, moves_jump, R.
Qed.

Lemma Forall_app_r {A} (P : A -> Prop) l1 l2 : Forall P (l1 ++ l2) -> Forall P l2.
Proof. intros H. now apply Forall_app in H. Qed.

Lemma Forall_app_l {A} (P : A -> Prop) l1 l2 : Forall P (l1 ++ l2) -> Forall P l1.
Proof. intros H. now apply Forall_app in H. Qed.

(** The pattern as the specification reads it matches a one-line
    message exactly when the message qualifies in the words of the
    specification. *)
Lemma forgiving_as_read_sound word message m :
  Spec.one_line message ->
  re_match (Spec.forgiving_as_read word) message = Some m ->
  Spec.qualifies word message /\ is_Some (group m 1).
Proof.
  intros Hl H. apply re_match_sound in H. unfold Spec.forgiving_as_read in H.
  apply leads_cat in H as (s1 & Hpre & H).
  apply leads_cat in H as (s2 & [Hb ->] & H).
  apply leads_cat in H as (s3 & Hkw & H).
  apply leads_group in Hkw as (x1 & Hkw & ->).
  split.
  - apply leads_cat in H as (s4 & Hsuf & Hclose).
    apply leads_star_items in Hpre as (pre & Hpre & _).
    apply leads_text in Hkw as (kw & Hkw & Hsame).
    apply suffix_as_read_sound in Hsuf as (suf & Hsuf & Hcases).
    apply moves_reads in Hpre, Hkw. apply reads_from_capture in Hsuf.
    pose proof (reads_app _ _ _ _ _ (reads_app _ _ _ _ _ Hpre Hkw) Hsuf) as [R S].
    simpl in R, S. rewrite app_nil_r, <- !app_assoc in *.
    unfold Spec.one_line in Hl. rewrite R in Hl.
    exists pre, kw, suf, (rest s4). repeat split; auto.
    + destruct Hpre as [_ S1]. destruct Hkw as [R2 _]. destruct Hsuf as [R3 _].
      simpl in S1, R3. rewrite app_nil_r in S1.
      apply (at_boundary_spec s1 pre S1) in Hb. now rewrite R2, R3 in Hb.
    + apply (closing_as_read_sound s4 _ (pre ++ kw ++ suf)) in Hclose; auto.
      do 3 apply Forall_app_r in Hl. exact Hl.
  - unfold group. apply fmap_is_Some.
    apply (leads_keeps_group _ 1 _ _ H). simpl. now rewrite lookup_insert_eq.
Qed.

Lemma forgiving_as_read_complete word message :
  Spec.one_line message -> Spec.qualifies word message ->
  exists m, re_match (Spec.forgiving_as_read word) message = Some m.
Proof.
  intros Hl (pre & kw & suf & post & R & Hb & Hkw & Hsuf & Hclose).
  unfold Spec.one_line in Hl. rewrite R in Hl.
  set (s1 := jump (start message) pre (kw ++ suf ++ post)).
  set (s3 := capture 1 s1 (jump s1 kw (suf ++ post))).
  destruct (suffix_as_read_complete s3 suf post eq_refl Hsuf) as (s4 & H4 & [R4 S4]).
  destruct (closing_as_read_complete s4 (pre ++ kw ++ suf)) as (m & Hm).
  { rewrite S4. simpl. now rewrite app_nil_r, !rev_app_distr, <- app_assoc. }
  { simpl in R4. apply app_inv_head in R4. now rewrite <- R4. }
  apply (re_match_complete _ _ m). unfold Spec.forgiving_as_read.
  apply leads_cat. exists s1. split.
  { apply leads_star_items. exists pre. split; [now apply moves_jump|].
    apply one_line_dots. now apply Forall_app_l in Hl. }
  apply leads_cat. exists s1. split.
  { split; [|reflexivity]. apply (at_boundary_spec s1 pre); [|exact Hb].
    simpl. now rewrite app_nil_r. }
  apply leads_cat. exists s3. split.
  { apply leads_group. eexists. split; [|reflexivity].
    apply leads_text. exists kw. split; [now apply moves_jump | exact Hkw]. }
  apply leads_cat. exists s4. split; assumption.
Qed.

(** *** The pattern of the program *)

Lemma eq_icase_backspace c : Char.eq_icase Char.backspace c = true -> c = Char.backspace.
Proof.
  destruct c as [[] [] [] [] [] [] [] []]; vm_compute; intros H;
    first [reflexivity | discriminate].
Qed.

Lemma eq_icase_hyphen c : Char.eq_icase "-" c = true -> c = "-"%char.
Proof.
  destruct c as [[] [] [] [] [] [] [] []]; vm_compute; intros H;
    first [reflexivity | discriminate].
Qed.

Lemma eq_icase_underscore c : Char.eq_icase "_" c = true -> c = "_"%char.
Proof.
  destruct c as [[] [] [] [] [] [] [] []]; vm_compute; intros H;
    first [reflexivity | discriminate].
Qed.

Lemma leads_item i st st' :
  leads (Item i) st st' <-> exists c, moves st [c] st' /\ accepts i c = true.
Proof.
  simpl. split; intros (c & H & Ha); exists c; (split; [now apply step_moves | exact Ha]).
Qed.

(** A keyword of ordinary characters is the text it is. *)
Lemma Keyword_ordinary w :
  Forall (fun c => special c = false) w -> Keyword w = Text w.
Proof.
  induction 1 as [|c w Hc _ IH]; simpl; [reflexivity|]. rewrite IH. do 2 f_equal.
  unfold keyword_item. destruct (Ascii.eqb c ".") eqn:E; [|reflexivity].
  apply Ascii.eqb_eq in E. subst c. discriminate.
Qed.

Lemma closing_sound st m :
  Forall (fun c => Char.is_linebreak c = false) (rest st) ->
  leads closing st m ->
  Spec.backspace_next (rest st) \/ Spec.blank_next (rest st).
Proof.
  intros Hl H. unfold closing in H.
  apply leads_cat in H as (s5 & H & _).
  apply leads_group in H as (x & H & _).
  apply leads_alts in H as [H | (b & Hb & H)].
  - left. apply leads_item in H as (c & (R & _) & Hc). simpl in Hc.
    apply eq_icase_backspace in Hc as ->. now exists (rest x).
  - right. repeat (apply elem_of_cons in Hb as [-> | Hb]); [| | | | inversion Hb].
    + apply leads_item in H as (c & (R & _) & Hc). simpl in Hc.
      right. exists c, (rest x). auto.
    + apply leads_text in H as (t & (R & _) & Ht).
      inversion Ht as [|? c ? t' Hc Ht']; subst. inversion Ht'; subst.
      apply eq_icase_hyphen in Hc as ->. right. exists "-"%char, (rest x). auto.
    + apply leads_text in H as (t & (R & _) & Ht).
      inversion Ht as [|? c ? t' Hc Ht']; subst. inversion Ht'; subst.
      apply eq_icase_underscore in Hc as ->. right. exists "_"%char, (rest x). auto.
    + left. destruct H as [He _]. unfold at_end in He.
      destruct (rest st) as [|c [|? ?]]; [reflexivity | | discriminate].
      inversion Hl as [|? ? Hc _]; subst. apply linebreak_LF in Hc. congruence.
Qed.

Lemma closing_complete st :
  Spec.backspace_next (rest st) \/ Spec.blank_next (rest st) ->
  exists m, leads closing st m.
Proof.
  intros Hc. unfold closing.
  assert (H : exists x, leads (Alts (Item (Lit Char.backspace))
         [Item Space; Text (Str.chars "-"); Text (Str.chars "_"); EndOfString]) st x).
  { destruct Hc as [(post' & R) | [R | (c & post' & R & [Hc | [-> | ->]])]].
    - exists (jump st [Char.backspace] post'). apply leads_alts. left.
      apply leads_item. exists Char.backspace. split; [now apply moves_jump | reflexivity].
    - exists st. apply leads_alts. right. exists EndOfString.
      split; [rewrite !elem_of_cons; auto 6|].
      split; [|reflexivity]. unfold at_end. now rewrite R.
    - exists (jump st [c] post'). apply leads_alts. right. exists (Item Space).
      split; [rewrite !elem_of_cons; auto|].
      apply leads_item. exists c. split; [now apply moves_jump | exact Hc].
    - exists (jump st ["-"%char] post'). apply leads_alts. right.
      exists (Text (Str.chars "-")). split; [rewrite !elem_of_cons; auto|].
      apply leads_text. exists ["-"%char]. split; [now apply moves_jump|].
      repeat constructor.
    - exists (jump st ["_"%char] post'). apply leads_alts. right.
      exists (Text (Str.chars "_")). split; [rewrite !elem_of_cons; auto|].
      apply leads_text. exists ["_"%char]. split; [now apply moves_jump|].
      repeat constructor. }
  destruct H as (x & H). exists (capture 3 st x).
  apply leads_cat. exists (capture 3 st x). split.
  - apply leads_group. now exists x.
  - apply rtc_refl.
Qed.

Lemma suffix_group_sound st st' :
  leads suffix_group st st' ->
  exists suf, reads st suf st' /\ (suf = [Char.backspace] \/ Spec.listed_suffix suf).
Proof.
  intros H. apply leads_opt in H as [H | ->];
    [|exists []; split; [apply reads_nil | right; now left]].
  apply leads_group in H as (x & H & ->).
  apply leads_alts in H as [H | (b & Hb & H)].
  - apply leads_item in H as (c & Hm & Hc). simpl in Hc.
    apply eq_icase_backspace in Hc as ->. exists [Char.backspace].
    split; [apply reads_capture, moves_reads, Hm | now left].
  - apply list_elem_of_In, in_map_iff in Hb as (s & <- & Hs).
    apply leads_text in H as (suf & Hm & Ht). exists suf. split.
    + apply reads_capture, moves_reads, Hm.
    + right. right. exists s. split; [now apply list_elem_of_In | exact Ht].
Qed.

Lemma suffix_group_complete st suf post :
  rest st = suf ++ post ->
  suf = [Char.backspace] \/ Spec.listed_suffix suf ->
  exists st', leads suffix_group st st' /\ reads st suf st'.
Proof.
  intros R [-> | [-> | (s & Hs & Ht)]].
  - exists (capture 2 st (jump st [Char.backspace] post)). split.
    + apply leads_opt. left. apply leads_group. eexists. split; [|reflexivity].
      apply leads_alts. left. apply leads_item. exists Char.backspace.
      split; [now apply moves_jump | reflexivity].
    + apply reads_capture, moves_reads, moves_jump, R.
  - exists st. split; [apply leads_opt; now right | apply reads_nil].
  - exists (capture 2 st (jump st suf post)). split.
    + apply leads_opt. left. apply leads_group. eexists. split; [|reflexivity].
      apply leads_alts. right. exists (Text (Str.chars s)). split.
      * apply list_elem_of_In, in_map_iff. exists s. split; [reflexivity|].
        now apply list_elem_of_In.
      * apply leads_text. exists suf. split; [now apply moves_jump | exact Ht].
    + apply reads_capture, moves_reads, moves_jump, R.
Qed.

(** Group 1 takes part in every match of the pattern. *)
Lemma forgiving_group word message m :
  re_match (forgiving word) message = Some m -> is_Some (group m 1).
Proof.
  intros H. apply re_match_sound in H. unfold forgiving in H.
  apply leads_cat in H as (s1 & _ & H).
  apply leads_cat in H as (s2 & _ & H).
  apply leads_cat in H as (s3 & Hkw & H).
  apply leads_group in Hkw as (x1 & _ & ->).
  unfold group. apply fmap_is_Some.
  apply (leads_keeps_group _ 1 _ _ H). simpl. now rewrite lookup_insert_eq.
Qed.

(** For a keyword of ordinary characters, the pattern matches a one-line
    message exactly when the message is [counted]. *)
Lemma forgiving_sound word message m :
  Spec.ordinary word -> Spec.one_line message ->
  re_match (forgiving word) message = Some m -> Spec.counted word message.
Proof.
  intros Ho Hl H. apply re_match_sound in H. unfold forgiving in H.
  rewrite (Keyword_ordinary _ Ho) in H.
  apply leads_cat in H as (s1 & Hpre & H).
  apply leads_cat in H as (s2 & [Hb ->] & H).
  apply leads_cat in H as (s3 & Hkw & H).
  apply leads_group in Hkw as (x1 & Hkw & ->).
  apply leads_cat in H as (s4 & Hsuf & Hclose).
  apply leads_star_items in Hpre as (pre & Hpre & _).
  apply leads_text in Hkw as (kw & Hkw & Hsame).
  apply suffix_group_sound in Hsuf as (suf & Hsuf & Hcases).
  apply moves_reads in Hpre, Hkw. apply reads_from_capture in Hsuf.
  pose proof (reads_app _ _ _ _ _ (reads_app _ _ _ _ _ Hpre Hkw) Hsuf) as [R S].
  simpl in R, S. rewrite app_nil_r, <- !app_assoc in *.
  unfold Spec.one_line in Hl. rewrite R in Hl.
  exists pre, kw, suf, (rest s4). repeat split; auto.
  - destruct Hpre as [_ S1]. destruct Hkw as [R2 _]. destruct Hsuf as [R3 _].
    simpl in S1, R3. rewrite app_nil_r in S1.
    apply (at_boundary_spec s1 pre S1) in Hb. now rewrite R2, R3 in Hb.
  - apply (closing_sound s4 _) in Hclose; auto.
    do 3 apply Forall_app_r in Hl. exact Hl.
Qed.

Lemma forgiving_complete word message :
  Spec.ordinary word -> Spec.one_line message -> Spec.counted word message ->
  exists m, re_match (forgiving word) message = Some m.
Proof.
  intros Ho Hl (pre & kw & suf & post & R & Hb & Hkw & Hsuf & Hclose).
  unfold Spec.one_line in Hl. rewrite R in Hl.
  set (s1 := jump (start message) pre (kw ++ suf ++ post)).
  set (s3 := capture 1 s1 (jump s1 kw (suf ++ post))).
  destruct (suffix_group_complete s3 suf post eq_refl Hsuf) as (s4 & H4 & [R4 S4]).
  destruct (closing_complete s4) as (m & Hm).
  { simpl in R4. apply app_inv_head in R4. now rewrite <- R4. }
  apply (re_match_complete _ _ m). unfold forgiving.
  rewrite (Keyword_ordinary _ Ho).
  apply leads_cat. exists s1. split.
  { apply leads_star_items. exists pre. split; [now apply moves_jump|].
    apply one_line_dots. now apply Forall_app_l in Hl. }
  apply leads_cat. exists s1. split.
  { split; [|reflexivity]. apply (at_boundary_spec s1 pre); [|exact Hb].
    simpl. now rewrite app_nil_r. }
  apply leads_cat. exists s3. split.
  { apply leads_group. eexists. split; [|reflexivity].
    apply leads_text. exists kw. split; [now apply moves_jump | exact Hkw]. }
  apply leads_cat. exists s4. split; assumption.
Qed.

End ReFacts.

Import Re ReSem ReFacts Spec.

(** ** Loops *)

Lemma for_each_app {A S} (body : S -> A -> result S) l1 l2 s :
  for_each (l1 ++ l2) body s = (s' ← for_each l1 body s; for_each l2 body s').
Proof.
  revert s. induction l1 as [|x l1 IH]; intros s; simpl; [reflexivity|].
  destruct (body s x) as [s1|e]; simpl; [apply IH | reflexivity].
Qed.

Lemma for_each_flat_map {A B S} (f : A -> list B) (body : S -> B -> result S) l s :
  for_each l (fun s x => for_each (f x) body s) s = for_each (flat_map f l) body s.
Proof.
  revert s. induction l as [|x l IH]; intros s; simpl; [reflexivity|].
  rewrite for_each_app. destruct (for_each (f x) body s) as [s1|e]; simpl; [apply IH | reflexivity].
Qed.

(** ** The churn counter *)

Lemma tally_spec unit line total high :
  0 <= high ->
  tally (re_match (shortstat unit) line) (total, high) =
  Ok (total + amount unit line, Z.max high (amount unit line)) /\
  0 <= amount unit line.
Proof.
  intros Hh. unfold Spec.amount. pose proof (matched_spec unit line) as H.
  destruct (re_match (shortstat unit) line) as [m|]; simpl.
  - destruct H as (g & n & -> & Hi & Hn & ->). simpl. rewrite Hi. simpl.
    split; [|exact Hn]. f_equal. f_equal.
    destruct (high <? n) eqn:E; [apply Z.ltb_lt in E | apply Z.ltb_ge in E]; lia.
  - rewrite H. simpl. split; [|lia]. f_equal. f_equal; lia.
Qed.

Lemma amount_nonneg unit line : 0 <= amount unit line.
Proof. apply (tally_spec unit line 0 0). lia. Qed.

Lemma bind_Ok {A B} (a : A) (f : A -> result B) : (Ok a ≫= f) = f a.
Proof. reflexivity. Qed.

Lemma count_line_spec c line :
  sane c ->
  count_line c line =
  Ok (Churn (c_files c + amount "file" line) (c_adds c + amount "inser" line)
            (c_dels c + amount "delet" line)
            (Z.max (c_max_files c) (amount "file" line))
            (Z.max (c_max_adds c) (amount "inser" line))
            (Z.max (c_max_dels c) (amount "delet" line))).
Proof.
  intros (Hf & Ha & Hd). unfold count_line. cbv zeta.
  rewrite (proj1 (tally_spec "file" line (c_files c) _ Hf)), bind_Ok.
  rewrite (proj1 (tally_spec "inser" line (c_adds c) _ Ha)), bind_Ok.
  rewrite (proj1 (tally_spec "delet" line (c_dels c) _ Hd)), bind_Ok.
  cbn [fst snd]. reflexivity.
Qed.

Lemma count_lines_spec lines : forall c,
  sane c ->
  for_each lines count_line c =
  Ok (Churn (c_files c + Spec.sum (amounts "file" lines))
            (c_adds c + Spec.sum (amounts "inser" lines))
            (c_dels c + Spec.sum (amounts "delet" lines))
            (Z.max (c_max_files c) (top (amounts "file" lines)))
            (Z.max (c_max_adds c) (top (amounts "inser" lines)))
            (Z.max (c_max_dels c) (top (amounts "delet" lines)))).
Proof.
  induction lines as [|line lines IH]; intros c Hc; simpl.
  - destruct c, Hc as (? & ? & ?); simpl in *. f_equal. f_equal; lia.
  - rewrite count_line_spec by exact Hc. simpl. rewrite IH.
    + simpl. f_equal. f_equal; lia.
    + destruct Hc as (? & ? & ?). repeat split; simpl; lia.
Qed.

Lemma top_nonneg l : 0 <= top l.
Proof. induction l; simpl; lia. Qed.

Lemma churn_closed_form git git_paths email start_date end_date :
  let lines := shortstat_lines git git_paths email start_date end_date in
  _get_git_files_adds_dels git git_paths email start_date end_date =
  Ok (Churn (Spec.sum (amounts "file" lines)) (Spec.sum (amounts "inser" lines))
            (Spec.sum (amounts "delet" lines))
            (top (amounts "file" lines)) (top (amounts "inser" lines))
            (top (amounts "delet" lines))).
Proof.
  intros lines. unfold _get_git_files_adds_dels.
  rewrite (for_each_flat_map
    (fun path => Str.splitlines (_get_git_log git path start_date end_date
       ["--author=" +:+ email; "--oneline"; "--shortstat"])) count_line).
  fold (shortstat_lines git git_paths email start_date end_date). fold lines.
  rewrite count_lines_spec by (repeat split; simpl; lia). simpl. f_equal.
  f_equal; try lia.
  all: apply Z.max_r, top_nonneg.
Qed.

Lemma amounts_nonneg unit lines : Forall (fun n => 0 <= n) (amounts unit lines).
Proof.
  induction lines as [|line lines IH]; constructor; [|exact IH].
  apply amount_nonneg.
Qed.

Lemma values_nonneg unit lines : Forall (fun n => 0 <= n) (omap (Spec.matched unit) lines).
Proof.
  induction lines as [|line lines IH]; simpl; [constructor|].
  pose proof (amount_nonneg unit line) as H. unfold Spec.amount in H.
  destruct (Spec.matched unit line); [constructor; auto | exact IH].
Qed.

Lemma top_values unit lines :
  top (amounts unit lines) = top (omap (Spec.matched unit) lines).
Proof.
  induction lines as [|line lines IH]; simpl; [reflexivity|].
  unfold Spec.amount at 1. destruct (Spec.matched unit line); simpl; rewrite IH; [reflexivity|].
  apply Z.max_r, top_nonneg.
Qed.

Lemma top_largest l : Forall (fun n => 0 <= n) l -> Spec.largest_or_zero (top l) l.
Proof.
  intros H. destruct l as [|x l]; [reflexivity|].
  revert x H. induction l as [|y l IH]; intros x H.
  - inversion H; subst. simpl. rewrite Z.max_l by lia. split.
    + apply elem_of_cons. auto.
    + intros z Hz. apply elem_of_cons in Hz as [-> | Hz]; [lia | inversion Hz].
  - inversion H as [|? ? Hx H']; subst. destruct (IH y H') as [Hin Hle].
    change (top (x :: y :: l)) with (Z.max x (top (y :: l))). split.
    + destruct (Z.max_spec x (top (y :: l))) as [[_ ->] | [_ ->]].
      * apply elem_of_cons. auto.
      * apply elem_of_cons. auto.
    + intros z Hz. apply elem_of_cons in Hz as [-> | Hz]; [lia|].
      specialize (Hle z Hz). lia.
Qed.

Lemma top_le_sum l : Forall (fun n => 0 <= n) l -> 0 <= top l <= Spec.sum l.
Proof.
  induction 1 as [|x l Hx _ IH]; simpl; lia.
Qed.

Lemma tallied_closed unit lines :
  Spec.tallied unit lines (Spec.sum (amounts unit lines)) (top (amounts unit lines)).
Proof.
  split; [reflexivity|]. rewrite top_values. apply top_largest, values_nonneg.
Qed.

(** Claim C1.  Whatever git prints, [_get_git_files_adds_dels] returns, and
    for each of the three metrics its total is the sum over all shortstat
    lines of the number the metric's pattern matches on the line (0 for a
    line it does not match), and its maximum is the largest number matched
    on one line, or 0 when the pattern matched no line. *)
Theorem churn_totals_and_maxima git git_paths email start_date end_date :
  let lines := shortstat_lines git git_paths email start_date end_date in
  exists c,
    _get_git_files_adds_dels git git_paths email start_date end_date = Ok c /\
    Spec.tallied "file" lines (c_files c) (c_max_files c) /\
    Spec.tallied "inser" lines (c_adds c) (c_max_adds c) /\
    Spec.tallied "delet" lines (c_dels c) (c_max_dels c).
Proof.
  intros lines. eexists. split; [apply churn_closed_form|].
  simpl. repeat split; try apply tallied_closed; apply (tallied_closed _ lines).
Qed.

(** Claim C9.  Whatever git prints, the six numbers
    [_get_git_files_adds_dels] returns are not negative, and each maximum
    is at most the total of its metric. *)
Theorem churn_maximum_below_total git git_paths email start_date end_date :
  exists c,
    _get_git_files_adds_dels git git_paths email start_date end_date = Ok c /\
    (0 <= c_max_files c <= c_files c) /\
    (0 <= c_max_adds c <= c_adds c) /\
    (0 <= c_max_dels c <= c_dels c).
Proof.
  eexists. split; [apply churn_closed_form|].
  simpl. repeat split; apply top_le_sum, amounts_nonneg.
Qed.

(** ** The keyword counter *)

Lemma ordinary_embedded word : ordinary word -> embedded word = true.
Proof.
  unfold ordinary, embedded. generalize (Str.chars word). intros l.
  induction 1 as [|c l Hc _ IH]; simpl; [reflexivity|].
  rewrite Hc, IH. now rewrite orb_true_r.
Qed.

Lemma all_embedded wordlist :
  Forall ordinary wordlist -> Forall (fun w => embedded w = true) wordlist.
Proof. intros H. eapply Forall_impl; [exact H | exact ordinary_embedded]. Qed.

Lemma hit_forgiving word message :
  hit word message = true <-> is_Some (re_match (forgiving word) message).
Proof.
  unfold hit. destruct (re_match (forgiving word) message) as [m|] eqn:E.
  - rewrite bool_decide_eq_true. split; [eauto|]. intros _. now apply (forgiving_group word message).
  - split; [discriminate | intros [? ?]; discriminate].
Qed.

(** The test of the program, for a keyword of ordinary characters. *)
Lemma hit_counted word message :
  ordinary word -> one_line message -> hit word message = true <-> counted word message.
Proof.
  intros Ho Hl. rewrite hit_forgiving. split.
  - intros [m E]. exact (forgiving_sound word message m Ho Hl E).
  - intros Hc. destruct (forgiving_complete word message Ho Hl Hc) as (m & E). eauto.
Qed.

(** The forgiving match in the words of the specification, decided. *)
Lemma qualifies_decided word message :
  one_line message -> qualifies word message <-> qualifies_b word message = true.
Proof.
  intros Hl. unfold qualifies_b. rewrite bool_decide_eq_true. split.
  - intros Hq. destruct (forgiving_as_read_complete word message Hl Hq) as (m & E). eauto.
  - intros [m E]. apply (forgiving_as_read_sound word message m Hl E).
Qed.

Lemma occurs_impl (s1 s2 : list ascii -> Prop) (c1 c2 : list ascii -> list ascii -> Prop)
  word message :
  (forall suf, s1 suf -> s2 suf) -> (forall before post, c1 before post -> c2 before post) ->
  occurs s1 c1 word message -> occurs s2 c2 word message.
Proof.
  intros Hs Hc (pre & kw & suf & post & R & Hb & Hk & H1 & H2).
  exists pre, kw, suf, post. auto 6.
Qed.

Lemma closed_by_blank_counted word message :
  closed_by_blank word message -> counted word message.
Proof. apply occurs_impl; auto. Qed.

Lemma closed_by_blank_boundary word message :
  closed_by_blank word message -> closed_by_boundary word message.
Proof. apply occurs_impl; auto. Qed.

(** Without a BACKSPACE in the message, only a whitespace character, a
    hyphen, an underscore or the end make the pattern match. *)
Lemma counted_closed_by_blank word message :
  no_backspace message -> counted word message -> closed_by_blank word message.
Proof.
  intros Hn (pre & kw & suf & post & R & Hb & Hk & Hs & Hc).
  exists pre, kw, suf, post. unfold no_backspace in Hn. rewrite R in Hn.
  repeat split; auto.
  - destruct Hs as [-> | Hs]; [|exact Hs]. destruct Hn.
    rewrite !elem_of_app, elem_of_cons. auto.
  - destruct Hc as [(post' & ->) | Hc]; [|exact Hc]. destruct Hn.
    rewrite !elem_of_app, elem_of_cons. auto.
Qed.

Lemma count_message_hit sre word words message n :
  embedded word = true -> words !! word = Some n ->
  count_message sre word words message =
  Ok (if hit word message then <[word := n + 1]> words else words).
Proof.
  intros He Hn. unfold count_message, forgiving_match, hit. rewrite He.
  destruct (re_match (forgiving word) message) as [m|] eqn:E; [|reflexivity].
  destruct (forgiving_group word message m E) as [g Hg]. rewrite Hg, Hn.
  now rewrite bool_decide_eq_true_2 by eauto.
Qed.

Lemma hits_cons word message messages :
  hits word (message :: messages) =
  (if hit word message then 1 else 0) + hits word messages.
Proof.
  unfold hits. rewrite filter_cons.
  destruct (decide (hit word message = true)) as [H | H].
  - rewrite H. simpl length. lia.
  - destruct (hit word message); [congruence|]. lia.
Qed.

Lemma hits_nil word : hits word [] = 0.
Proof. reflexivity. Qed.

Lemma hits_app word l1 l2 : hits word (l1 ++ l2) = hits word l1 + hits word l2.
Proof.
  unfold hits. rewrite filter_app, length_app. lia.
Qed.

(** The loop over the messages for one word. *)
Lemma count_word_spec sre word messages : forall words n,
  embedded word = true -> words !! word = Some n ->
  exists words',
    for_each messages (count_message sre word) words = Ok words' /\
    words' !! word = Some (n + hits word messages) /\
    forall w, w <> word -> words' !! w = words !! w.
Proof.
  induction messages as [|message messages IH]; intros words n He Hn.
  - exists words. split; [reflexivity | split; [|auto]].
    rewrite Hn. f_equal. unfold hits. simpl. lia.
  - cbn [for_each]. rewrite (count_message_hit sre word words message n He Hn), bind_Ok.
    rewrite hits_cons. destruct (hit word message).
    + destruct (IH (<[word := n + 1]> words) (n + 1) He) as (words' & E & Hw & Ho).
      { apply lookup_insert_eq. }
      exists words'. split; [exact E | split; [rewrite Hw; f_equal; lia |]].
      intros w Hne. rewrite (Ho w Hne). now apply lookup_insert_ne.
    + destruct (IH words n He Hn) as (words' & E & Hw & Ho).
      exists words'. split; [exact E | split; [rewrite Hw; f_equal; lia | exact Ho]].
Qed.

Lemma occurrences_cons word w wordlist :
  occurrences word (w :: wordlist) =
  (if decide (w = word) then 1 else 0) + occurrences word wordlist.
Proof.
  unfold occurrences. rewrite filter_cons. destruct (decide (w = word)); simpl length; lia.
Qed.

(** The two loops over the words and the messages of one repository. *)
Lemma count_messages_spec sre messages wordlist : forall words,
  Forall (fun w => embedded w = true) wordlist ->
  (forall w, w ∈ wordlist -> is_Some (words !! w)) ->
  exists words',
    count_messages sre wordlist messages words = Ok words' /\
    forall w, words' !! w =
      (fun n => n + occurrences w wordlist * hits w messages) <$> words !! w.
Proof.
  unfold count_messages.
  induction wordlist as [|word wordlist IH]; intros words He Hkeys.
  - exists words. split; [reflexivity|]. intros w.
    destruct (words !! w) as [n|]; simpl; [|reflexivity]. f_equal. unfold occurrences. simpl. lia.
  - inversion He as [|? ? Hw0 He']; subst.
    destruct (Hkeys word) as [n Hn]; [apply elem_of_cons; auto|].
    destruct (count_word_spec sre word messages words n Hw0 Hn) as (words1 & E1 & Hw & Ho).
    cbn [for_each]. rewrite E1, bind_Ok.
    destruct (IH words1 He') as (words' & E & H').
    { intros w Hin. destruct (decide (w = word)) as [-> | Hne]; [rewrite Hw; eauto|].
      rewrite (Ho w Hne). apply Hkeys, elem_of_cons. auto. }
    exists words'. split; [exact E|]. intros w. rewrite (H' w), occurrences_cons.
    destruct (decide (word = w)) as [<- | Hne].
    + rewrite Hw, Hn. simpl. f_equal. lia.
    + rewrite (Ho w) by congruence. destruct (words !! w); simpl; [f_equal; lia | reflexivity].
Qed.

Lemma occurrences_NoDup word wordlist :
  NoDup wordlist -> word ∈ wordlist -> occurrences word wordlist = 1.
Proof.
  induction 1 as [|w wordlist Hnin Hnd IH]; intros Hin; [inversion Hin|].
  rewrite occurrences_cons. apply elem_of_cons in Hin as [-> | Hin].
  - rewrite decide_True by reflexivity.
    assert (occurrences w wordlist = 0); [|lia].
    unfold occurrences. clear IH Hnd. induction wordlist as [|x l IHl]; [reflexivity|].
    rewrite filter_cons. apply not_elem_of_cons in Hnin as [Hne Hnin].
    rewrite decide_False by congruence. auto.
  - rewrite decide_False; [rewrite IH; [lia | exact Hin]|].
    intros ->. contradiction.
Qed.

(** What a loop keeps, and what it can raise. *)
Lemma for_each_invariant {A S} (P : S -> Prop) (Q : exn -> Prop)
  (body : S -> A -> result S) l :
  (forall s x, P s -> x ∈ l ->
     match body s x with Ok s' => P s' | Raise e => Q e end) ->
  forall s, P s -> match for_each l body s with Ok s' => P s' | Raise e => Q e end.
Proof.
  induction l as [|x l IH]; intros Hb s Hs; simpl; [exact Hs|].
  pose proof (Hb s x Hs (list_elem_of_here x l)) as H.
  destruct (body s x) as [s1|e]; simpl; [|exact H].
  apply IH; [|exact H]. intros s' y Hs' Hy. apply Hb; [exact Hs' | now apply elem_of_cons; right].
Qed.

(** One pass keeps the keys; the only exception of a pass over a key that
    is present is [re.error]. *)
Lemma count_message_keys sre word words message :
  is_Some (words !! word) ->
  match count_message sre word words message with
  | Ok words' => dom words' = dom words
  | Raise e => e = ReError (forgiving_text word)
  end.
Proof.
  intros [n Hn]. unfold count_message.
  destruct (forgiving_match sre word message) as [[g|]| |]; try reflexivity.
  rewrite Hn. apply set_eq. intros k. rewrite dom_insert, elem_of_union, elem_of_singleton.
  split; [intros [-> | H]; [apply elem_of_dom; eauto | exact H] | auto].
Qed.

Lemma count_messages_keys sre wordlist messages words :
  (forall w, w ∈ wordlist -> is_Some (words !! w)) ->
  match count_messages sre wordlist messages words with
  | Ok words' => dom words' = dom words
  | Raise e => exists pattern, e = ReError pattern
  end.
Proof.
  intros Hkeys. unfold count_messages.
  apply (for_each_invariant (fun ws => dom ws = dom words)
           (fun e => exists pattern, e = ReError pattern)); [|reflexivity].
  intros ws word Hws Hword.
  apply (for_each_invariant (fun ws => dom ws = dom words)
           (fun e => exists pattern, e = ReError pattern)); [|exact Hws].
  intros ws' message Hws' _.
  pose proof (count_message_keys sre word ws' message) as H.
  destruct (count_message sre word ws' message) as [ws''|e].
  - rewrite H; [exact Hws'|]. apply elem_of_dom. rewrite Hws'. apply elem_of_dom. auto.
  - rewrite H; [eauto|]. apply elem_of_dom. rewrite Hws'. apply elem_of_dom. auto.
Qed.

(** Claim C3, as amended.  One pass of the innermost loop of
    [_get_git_words], for a keyword of ordinary characters and a one-line
    message, both in ASCII: the keyword's count goes up by one or stays,
    however often the keyword occurs in the message.  It goes up by one
    when somewhere in the message the keyword, at a word boundary and
    letter case apart, bare or with a suffix of the list, is followed by a
    whitespace character, a hyphen, an underscore or the end of the line.
    It stays when the message holds no BACKSPACE and the keyword is nowhere
    so followed, nor followed by a word boundary.  Where only a word
    boundary follows (["fix: typo"]) the theorem is silent. *)
Theorem keyword_counter_increment sre word message words n :
  ordinary word -> ascii_text word -> ascii_text message -> one_line message ->
  words !! word = Some n ->
  (count_message sre word words message = Ok (<[word := n + 1]> words) \/
   count_message sre word words message = Ok words) /\
  (closed_by_blank word message ->
   count_message sre word words message = Ok (<[word := n + 1]> words)) /\
  (no_backspace message -> ~ closed_by_boundary word message ->
   count_message sre word words message = Ok words).
Proof.
  intros Ho _ _ Hl Hn.
  rewrite (count_message_hit sre word words message n (ordinary_embedded word Ho) Hn).
  pose proof (hit_counted word message Ho Hl) as H.
  destruct (hit word message).
  - split; [now left|]. split; [reflexivity|].
    intros Hb Hq. destruct Hq.
    apply closed_by_blank_boundary, counted_closed_by_blank; [exact Hb | now apply H].
  - split; [now right|]. split; [|reflexivity].
    intros Hq. apply closed_by_blank_counted, H in Hq. discriminate.
Qed.

(** Claim C4, as amended.  For a wordlist of ordinary keywords and one more
    line at the end of the messages, all in ASCII: the count of a keyword
    after which, in the line, a whitespace character, a hyphen, an
    underscore or the end of the line follows is greater than over the
    original messages by the number of times the keyword is listed, by
    exactly one in a wordlist without repetition; the count of a keyword
    the line does not have, followed by a word boundary or one of these, is
    the same, when the line holds no BACKSPACE. *)
Theorem keyword_count_monotone sre wordlist messages line words :
  Forall ordinary wordlist -> Forall ascii_text wordlist ->
  ascii_text line -> one_line line ->
  (forall w, w ∈ wordlist -> is_Some (words !! w)) ->
  exists before after,
    count_messages sre wordlist messages words = Ok before /\
    count_messages sre wordlist (messages ++ [line]) words = Ok after /\
    forall word, word ∈ wordlist ->
      exists n, before !! word = Some n /\
        (closed_by_blank word line ->
         after !! word = Some (n + occurrences word wordlist)) /\
        (NoDup wordlist -> closed_by_blank word line -> after !! word = Some (n + 1)) /\
        (no_backspace line -> ~ closed_by_boundary word line -> after !! word = Some n).
Proof.
  intros Ho _ _ Hl Hkeys. pose proof (all_embedded wordlist Ho) as He.
  destruct (count_messages_spec sre messages wordlist words He Hkeys) as (before & Eb & Hb).
  destruct (count_messages_spec sre (messages ++ [line]) wordlist words He Hkeys)
    as (after & Ea & Ha).
  exists before, after. split; [exact Eb | split; [exact Ea |]].
  intros word Hin. destruct (Hkeys word Hin) as [n0 Hn0].
  rewrite Hb, Ha, Hn0, hits_app, hits_cons.
  rewrite hits_nil. cbn [fmap option_fmap option_map]. eexists. split; [reflexivity|].
  rewrite Forall_forall in Ho.
  pose proof (hit_counted word line (Ho word Hin) Hl) as H.
  destruct (hit word line).
  - split; [intros _; f_equal; lia|]. split.
    + intros Hnd _. rewrite (occurrences_NoDup word wordlist Hnd Hin). f_equal. lia.
    + intros Hbs Hq. destruct Hq.
      apply closed_by_blank_boundary, counted_closed_by_blank; [exact Hbs | now apply H].
  - split; [|split].
    + intros Hq. apply closed_by_blank_counted, H in Hq. discriminate.
    + intros _ Hq. apply closed_by_blank_counted, H in Hq. discriminate.
    + intros _ _. f_equal. lia.
Qed.

(** ** [splitlines] gives lines *)

Lemma chars_of_chars l : Str.chars (Str.of_chars l) = l.
Proof. apply list_ascii_of_string_of_list_ascii. Qed.



(** ** The whole keyword counter *)

Lemma init_words_lookup wordlist : forall (words : gmap string Z) w,
  fold_left (fun words word => <[word := 0]> words) wordlist words !! w =
  if decide (w ∈ wordlist) then Some 0 else words !! w.
Proof.
  induction wordlist as [|word wordlist IH]; intros words w; cbn [fold_left].
  - destruct (decide (w ∈ [])) as [H | _]; [inversion H | reflexivity].
  - rewrite IH.
    destruct (decide (w ∈ wordlist)) as [Hin | Hnin];
      destruct (decide (w ∈ word :: wordlist)) as [Hin' | Hnin']; try reflexivity.
    + destruct Hnin'. apply elem_of_cons. auto.
    + apply elem_of_cons in Hin' as [-> | Hin']; [apply lookup_insert_eq | contradiction].
    + apply lookup_insert_ne. intros ->. apply Hnin', elem_of_cons. auto.
Qed.

Lemma init_words_dom wordlist :
  dom (fold_left (fun words word => <[word := 0]> words) wordlist (∅ : gmap string Z))
  = list_to_set wordlist.
Proof.
  apply set_eq. intros w. rewrite elem_of_dom, elem_of_list_to_set, init_words_lookup.
  destruct (decide (w ∈ wordlist)) as [Hin | Hnin].
  - split; [auto | eauto].
  - rewrite lookup_empty. split; [intros [? ?]; discriminate | contradiction].
Qed.

Lemma count_repositories_spec {A} sre (messages_of : A -> list string) wordlist l :
  forall words,
  Forall (fun w => embedded w = true) wordlist ->
  (forall w, w ∈ wordlist -> is_Some (words !! w)) ->
  exists words',
    for_each l (fun words x => count_messages sre wordlist (messages_of x) words) words
      = Ok words' /\
    forall w, words' !! w =
      (fun n => n + occurrences w wordlist * hits w (flat_map messages_of l))
        <$> words !! w.
Proof.
  induction l as [|x l IH]; intros words He Hkeys.
  - exists words. split; [reflexivity|]. intros w. simpl. rewrite hits_nil.
    destruct (words !! w); simpl; [f_equal; lia | reflexivity].
  - destruct (count_messages_spec sre (messages_of x) wordlist words He Hkeys)
      as (w1 & E1 & H1).
    cbn [for_each]. rewrite E1, bind_Ok.
    destruct (IH w1 He) as (w2 & E2 & H2).
    { intros w Hin. rewrite H1. apply fmap_is_Some, Hkeys, Hin. }
    exists w2. split; [exact E2|]. intros w. rewrite H2, H1. simpl flat_map.
    rewrite hits_app. destruct (words !! w); simpl; [f_equal; lia | reflexivity].
Qed.

Lemma words_closed_form sre git git_paths email wordlist start_date end_date :
  Forall (fun w => embedded w = true) wordlist ->
  exists words,
    _get_git_words sre git git_paths email wordlist start_date end_date = Ok words /\
    forall w, words !! w =
      if decide (w ∈ wordlist)
      then Some (occurrences w wordlist *
                 hits w (oneline_messages git git_paths email start_date end_date))
      else None.
Proof.
  intros He. unfold _get_git_words. cbv zeta.
  destruct (count_repositories_spec sre
    (fun path => Str.splitlines (_get_git_log git path start_date end_date
       ["--author=" +:+ email; "--oneline"])) wordlist git_paths
    (fold_left (fun words word => <[word := 0]> words) wordlist ∅) He) as (words & E & H).
  { intros w Hin. rewrite init_words_lookup.
    destruct (decide (w ∈ wordlist)); [eauto | contradiction]. }
  exists words. split; [exact E|]. intros w. rewrite H, init_words_lookup.
  unfold oneline_messages. destruct (decide (w ∈ wordlist)); simpl; [f_equal; lia|].
  now rewrite lookup_empty.
Qed.

(** For every wordlist: the counter returns counts for the words of the
    wordlist and no others, or raises the [re.error] of a keyword. *)
Lemma words_outcome sre git git_paths email wordlist start_date end_date :
  match _get_git_words sre git git_paths email wordlist start_date end_date with
  | Ok words => dom words = list_to_set wordlist
  | Raise e => exists pattern, e = ReError pattern
  end.
Proof.
  unfold _get_git_words. cbv zeta.
  apply (for_each_invariant
           (fun ws : gmap string Z => dom ws = list_to_set wordlist)
           (fun e => exists pattern, e = ReError pattern)); [|apply init_words_dom].
  intros ws path Hws _.
  match goal with |- context [count_messages sre wordlist ?ms ws] =>
    pose proof (count_messages_keys sre wordlist ms ws) as H;
    destruct (count_messages sre wordlist ms ws) as [ws'|e]
  end.
  - rewrite H; [exact Hws|]. intros w Hw. apply elem_of_dom. rewrite Hws.
    now apply elem_of_list_to_set.
  - apply H. intros w Hw. apply elem_of_dom. rewrite Hws. now apply elem_of_list_to_set.
Qed.

Lemma words_keys sre git git_paths email wordlist start_date end_date words :
  _get_git_words sre git git_paths email wordlist start_date end_date = Ok words ->
  dom words = list_to_set wordlist.
Proof.
  intros E.
  pose proof (words_outcome sre git git_paths email wordlist start_date end_date) as H.
  now rewrite E in H.
Qed.

(** ** The aggregator *)

(** For every wordlist: [get_statistics] returns a record for each email
    found, in that order, or raises the [re.error] of a keyword; it returns
    when the keywords are read here. *)
Lemma get_statistics_outcome sre git list_set git_paths start_date end_date wordlist :
  match get_statistics sre git list_set git_paths start_date end_date wordlist with
  | Ok stats =>
      map email stats =
        _get_git_contributor_emails git list_set git_paths start_date end_date /\
      Forall (record_of sre git git_paths start_date end_date wordlist) stats
  | Raise e =>
      (exists pattern, e = ReError pattern) /\
      ~ Forall (fun w => embedded w = true) wordlist
  end.
Proof.
  unfold get_statistics. cbv zeta.
  generalize (_get_git_contributor_emails git list_set git_paths start_date end_date).
  intros contributors.
  cut (forall acc,
    Forall (record_of sre git git_paths start_date end_date wordlist) acc ->
    match
      for_each contributors
        (fun stats email =>
           changes ← _get_git_files_adds_dels git git_paths email start_date end_date;
           words ← _get_git_words sre git git_paths email wordlist start_date end_date;
           Ok (stats ++ [Stat email
                  (_get_git_contributor_commit_count git git_paths email
                     start_date end_date)
                  (c_files changes) (c_adds changes) (c_dels changes)
                  (c_max_files changes) (c_max_adds changes) (c_max_dels changes)
                  words])) acc
    with
    | Ok stats =>
        map email stats = map email acc ++ contributors /\
        Forall (record_of sre git git_paths start_date end_date wordlist) stats
    | Raise e =>
        (exists pattern, e = ReError pattern) /\
        ~ Forall (fun w => embedded w = true) wordlist
    end).
  { intros H. apply (H []). constructor. }
  induction contributors as [|e contributors IH]; intros acc Hacc.
  - simpl. split; [now rewrite app_nil_r | exact Hacc].
  - cbn [for_each].
    pose proof (churn_closed_form git git_paths e start_date end_date) as Ec.
    cbv zeta in Ec. rewrite Ec, bind_Ok. cbv beta.
    pose proof (words_outcome sre git git_paths e wordlist start_date end_date) as Hw.
    destruct (_get_git_words sre git git_paths e wordlist start_date end_date)
      as [words|err] eqn:Ew.
    + rewrite bind_Ok. cbv beta. rewrite bind_Ok.
      match goal with |- context [for_each _ _ (acc ++ [?d])] => set (rec := d) end.
      specialize (IH (acc ++ [rec])).
      destruct (for_each contributors _ (acc ++ [rec])) as [stats|err].
      * destruct IH as [Hm Hr].
        { apply Forall_app. split; [exact Hacc|]. constructor; [|constructor].
          repeat split; [exact Ec | exact Ew]. }
        split; [|exact Hr]. rewrite Hm, map_app. simpl. now rewrite <- app_assoc.
      * apply IH. apply Forall_app. split; [exact Hacc|]. constructor; [|constructor].
        repeat split; [exact Ec | exact Ew].
    + simpl. split; [exact Hw|]. intros He.
      destruct (words_closed_form sre git git_paths e wordlist start_date end_date He)
        as (words & Ew' & _).
      congruence.
Qed.

Lemma get_statistics_spec sre git list_set git_paths start_date end_date wordlist :
  Forall (fun w => embedded w = true) wordlist ->
  exists stats,
    get_statistics sre git list_set git_paths start_date end_date wordlist = Ok stats /\
    map email stats =
      _get_git_contributor_emails git list_set git_paths start_date end_date /\
    Forall (record_of sre git git_paths start_date end_date wordlist) stats.
Proof.
  intros He.
  pose proof (get_statistics_outcome sre git list_set git_paths start_date end_date wordlist)
    as H.
  destruct (get_statistics sre git list_set git_paths start_date end_date wordlist)
    as [stats|e].
  - exists stats. split; [reflexivity | exact H].
  - destruct H as [_ H]. contradiction.
Qed.

(** ** The log extractor *)

Lemma get_git_log_query git git_path start_date end_date args :
  _get_git_log git git_path start_date end_date args =
  log git git_path (query (shape_of start_date end_date) start_date end_date args).
Proof.
  unfold _get_git_log, shape_of.
  destruct (truthy start_date), (truthy end_date); reflexivity.
Qed.

Lemma count_messages_nil sre wordlist words :
  count_messages sre wordlist [] words = Ok words.
Proof.
  unfold count_messages. induction wordlist as [|word wordlist IH]; [reflexivity|].
  cbn [for_each]. rewrite bind_Ok. exact IH.
Qed.

(** Claim C5.  [_get_git_log] always returns a string: the empty string
    when the query raises [GitError], what the query printed otherwise.
    The empty string has no lines and no words, so that a failed query
    leaves the churn and the keyword counts as they are and adds no commit
    and no email. *)
Theorem log_extractor_never_raises git git_path start_date end_date args :
  let argv := query (shape_of start_date end_date) start_date end_date args in
  (git git_path argv = GitError ->
   _get_git_log git git_path start_date end_date args = EmptyString) /\
  (forall text, git git_path argv = Printed text ->
   _get_git_log git git_path start_date end_date args = text) /\
  Str.splitlines EmptyString = [] /\ Str.split EmptyString = [] /\
  (forall c, for_each (Str.splitlines EmptyString) count_line c = Ok c) /\
  (forall sre wordlist words,
     count_messages sre wordlist (Str.splitlines EmptyString) words = Ok words).
Proof.
  intros argv. rewrite get_git_log_query. fold argv. unfold log.
  split; [now intros -> | split; [now intros text -> |]].
  split; [reflexivity | split; [reflexivity | split; [reflexivity|]]].
  intros sre wordlist words. apply count_messages_nil.
Qed.

Lemma truthy_present d : truthy d = true <-> present d.
Proof.
  unfold present. destruct d as [[|c s]|]; simpl; split; try discriminate.
  - intros (s & [= <-] & H). congruence.
  - intros _. exists (String c s). split; [reflexivity | discriminate].
  - intros _. reflexivity.
  - intros (s & H & _). discriminate.
Qed.

(** Claim C6.  Whatever the log answers, [_get_git_log] returns the answer
    to one query, the empty string for [GitError].  The arguments of the
    query are, before the extra arguments: [--after="start"] and
    [--before="end"] when both dates are present (in Python's sense:
    neither [None] nor empty), [--after="start"] alone when only the start
    is, [--before="end"] alone when only the end is, and nothing when
    neither is. *)
Theorem log_extractor_query_shapes git_path start_date end_date args :
  exists issued,
    (forall git,
       _get_git_log git git_path start_date end_date args =
       match git git_path issued with
       | Printed text => text
       | GitError => EmptyString
       end) /\
    (present start_date -> present end_date ->
     exists a b, after_bound a start_date /\ before_bound b end_date /\
                 issued = a :: b :: args) /\
    (present start_date -> ~ present end_date ->
     exists a, after_bound a start_date /\ issued = a :: args) /\
    (~ present start_date -> present end_date ->
     exists b, before_bound b end_date /\ issued = b :: args) /\
    (~ present start_date -> ~ present end_date -> issued = args).
Proof.
  exists (query (shape_of start_date end_date) start_date end_date args).
  split; [intros git; apply get_git_log_query|].
  rewrite <- !truthy_present. unfold shape_of.
  destruct (truthy start_date) eqn:Es, (truthy end_date) eqn:Ee;
    (split; [|split; [|split]]); try (intros; congruence).
  - intros _ _. apply truthy_present in Es as (s & -> & _).
    apply truthy_present in Ee as (e & -> & _).
    exists (after (Some s)), (before (Some e)).
    split; [exists s; auto | split; [exists e; auto | reflexivity]].
  - intros _ _. apply truthy_present in Es as (s & -> & _).
    exists (after (Some s)). split; [exists s; auto | reflexivity].
  - intros _ _. apply truthy_present in Ee as (e & -> & _).
    exists (before (Some e)). split; [exists e; auto | reflexivity].
  - intros _ _. reflexivity.
Qed.

(** ** Contributor discovery *)







Lemma contributor_emails_fold git list_set start_date end_date git_paths :
  lists_a_set list_set ->
  forall acc, NoDup acc ->
  let emails :=
    fold_left
      (fun contributors path =>
         list_set (Str.split (_get_git_log git path start_date end_date ["--format=%aE"]) ++
                   Str.split (_get_git_log git path start_date end_date ["--format=%cE"]) ++
                   contributors))
      git_paths acc in
  NoDup emails /\
  forall x, x ∈ emails <->
    x ∈ acc \/ exists path, path ∈ git_paths /\ x ∈ listed git path start_date end_date.
Proof.
  intros Hset. induction git_paths as [|path git_paths IH]; intros acc Hacc; simpl.
  - split; [exact Hacc|]. intros x. split; [auto|].
    intros [H | (path & Hp & _)]; [exact H | inversion Hp].
  - match goal with |- context [fold_left _ _ (list_set ?l)] => set (l0 := l) end.
    destruct (Hset l0) as [Hnd Hin].
    destruct (IH (list_set l0) Hnd) as [Hnd' Hin']. split; [exact Hnd'|].
    intros x. rewrite Hin', Hin. unfold l0, listed.
    rewrite !elem_of_app. split.
    + intros [[Ha | [Hc | Hx]] | (p & Hp & Hl)].
      * right. exists path. rewrite elem_of_cons, elem_of_app. auto.
      * right. exists path. rewrite elem_of_cons, elem_of_app. auto.
      * auto.
      * right. exists p. rewrite elem_of_cons. auto.
    + intros [Hx | (p & Hp & Hl)]; [auto|].
      apply elem_of_cons in Hp as [-> | Hp].
      * apply elem_of_app in Hl as [Ha | Hc]; auto.
      * right. exists p. auto.
Qed.



(** ** The leaderboards *)

Lemma insert_desc_elem {A} (key : A -> Z) x l y :
  y ∈ insert_desc key x l <-> y = x \/ y ∈ l.
Proof.
  induction l as [|z l IH]; simpl.
  - rewrite list_elem_of_singleton, elem_of_nil. tauto.
  - destruct (key x <? key z); rewrite !elem_of_cons; [rewrite IH|]; tauto.
Qed.

Lemma insert_desc_sorted {A} (key : A -> Z) x l :
  descending key l -> descending key (insert_desc key x l).
Proof.
  unfold descending. induction 1 as [|z l Hl IH Hz]; simpl.
  - repeat constructor.
  - destruct (key x <? key z) eqn:E.
    + apply Z.ltb_lt in E. constructor; [exact IH|].
      apply Forall_forall. intros y Hy. apply insert_desc_elem in Hy as [-> | Hy]; [lia|].
      rewrite Forall_forall in Hz. auto.
    + apply Z.ltb_ge in E. constructor; [constructor; assumption|].
      constructor; [exact E|]. eapply Forall_impl; [exact Hz|]. simpl. intros; lia.
Qed.

Lemma sorted_reverse_elem {A} (key : A -> Z) l y :
  y ∈ sorted_reverse key l <-> y ∈ l.
Proof.
  induction l as [|x l IH]; simpl; [reflexivity|].
  rewrite insert_desc_elem, elem_of_cons, IH. reflexivity.
Qed.

Lemma sorted_reverse_sorted {A} (key : A -> Z) l :
  descending key (sorted_reverse key l).
Proof.
  induction l as [|x l IH]; simpl; [constructor | now apply insert_desc_sorted].
Qed.

Lemma rows_elem top key l : forall cnt d,
  d ∈ rows top key cnt l -> d ∈ l /\ 0 < key d.
Proof.
  induction l as [|item l IH]; intros cnt d; simpl; [intros H; inversion H|].
  destruct (0 <? key item) eqn:E; simpl.
  - destruct (cnt <? top)%nat.
    + intros H. apply elem_of_cons in H as [-> | H].
      * split; [apply elem_of_cons; auto | now apply Z.ltb_lt].
      * destruct (IH _ _ H). split; [apply elem_of_cons; auto | assumption].
    + intros H. destruct (IH _ _ H). split; [apply elem_of_cons; auto | assumption].
  - intros H. destruct (IH _ _ H). split; [apply elem_of_cons; auto | assumption].
Qed.

Lemma rows_sorted top key l : forall cnt,
  descending key l -> descending key (rows top key cnt l).
Proof.
  unfold descending. induction l as [|item l IH]; intros cnt Hl; simpl; [constructor|].
  inversion Hl as [|? ? Hl' Hitem]; subst.
  destruct ((0 <? key item) && (cnt <? top)%nat); [|apply IH; exact Hl'].
  constructor; [apply IH; exact Hl'|].
  apply Forall_forall. intros d Hd. apply rows_elem in Hd as [Hd _].
  rewrite Forall_forall in Hitem. auto.
Qed.

Lemma rows_length top key l : forall cnt,
  (length (rows top key cnt l) <= top - cnt)%nat.
Proof.
  induction l as [|item l IH]; intros cnt; simpl; [lia|].
  destruct (0 <? key item); simpl; [|specialize (IH (S cnt)); lia].
  destruct (cnt <? top)%nat eqn:E; [|specialize (IH (S cnt)); lia].
  apply Nat.ltb_lt in E. simpl. specialize (IH (S cnt)). lia.
Qed.

(** Claim C2.  For every list of records and each of the seven numeric
    metrics, the rows of the metric's section are in descending order of
    the metric, come from records whose metric is greater than 0 (a record
    with metric 0 is not listed), and are at most [top] in number, 10 with
    the program's [show_top]. *)
Theorem leaderboard_section top m statistics :
  let items := section_items top m statistics in
  section top m statistics = map (printed (value m)) items /\
  descending (value m) items /\
  descending fst (section top m statistics) /\
  (forall d, d ∈ items -> d ∈ statistics /\ 0 < value m d) /\
  (forall d, d ∈ statistics -> value m d = 0 -> d ∉ items) /\
  (length (section top m statistics) <= top)%nat /\
  (length (section show_top m statistics) <= 10)%nat.
Proof.
  intros items.
  assert (Hs : descending (value m) items).
  { apply rows_sorted, sorted_reverse_sorted. }
  assert (He : forall d, d ∈ items -> d ∈ statistics /\ 0 < value m d).
  { intros d Hd. apply rows_elem in Hd as [Hd Hp]. split; [|exact Hp].
    now apply sorted_reverse_elem in Hd. }
  split; [reflexivity|]. split; [exact Hs|]. split.
  { unfold section. fold items. unfold descending in *.
    clear He. induction Hs as [|d l Hl IH Hd]; simpl; constructor; [exact IH|].
    apply Forall_forall. intros r Hr. apply list_elem_of_In, in_map_iff in Hr as (d' & <- & Hd').
    rewrite Forall_forall in Hd. simpl. apply Hd. now apply list_elem_of_In. }
  split; [exact He|]. split.
  { intros d _ H0 Hd. apply He in Hd as [_ Hp]. lia. }
  unfold section, section_items. rewrite !length_map. split.
  - pose proof (rows_length top (value m) (sorted_reverse (value m) statistics) 0). lia.
  - pose proof (rows_length show_top (value m) (sorted_reverse (value m) statistics) 0).
    unfold show_top in *. lia.
Qed.

(** ** The scenario of the keyword counter *)

(** Claim C8.  With the wordlist [["fix"]] and a repository whose one-line
    log for the author is "Fix bug", "fixes typo", "refactor",
    [_get_git_words] returns the count 2 for "fix": the first two messages
    pass the forgiving match, the third does not. *)
Theorem keyword_counter_scenario sre git path email start_date end_date :
  Str.splitlines
    (_get_git_log git path start_date end_date ["--author=" +:+ email; "--oneline"])
    = ["Fix bug"; "fixes typo"; "refactor"] ->
  _get_git_words sre git [path] email ["fix"] start_date end_date = Ok {["fix" := 2]} /\
  hit "fix" "Fix bug" = true /\ hit "fix" "fixes typo" = true /\
  hit "fix" "refactor" = false.
Proof.
  intros H. unfold _get_git_words. cbv zeta. cbn [for_each fold_left].
  rewrite H. vm_compute. auto.
Qed.

(** ** The keys of the keyword counts *)

Lemma word_rows_defined word l : forall cnt,
  (forall d, d ∈ l -> is_Some (words d !! word)) ->
  exists out, word_rows word cnt l = Ok out.
Proof.
  induction l as [|item l IH]; intros cnt Hl; simpl; [eauto|].
  destruct (Hl item) as [n Hn]; [apply elem_of_cons; auto|]. rewrite Hn.
  destruct (IH (S cnt)) as (out & ->); [intros d Hd; apply Hl, elem_of_cons; auto|].
  rewrite bind_Ok. eauto.
Qed.


(** ** The program on a small repository *)

Example splitlines_example :
  Str.splitlines "one
two

four
" = ["one"; "two"; EmptyString; "four"].
Proof. reflexivity. Qed.

Example split_example : Str.split "  a@x.com b@x.com
 c@x.com " = ["a@x.com"; "b@x.com"; "c@x.com"].
Proof. reflexivity. Qed.

(** The pattern takes the last number before the unit on the line. *)
Example matched_example :
  matched "file" " 3 files changed, 10 insertions(+), 2 deletions(-)" = Some 3 /\
  matched "inser" " 3 files changed, 10 insertions(+), 2 deletions(-)" = Some 10 /\
  matched "delet" " 3 files changed, 10 insertions(+)" = None /\
  matched "file" " 1 file, 22 FILES" = Some 22.
Proof. vm_compute. repeat split. Qed.

Example hit_example :
  hit "fix" "Fix bug" = true /\ hit "fix" "bugfixes" = false /\
  hit "fix" "prefix" = false /\ hit "fix" "fixture" = false /\
  hit "fix" "a fix_me" = true /\ hit "fix" "the fixers" = true.
Proof. vm_compute. repeat split. Qed.

(** After the keyword the pattern has a BACKSPACE where a word boundary
    was meant, and the class of whitespace: a colon, a full stop or a
    bracket after the keyword do not close it, a blank does, also after a
    character that is no word character.  A dot in the keyword stands for
    any character. *)
Example hit_line_151 :
  hit "fix" "fix: typo" = false /\ hit "fix" "fix." = false /\
  hit "fix" "(fix)" = false /\ hit "fix" "fix" = true /\
  hit "fix" "fix-up" = true /\ hit "fix" "fixing it" = true /\
  hit "c#" "use c# now" = true /\ hit "f.x" "fax it" = true /\
  hit "fix" (String Char.backspace "fix" +:+ String Char.backspace "!") = true /\
  qualifies_b "fix" "fix: typo" = true /\ qualifies_b "c#" "use c# now" = false /\
  qualifies_b "f.x" "fax it" = false.
Proof. vm_compute. repeat split. Qed.

(** A keyword that is read here never asks the library; any other does,
    for the text of the whole pattern. *)
Example forgiving_match_example :
  forgiving_match no_sre "fix" "Fix bug" = Match (Some "Fix") /\
  forgiving_match no_sre "fix" "prefix" = NoMatch /\
  forgiving_match no_sre "fix(" "fix( it" = Invalid /\
  forgiving_match (fun pattern _ => if String.eqb pattern (forgiving_text "fix|bug")
                                    then Match (Some "bug") else Invalid)
    "fix|bug" "bug" = Match (Some "bug") /\
  count_message no_sre "fix(" {["fix(" := 0]} "fix( it"
    = Raise (ReError (forgiving_text "fix(")) /\
  String.length (forgiving_text "fix") = 65%nat.
Proof. vm_compute. repeat split. Qed.

(** Three commits of one author: 2 files +10 -2, 1 file +1, 4 files -5. *)
Example churn_example :
  _get_git_files_adds_dels example_git ["repo"] "a@x.com" None None
    = Ok (Churn 7 11 7 4 10 5) /\
  _get_git_contributor_commit_count example_git ["repo"] "a@x.com" None None = 3 /\
  _get_git_contributor_commit_count example_git ["repo"] "b@x.com" None None = 0.
Proof. vm_compute. repeat split. Qed.

(** ** Instances *)

Lemma keyword_counter_increment_witness :
  ordinary "fix" /\ ascii_text "fix" /\ ascii_text "a fix, then fixes and a Fix" /\
  one_line "a fix, then fixes and a Fix" /\
  ({["fix" := 0]} : gmap string Z) !! "fix" = Some 0 /\
  (count_message no_sre "fix" {["fix" := 0]} "a fix, then fixes and a Fix"
     = Ok (<["fix" := 0 + 1]> {["fix" := 0]}) \/
   count_message no_sre "fix" {["fix" := 0]} "a fix, then fixes and a Fix"
     = Ok {["fix" := 0]}) /\
  (closed_by_blank "fix" "a fix, then fixes and a Fix" ->
   count_message no_sre "fix" {["fix" := 0]} "a fix, then fixes and a Fix"
     = Ok (<["fix" := 0 + 1]> {["fix" := 0]})) /\
  (no_backspace "a fix, then fixes and a Fix" ->
   ~ closed_by_boundary "fix" "a fix, then fixes and a Fix" ->
   count_message no_sre "fix" {["fix" := 0]} "a fix, then fixes and a Fix"
     = Ok {["fix" := 0]}).
Proof.
  assert (Ho : ordinary "fix") by repeat constructor.
  assert (Ha : ascii_text "fix") by (repeat constructor; vm_compute; lia).
  assert (Hm : ascii_text "a fix, then fixes and a Fix")
    by (repeat constructor; vm_compute; lia).
  assert (Hl : one_line "a fix, then fixes and a Fix") by repeat constructor.
  assert (Hk : ({["fix" := 0]} : gmap string Z) !! "fix" = Some 0) by reflexivity.
  split; [exact Ho | split; [exact Ha | split; [exact Hm | split; [exact Hl |
    split; [exact Hk|]]]]].
  apply (keyword_counter_increment no_sre "fix" "a fix, then fixes and a Fix"
           {["fix" := 0]} 0 Ho Ha Hm Hl Hk).
Defined.

(** The claim as it was stated fails three ways.  The keyword is read as a
    pattern: ["f.x"] is counted in a line that does not hold it.  A
    whitespace character closes the keyword where no word boundary is:
    ["c#"] is counted in ["use c# now"].  And a word boundary alone does
    not close it: ["fix: typo"] qualifies and is not counted. *)
Lemma keyword_counter_increment_counterexample :
  (~ qualifies "f.x" "fax it" /\
   count_message no_sre "f.x" {["f.x" := 0]} "fax it" = Ok {["f.x" := 1]}) /\
  (~ qualifies "c#" "use c# now" /\
   count_message no_sre "c#" {["c#" := 0]} "use c# now" = Ok {["c#" := 1]}) /\
  (qualifies "fix" "fix: typo" /\
   count_message no_sre "fix" {["fix" := 0]} "fix: typo" = Ok {["fix" := 0]}).
Proof.
  split; [|split]; split; try (vm_compute; reflexivity).
  - intros H. apply qualifies_decided in H; [|repeat constructor].
    vm_compute in H. discriminate.
  - intros H. apply qualifies_decided in H; [|repeat constructor].
    vm_compute in H. discriminate.
  - apply qualifies_decided; [repeat constructor | vm_compute; reflexivity].
Qed.

Lemma keyword_count_monotone_witness :
  Forall ordinary ["fix"; "add"] /\ Forall ascii_text ["fix"; "add"] /\
  ascii_text "fixes typo" /\ one_line "fixes typo" /\
  exists before after,
    count_messages no_sre ["fix"; "add"] ["Fix bug"] {["fix" := 0; "add" := 0]}
      = Ok before /\
    count_messages no_sre ["fix"; "add"] (["Fix bug"] ++ ["fixes typo"])
      {["fix" := 0; "add" := 0]} = Ok after /\
    forall word, word ∈ ["fix"; "add"] ->
      exists n, before !! word = Some n /\
        (closed_by_blank word "fixes typo" ->
         after !! word = Some (n + occurrences word ["fix"; "add"])) /\
        (NoDup ["fix"; "add"] -> closed_by_blank word "fixes typo" ->
         after !! word = Some (n + 1)) /\
        (no_backspace "fixes typo" -> ~ closed_by_boundary word "fixes typo" ->
         after !! word = Some n).
Proof.
  assert (Ho : Forall ordinary ["fix"; "add"]) by repeat constructor.
  assert (Ha : Forall ascii_text ["fix"; "add"]) by (repeat constructor; vm_compute; lia).
  assert (Hm : ascii_text "fixes typo") by (repeat constructor; vm_compute; lia).
  assert (Hl : one_line "fixes typo") by repeat constructor.
  split; [exact Ho | split; [exact Ha | split; [exact Hm | split; [exact Hl|]]]].
  apply (keyword_count_monotone no_sre ["fix"; "add"] ["Fix bug"] "fixes typo"
           {["fix" := 0; "add" := 0]} Ho Ha Hm Hl).
  intros w Hw. repeat (apply elem_of_cons in Hw as [-> | Hw]);
    [eexists; reflexivity | eexists; reflexivity | inversion Hw].
Defined.

(** A keyword that is listed twice is counted twice for one line. *)
Lemma keyword_count_monotone_counterexample :
  qualifies "fix" "fix bug" /\
  count_messages no_sre ["fix"; "fix"] [] {["fix" := 0]} = Ok {["fix" := 0]} /\
  count_messages no_sre ["fix"; "fix"] ([] ++ ["fix bug"]) {["fix" := 0]}
    = Ok {["fix" := 2]}.
Proof.
  split; [|split; vm_compute; reflexivity].
  apply qualifies_decided; [repeat constructor | vm_compute; reflexivity].
Qed.

Lemma keyword_counter_scenario_witness :
  Str.splitlines
    (_get_git_log example_git "repo" None None ["--author=" +:+ "a@x.com"; "--oneline"])
    = ["Fix bug"; "fixes typo"; "refactor"] /\
  _get_git_words no_sre example_git ["repo"] "a@x.com" ["fix"] None None
    = Ok {["fix" := 2]}.
Proof.
  assert (H : Str.splitlines
    (_get_git_log example_git "repo" None None ["--author=" +:+ "a@x.com"; "--oneline"])
    = ["Fix bug"; "fixes typo"; "refactor"]) by (vm_compute; reflexivity).
  split; [exact H|].
  apply (keyword_counter_scenario no_sre example_git "repo" "a@x.com" None None H).
Defined.

Lemma remove_dups_lists_a_set : lists_a_set remove_dups.
Proof.
  intros l. split; [apply NoDup_remove_dups | intros x; apply elem_of_remove_dups].
Defined.




(** ** Repositories in another order, keywords listed twice *)

Lemma sum_app l1 l2 : Spec.sum (l1 ++ l2) = Spec.sum l1 + Spec.sum l2.
Proof. induction l1 as [|x l1 IH]; simpl; lia. Qed.

Lemma top_app l1 l2 : top (l1 ++ l2) = Z.max (top l1) (top l2).
Proof.
  induction l1 as [|x l1 IH]; simpl.
  - pose proof (top_nonneg l2). lia.
  - rewrite IH. lia.
Qed.

Lemma sum_Permutation l1 l2 : l1 ≡ₚ l2 -> Spec.sum l1 = Spec.sum l2.
Proof. induction 1; simpl; lia. Qed.

Lemma top_Permutation l1 l2 : l1 ≡ₚ l2 -> top l1 = top l2.
Proof. induction 1; simpl; lia. Qed.

Lemma flat_map_Permutation {A B} (f : A -> list B) l1 l2 :
  l1 ≡ₚ l2 -> flat_map f l1 ≡ₚ flat_map f l2.
Proof.
  induction 1 as [|x l1 l2 _ IH|x y l|l1 l2 l3 _ IH1 _ IH2]; simpl.
  - reflexivity.
  - now rewrite IH.
  - rewrite !app_assoc. apply Permutation_app_tail, Permutation_app_comm.
  - now rewrite IH1.
Qed.

Lemma amounts_app unit l1 l2 : amounts unit (l1 ++ l2) = amounts unit l1 ++ amounts unit l2.
Proof. apply map_app. Qed.

Lemma shortstat_lines_app git p1 p2 email start_date end_date :
  shortstat_lines git (p1 ++ p2) email start_date end_date =
  shortstat_lines git p1 email start_date end_date ++
  shortstat_lines git p2 email start_date end_date.
Proof. apply flat_map_app. Qed.

(** Property X1.  The churn of a contributor over two lists of repositories
    taken together: the totals add up and each maximum is the larger of the
    two; every part of the computation returns. *)
Theorem churn_of_more_repositories git p1 p2 email start_date end_date :
  exists c1 c2,
    _get_git_files_adds_dels git p1 email start_date end_date = Ok c1 /\
    _get_git_files_adds_dels git p2 email start_date end_date = Ok c2 /\
    _get_git_files_adds_dels git (p1 ++ p2) email start_date end_date =
      Ok (Churn (c_files c1 + c_files c2) (c_adds c1 + c_adds c2)
                (c_dels c1 + c_dels c2)
                (Z.max (c_max_files c1) (c_max_files c2))
                (Z.max (c_max_adds c1) (c_max_adds c2))
                (Z.max (c_max_dels c1) (c_max_dels c2))).
Proof.
  do 2 eexists. split; [apply churn_closed_form | split; [apply churn_closed_form|]].
  pose proof (churn_closed_form git (p1 ++ p2) email start_date end_date) as E.
  cbv zeta in E. rewrite E, shortstat_lines_app, !amounts_app, !sum_app, !top_app.
  reflexivity.
Qed.

(** Property X2.  The churn of a contributor does not depend on the order
    in which the repositories are listed. *)
Theorem churn_repository_order git p1 p2 email start_date end_date :
  p1 ≡ₚ p2 ->
  _get_git_files_adds_dels git p1 email start_date end_date =
  _get_git_files_adds_dels git p2 email start_date end_date.
Proof.
  intros Hp.
  pose proof (churn_closed_form git p1 email start_date end_date) as E1.
  pose proof (churn_closed_form git p2 email start_date end_date) as E2.
  cbv zeta in E1, E2. rewrite E1, E2.
  assert (Hl : shortstat_lines git p1 email start_date end_date ≡ₚ
               shortstat_lines git p2 email start_date end_date)
    by now apply flat_map_Permutation.
  assert (Ha : forall unit,
    amounts unit (shortstat_lines git p1 email start_date end_date) ≡ₚ
    amounts unit (shortstat_lines git p2 email start_date end_date)).
  { intros unit. unfold amounts. now apply Permutation_map. }
  rewrite (sum_Permutation _ _ (Ha "file")), (sum_Permutation _ _ (Ha "inser")),
    (sum_Permutation _ _ (Ha "delet")), (top_Permutation _ _ (Ha "file")),
    (top_Permutation _ _ (Ha "inser")), (top_Permutation _ _ (Ha "delet")).
  reflexivity.
Qed.

(** The commit counter. *)

Lemma commit_fold git email start_date end_date git_paths : forall acc,
  fold_left
    (fun commits path =>
       commits ++
       Str.splitlines
         (_get_git_log git path start_date end_date
            ["--author=" +:+ email;
             "--format=" +:+ Str.dquote +:+ "%H" +:+ Str.dquote]))
    git_paths acc =
  acc ++ flat_map
    (fun path =>
       Str.splitlines
         (_get_git_log git path start_date end_date
            ["--author=" +:+ email;
             "--format=" +:+ Str.dquote +:+ "%H" +:+ Str.dquote]))
    git_paths.
Proof.
  induction git_paths as [|path git_paths IH]; intros acc; simpl.
  - now rewrite app_nil_r.
  - rewrite IH. now rewrite <- app_assoc.
Qed.

Lemma commit_count_closed git git_paths email start_date end_date :
  _get_git_contributor_commit_count git git_paths email start_date end_date =
  Z.of_nat (length (flat_map
    (fun path =>
       Str.splitlines
         (_get_git_log git path start_date end_date
            ["--author=" +:+ email;
             "--format=" +:+ Str.dquote +:+ "%H" +:+ Str.dquote]))
    git_paths)).
Proof.
  unfold _get_git_contributor_commit_count. cbv zeta. now rewrite commit_fold.
Qed.

(** Property X3.  The commit count is not negative, adds up over lists of
    repositories taken together, and does not depend on the order of the
    repositories. *)
Theorem commit_count_of_repositories git p1 p2 email start_date end_date :
  0 <= _get_git_contributor_commit_count git p1 email start_date end_date /\
  _get_git_contributor_commit_count git (p1 ++ p2) email start_date end_date =
    _get_git_contributor_commit_count git p1 email start_date end_date +
    _get_git_contributor_commit_count git p2 email start_date end_date /\
  (forall p3, p1 ≡ₚ p3 ->
    _get_git_contributor_commit_count git p1 email start_date end_date =
    _get_git_contributor_commit_count git p3 email start_date end_date).
Proof.
  rewrite !commit_count_closed. split; [lia|]. split.
  - rewrite flat_map_app, length_app. lia.
  - intros p3 Hp. rewrite commit_count_closed. f_equal.
    apply Permutation_length. now apply flat_map_Permutation.
Qed.

(** The keyword counter as a whole. *)

Lemma hits_Permutation word l1 l2 : l1 ≡ₚ l2 -> hits word l1 = hits word l2.
Proof.
  intros Hp. unfold hits. f_equal. apply Permutation_length.
  now apply filter_Permutation.
Qed.

Lemma occurrences_Permutation word l1 l2 :
  l1 ≡ₚ l2 -> occurrences word l1 = occurrences word l2.
Proof.
  intros Hp. unfold occurrences. f_equal. apply Permutation_length.
  now apply filter_Permutation.
Qed.

Lemma hits_bounds word messages : 0 <= hits word messages <= Z.of_nat (length messages).
Proof.
  unfold hits. split; [lia|]. apply inj_le, length_filter.
Qed.



(** Property X5.  For a wordlist of ordinary keywords without repetition,
    [_get_git_words] returns and no count exceeds the number of one-line
    messages of the contributor. *)
Theorem keyword_counts_bounded sre git git_paths email wordlist start_date end_date :
  Forall ordinary wordlist -> NoDup wordlist ->
  exists words,
    _get_git_words sre git git_paths email wordlist start_date end_date = Ok words /\
    forall w n, words !! w = Some n ->
      0 <= n <= Z.of_nat (length (oneline_messages git git_paths email start_date end_date)).
Proof.
  intros Ho Hnd.
  destruct (words_closed_form sre git git_paths email wordlist start_date end_date
              (all_embedded wordlist Ho)) as (words & E & H).
  exists words. split; [exact E|]. intros w n. rewrite H.
  destruct (decide (w ∈ wordlist)) as [Hin|]; [|discriminate].
  rewrite (occurrences_NoDup w wordlist Hnd Hin). intros [= <-].
  pose proof (hits_bounds w (oneline_messages git git_paths email start_date end_date)). lia.
Qed.

(** Property X6.  For ordinary keywords, the keyword counts depend neither
    on the order of the repositories nor on the order of the wordlist. *)
Theorem keyword_counts_order sre git p1 p2 email l1 l2 start_date end_date :
  Forall ordinary l1 -> p1 ≡ₚ p2 -> l1 ≡ₚ l2 ->
  _get_git_words sre git p1 email l1 start_date end_date =
  _get_git_words sre git p2 email l2 start_date end_date.
Proof.
  intros Ho Hp Hl.
  assert (Ho2 : Forall ordinary l2) by now rewrite <- Hl.
  destruct (words_closed_form sre git p1 email l1 start_date end_date
              (all_embedded l1 Ho)) as (w1 & E1 & H1).
  destruct (words_closed_form sre git p2 email l2 start_date end_date
              (all_embedded l2 Ho2)) as (w2 & E2 & H2).
  rewrite E1, E2. f_equal. apply map_eq. intros w. rewrite H1, H2.
  assert (Hm : oneline_messages git p1 email start_date end_date ≡ₚ
               oneline_messages git p2 email start_date end_date)
    by now apply flat_map_Permutation.
  rewrite (hits_Permutation w _ _ Hm), (occurrences_Permutation w _ _ Hl).
  destruct (decide (w ∈ l1)) as [Hin | Hnin], (decide (w ∈ l2)) as [Hin' | Hnin'];
    try reflexivity.
  - destruct Hnin'. now rewrite <- Hl.
  - destruct Hnin. now rewrite Hl.
Qed.

(** ** The sort and the rows of a section *)

Lemma insert_desc_Permutation {A} (key : A -> Z) x l : insert_desc key x l ≡ₚ x :: l.
Proof.
  induction l as [|y l IH]; simpl; [reflexivity|].
  destruct (key x <? key y); [|reflexivity].
  rewrite IH. apply perm_swap.
Qed.

Lemma insert_desc_filter {A} (key : A -> Z) k x l :
  filter (fun y => key y = k) (insert_desc key x l) =
  filter (fun y => key y = k) (x :: l).
Proof.
  induction l as [|y l IH]; simpl; [reflexivity|].
  destruct (key x <? key y) eqn:E; [|reflexivity].
  apply Z.ltb_lt in E. rewrite !filter_cons, IH, filter_cons.
  destruct (decide (key y = k)), (decide (key x = k)); try reflexivity. lia.
Qed.

Lemma sorted_reverse_Permutation {A} (key : A -> Z) l : sorted_reverse key l ≡ₚ l.
Proof.
  induction l as [|x l IH]; simpl; [reflexivity|].
  now rewrite insert_desc_Permutation, IH.
Qed.

(** Property X7.  [sorted(l, key=key, reverse=True)] rearranges [l] in
    descending order of the key, the records of equal key in the order
    they have in [l]. *)
Theorem sorted_reverse_stable {A} (key : A -> Z) (l : list A) :
  sorted_reverse key l ≡ₚ l /\
  descending key (sorted_reverse key l) /\
  forall k, filter (fun y => key y = k) (sorted_reverse key l) =
            filter (fun y => key y = k) l.
Proof.
  split; [apply sorted_reverse_Permutation|]. split; [apply sorted_reverse_sorted|].
  intros k. induction l as [|x l IH]; simpl; [reflexivity|].
  now rewrite insert_desc_filter, !filter_cons, IH.
Qed.

Lemma rows_none top key l : forall cnt,
  Forall (fun d => key d <= 0) l -> rows top key cnt l = [].
Proof.
  induction l as [|item l IH]; intros cnt Hl; simpl; [reflexivity|].
  inversion Hl as [|? ? Hitem Hl']; subst.
  destruct (0 <? key item) eqn:E; [apply Z.ltb_lt in E; lia|]. simpl. now apply IH.
Qed.

Lemma filter_none (key : stat -> Z) l :
  Forall (fun d => key d <= 0) l -> filter (fun d => 0 < key d) l = [].
Proof.
  induction 1 as [|item l Hitem Hl IH]; [reflexivity|].
  rewrite filter_cons, IH. destruct (decide (0 < key item)); [lia | reflexivity].
Qed.

Lemma rows_take top key l : forall cnt,
  descending key l ->
  rows top key cnt l = take (top - cnt) (filter (fun d => 0 < key d) l).
Proof.
  unfold descending. induction l as [|item l IH]; intros cnt Hl; simpl.
  - now rewrite filter_nil, take_nil.
  - inversion Hl as [|? ? Hl' Hitem]; subst. rewrite filter_cons.
    destruct (decide (0 < key item)) as [Hp | Hn].
    + rewrite (IH (S cnt) Hl'). apply Z.ltb_lt in Hp. rewrite Hp. simpl.
      destruct (cnt <? top)%nat eqn:E.
      * apply Nat.ltb_lt in E. replace (top - cnt)%nat with (S (top - S cnt)) by lia.
        reflexivity.
      * apply Nat.ltb_ge in E. replace (top - cnt)%nat with 0%nat by lia.
        replace (top - S cnt)%nat with 0%nat by lia. reflexivity.
    + assert (Hall : Forall (fun d => key d <= 0) l).
      { eapply Forall_impl; [exact Hitem|]. simpl. intros; lia. }
      rewrite (rows_none _ _ _ _ Hall), (filter_none _ _ Hall), take_nil.
      destruct (0 <? key item) eqn:E; [apply Z.ltb_lt in E; lia|]. reflexivity.
Qed.

Lemma descending_filter {A} (key : A -> Z) (P : A -> Prop) `{!forall x, Decision (P x)} l :
  descending key l -> descending key (filter P l).
Proof.
  unfold descending. induction 1 as [|x l Hl IH Hx]; [constructor|].
  rewrite filter_cons. destruct (decide (P x)); [|exact IH].
  constructor; [exact IH|]. apply Forall_forall. intros y Hy.
  apply list_elem_of_filter in Hy as [_ Hy]. rewrite Forall_forall in Hx. auto.
Qed.

Lemma descending_split {A} (key : A -> Z) (l1 l2 : list A) :
  descending key (l1 ++ l2) -> forall a b, a ∈ l1 -> b ∈ l2 -> key b <= key a.
Proof.
  unfold descending. induction l1 as [|x l1 IH]; simpl; intros Hs a b Ha Hb.
  - inversion Ha.
  - inversion Hs as [|? ? Hs' Hx]; subst. apply elem_of_cons in Ha as [-> | Ha].
    + rewrite Forall_forall in Hx. apply Hx, elem_of_app. auto.
    + eapply IH; eauto.
Qed.

Lemma section_items_take top m statistics :
  section_items top m statistics =
  take top (filter (fun d => 0 < value m d) (sorted_reverse (value m) statistics)).
Proof.
  unfold section_items. rewrite rows_take by apply sorted_reverse_sorted.
  now rewrite Nat.sub_0_r.
Qed.

Lemma section_length top m statistics :
  length (section top m statistics) =
  Nat.min top (length (filter (fun d => 0 < value m d) statistics)).
Proof.
  unfold section. rewrite length_map, section_items_take, length_take. f_equal.
  apply Permutation_length, filter_Permutation, sorted_reverse_Permutation.
Qed.

(** Property X8.  The rows of a numeric section are the first [top] records of positive
    metric in the sorted list; there are [top] of them, or as many as there
    are records of positive metric; and a record of positive metric is left
    out only when [top] rows are printed, none with a smaller number. *)
Theorem leaderboard_rows top m statistics :
  let positive := filter (fun d => 0 < value m d) (sorted_reverse (value m) statistics) in
  section_items top m statistics = take top positive /\
  length (section top m statistics) =
    Nat.min top (length (filter (fun d => 0 < value m d) statistics)) /\
  forall d, d ∈ statistics -> 0 < value m d ->
    d ∈ section_items top m statistics \/
    (length (section_items top m statistics) = top /\
     forall r, r ∈ section_items top m statistics -> value m d <= value m r).
Proof.
  intros positive. split; [apply section_items_take|]. split; [apply section_length|].
  intros d Hd Hp. rewrite section_items_take. fold positive.
  assert (Hin : d ∈ positive).
  { apply list_elem_of_filter. split; [exact Hp | now apply sorted_reverse_elem]. }
  rewrite <- (take_drop top positive) in Hin. apply elem_of_app in Hin as [Hin | Hin];
    [left; exact Hin | right].
  split.
  - rewrite length_take. apply Nat.min_l.
    destruct (le_lt_dec top (length positive)) as [|Hlt]; [assumption|].
    rewrite drop_ge in Hin by lia. inversion Hin.
  - intros r Hr. apply (descending_split (value m) (take top positive) (drop top positive));
      [|exact Hr | exact Hin].
    rewrite take_drop. apply descending_filter, sorted_reverse_sorted.
Qed.

(** ** The section of a keyword *)

Lemma word_rows_rows word l : forall cnt,
  (forall d, d ∈ l -> is_Some (words d !! word)) ->
  word_rows word cnt l =
  Ok (map (printed (word_key word)) (rows show_top (word_key word) cnt l)).
Proof.
  induction l as [|item l IH]; intros cnt Hl; [reflexivity|].
  cbn [word_rows rows].
  destruct (Hl item) as [n Hn]; [apply elem_of_cons; auto|]. rewrite Hn.
  rewrite (IH (S cnt)) by (intros d Hd; apply Hl, elem_of_cons; auto).
  rewrite bind_Ok.
  assert (Ek : word_key word item = n) by (unfold word_key; now rewrite Hn).
  rewrite Ek. destruct ((0 <? n) && (cnt <? show_top)%nat); [|reflexivity].
  cbn [map]. unfold printed at 2. now rewrite Ek.
Qed.

Lemma word_rows_raises word l : forall cnt d,
  d ∈ l -> words d !! word = None -> word_rows word cnt l = Raise (KeyError word).
Proof.
  induction l as [|item l IH]; intros cnt d Hd Hn; [inversion Hd|]. cbn [word_rows].
  destruct (words item !! word) as [n|] eqn:E; [|reflexivity].
  apply elem_of_cons in Hd as [-> | Hd]; [congruence|].
  now rewrite (IH (S cnt) d Hd Hn).
Qed.

Lemma word_section_take word statistics :
  (forall d, d ∈ statistics -> is_Some (words d !! word)) ->
  word_section word statistics =
  Ok (map (printed (word_key word))
        (take show_top
           (filter (fun d => 0 < word_key word d)
              (sorted_reverse (word_key word) statistics)))).
Proof.
  intros Hall. unfold word_section. rewrite word_rows_rows.
  - rewrite rows_take by apply sorted_reverse_sorted. now rewrite Nat.sub_0_r.
  - intros d Hd. apply Hall. now apply sorted_reverse_elem in Hd.
Qed.

(** Property X9.  The section of a word raises [KeyError] exactly when some record has no
    count for the word, whatever the counts of the others and however many
    rows are due; otherwise its rows are the first [show_top] records of
    positive count in the list sorted by the count. *)
Theorem keyword_section_rows word statistics :
  (word_section word statistics = Raise (KeyError word) <->
   exists d, d ∈ statistics /\ words d !! word = None) /\
  ((forall d, d ∈ statistics -> is_Some (words d !! word)) ->
   word_section word statistics =
   Ok (map (printed (word_key word))
         (take show_top
            (filter (fun d => 0 < word_key word d)
               (sorted_reverse (word_key word) statistics))))).
Proof.
  split; [|apply word_section_take]. split.
  - intros Hr.
    destruct (decide (Exists (fun d => words d !! word = None) statistics)) as [He | Hne].
    + apply Exists_exists in He. exact He.
    + rewrite word_section_take in Hr; [discriminate|]. intros d Hd.
      destruct (words d !! word) eqn:E; [eauto|].
      destruct Hne. apply Exists_exists. eauto.
  - intros (d & Hd & Hn). unfold word_section.
    apply (word_rows_raises word _ 0%nat d); [|exact Hn]. now apply sorted_reverse_elem.
Qed.

(** ** The records of a run *)

Lemma sum_positive_top l :
  Forall (fun n => 0 <= n) l -> 0 < Spec.sum l <-> 0 < top l.
Proof.
  induction 1 as [|x l Hx Hl IH]; simpl; [lia|].
  pose proof (top_le_sum l Hl). lia.
Qed.

Lemma record_churn sre git git_paths start_date end_date wordlist d :
  record_of sre git git_paths start_date end_date wordlist d ->
  let lines := shortstat_lines git git_paths (email d) start_date end_date in
  files d = Spec.sum (amounts "file" lines) /\
  adds d = Spec.sum (amounts "inser" lines) /\
  dels d = Spec.sum (amounts "delet" lines) /\
  max_files d = top (amounts "file" lines) /\
  max_adds d = top (amounts "inser" lines) /\
  max_dels d = top (amounts "delet" lines).
Proof.
  intros (Ec & _ & _) lines.
  pose proof (churn_closed_form git git_paths (email d) start_date end_date) as E.
  cbv zeta in E. rewrite Ec in E. injection E as -> -> -> -> -> ->.
  repeat split.
Qed.

Lemma NoDup_map_sublist {A B} (f : A -> B) (l1 l2 : list A) :
  l1 `sublist_of` l2 -> NoDup (map f l2) -> NoDup (map f l1).
Proof.
  intros Hs Hn. apply (sublist_NoDup (f <$> l1) (f <$> l2)); [exact Hn|].
  now apply fmap_sublist.
Qed.

Lemma NoDup_map_sorted {A B} (f : A -> B) (key : A -> Z) (l : list A) :
  NoDup (map f l) -> NoDup (map f (sorted_reverse key l)).
Proof.
  intros Hn. change (NoDup (f <$> sorted_reverse key l)).
  now rewrite sorted_reverse_Permutation.
Qed.

Lemma printed_email key l : map snd (map (printed key) l) = map email l.
Proof. rewrite map_map. reflexivity. Qed.

(** Property X10.  For ordinary keywords [get_statistics] returns; its
    records carry distinct emails, and so no section of the report, numeric
    or of a keyword, lists an email twice. *)
Theorem sections_list_a_contributor_once
  sre git list_set git_paths start_date end_date wordlist :
  lists_a_set list_set -> Forall ordinary wordlist ->
  exists stats,
    get_statistics sre git list_set git_paths start_date end_date wordlist = Ok stats /\
    NoDup (map email stats) /\
    (forall top m, NoDup (map snd (section top m stats))) /\
    (forall word, word ∈ wordlist ->
       exists out, word_section word stats = Ok out /\ NoDup (map snd out)).
Proof.
  intros Hset Ho.
  destruct (get_statistics_spec sre git list_set git_paths start_date end_date wordlist
              (all_embedded wordlist Ho)) as (stats & E & Hm & Hr).
  destruct (contributor_emails_fold git list_set start_date end_date git_paths Hset []
              NoDup_nil_2) as [Hnd _].
  assert (Hn : NoDup (map email stats)) by (rewrite Hm; exact Hnd).
  exists stats. split; [exact E|]. split; [exact Hn|]. split.
  - intros top m. unfold section. rewrite printed_email.
    rewrite section_items_take.
    apply (NoDup_map_sublist _ _ (sorted_reverse (value m) stats)).
    + etransitivity; [apply sublist_take | apply sublist_filter].
    + now apply NoDup_map_sorted.
  - intros word Hw.
    assert (Hk : forall d, d ∈ stats -> is_Some (words d !! word)).
    { intros d Hd. apply elem_of_dom. rewrite Forall_forall in Hr.
      destruct (Hr d Hd) as (_ & _ & Ew).
      rewrite (words_keys sre _ _ _ _ _ _ _ Ew). now apply elem_of_list_to_set. }
    eexists. split; [apply word_section_take; exact Hk|].
    rewrite printed_email.
    apply (NoDup_map_sublist _ _ (sorted_reverse (word_key word) stats)).
    + etransitivity; [apply sublist_take | apply sublist_filter].
    + now apply NoDup_map_sorted.
Qed.

Lemma filter_length_ext {A} (P Q : A -> Prop) `{!forall x, Decision (P x)}
  `{!forall x, Decision (Q x)} (l : list A) :
  (forall x, x ∈ l -> P x <-> Q x) -> length (filter P l) = length (filter Q l).
Proof.
  induction l as [|x l IH]; intros Hall; [reflexivity|].
  rewrite !filter_cons.
  assert (Hx : P x <-> Q x) by (apply Hall, elem_of_cons; auto).
  assert (Hl : length (filter P l) = length (filter Q l)).
  { apply IH. intros y Hy. apply Hall, elem_of_cons. auto. }
  destruct (decide (P x)), (decide (Q x)); simpl; try tauto; now rewrite Hl.
Qed.

(** Property X11.  For ordinary keywords [get_statistics] returns; in
    every record of it a total is positive exactly when the maximum of the
    same metric is, so the section of a total and the section of its
    maximum print the same number of rows. *)
Theorem totals_and_maxima_sections
  sre git list_set git_paths start_date end_date wordlist :
  Forall ordinary wordlist ->
  exists stats,
    get_statistics sre git list_set git_paths start_date end_date wordlist = Ok stats /\
    (forall d, d ∈ stats ->
       (0 < files d <-> 0 < max_files d) /\
       (0 < adds d <-> 0 < max_adds d) /\
       (0 < dels d <-> 0 < max_dels d)) /\
    (forall top,
       length (section top Files stats) = length (section top MaxFiles stats) /\
       length (section top Adds stats) = length (section top MaxAdds stats) /\
       length (section top Dels stats) = length (section top MaxDels stats)).
Proof.
  intros Ho.
  destruct (get_statistics_spec sre git list_set git_paths start_date end_date wordlist
              (all_embedded wordlist Ho)) as (stats & E & _ & Hr).
  exists stats. split; [exact E|].
  assert (H : forall d, d ∈ stats ->
       (0 < files d <-> 0 < max_files d) /\
       (0 < adds d <-> 0 < max_adds d) /\
       (0 < dels d <-> 0 < max_dels d)).
  { intros d Hd. rewrite Forall_forall in Hr.
    destruct (record_churn _ _ _ _ _ _ _ (Hr d Hd)) as (-> & -> & -> & -> & -> & ->).
    repeat split; apply sum_positive_top, amounts_nonneg. }
  split; [exact H|]. intros top. rewrite !section_length.
  repeat split; f_equal; apply filter_length_ext; intros d Hd; simpl; apply (H d Hd).
Qed.

(** ** Queries that fail *)

Lemma failing_log git path start_date end_date args :
  (forall argv, git path argv = GitError) ->
  _get_git_log git path start_date end_date args = EmptyString.
Proof.
  intros H. rewrite get_git_log_query. unfold log. now rewrite H.
Qed.

Lemma flat_map_nil {A B} (f : A -> list B) l :
  (forall x, x ∈ l -> f x = []) -> flat_map f l = [].
Proof.
  induction l as [|x l IH]; intros H; simpl; [reflexivity|].
  rewrite (H x) by (apply elem_of_cons; auto). simpl.
  apply IH. intros y Hy. apply H, elem_of_cons. auto.
Qed.

(** Without a message no pattern is looked at. *)
Lemma words_without_messages sre git git_paths email wordlist start_date end_date :
  (forall path, path ∈ git_paths ->
     Str.splitlines (_get_git_log git path start_date end_date
                       ["--author=" +:+ email; "--oneline"]) = []) ->
  _get_git_words sre git git_paths email wordlist start_date end_date =
  Ok (fold_left (fun words word => <[word := 0]> words) wordlist ∅).
Proof.
  intros H. unfold _get_git_words. cbv zeta.
  generalize (fold_left (fun words word => <[word := 0]> words) wordlist
                (∅ : gmap string Z)).
  induction git_paths as [|path git_paths IH]; intros words; [reflexivity|].
  cbn [for_each]. rewrite (H path) by (apply elem_of_cons; auto).
  rewrite count_messages_nil, bind_Ok. apply IH.
  intros p Hp. apply H, elem_of_cons. auto.
Qed.

(** Property X12.  When every query on every repository fails, a contributor's churn and
    commit count are 0, every keyword is counted 0 times, no contributor is
    found and [get_statistics] returns no record; so it is for an empty list
    of repositories. *)
Theorem statistics_of_failing_queries
  sre git list_set git_paths email start_date end_date wordlist :
  lists_a_set list_set ->
  (forall path argv, path ∈ git_paths -> git path argv = GitError) ->
  _get_git_files_adds_dels git git_paths email start_date end_date =
    Ok (Churn 0 0 0 0 0 0) /\
  _get_git_contributor_commit_count git git_paths email start_date end_date = 0 /\
  (exists words,
     _get_git_words sre git git_paths email wordlist start_date end_date = Ok words /\
     forall w, w ∈ wordlist -> words !! w = Some 0) /\
  _get_git_contributor_emails git list_set git_paths start_date end_date = [] /\
  get_statistics sre git list_set git_paths start_date end_date wordlist = Ok [].
Proof.
  intros Hset Hfail.
  assert (Hlog : forall path args, path ∈ git_paths ->
            _get_git_log git path start_date end_date args = EmptyString).
  { intros path args Hp. apply failing_log. intros argv. now apply Hfail. }
  assert (Hemails : _get_git_contributor_emails git list_set git_paths start_date end_date = []).
  { destruct (contributor_emails_fold git list_set start_date end_date git_paths Hset []
                NoDup_nil_2) as [_ Hin].
    apply elem_of_nil_inv. intros x Hx. apply Hin in Hx as [Hx | (path & Hp & Hl)].
    - inversion Hx.
    - unfold listed in Hl. rewrite !Hlog in Hl by exact Hp. inversion Hl. }
  split; [|split; [|split; [|split; [exact Hemails|]]]].
  - pose proof (churn_closed_form git git_paths email start_date end_date) as E.
    cbv zeta in E. rewrite E.
    assert (Hl : shortstat_lines git git_paths email start_date end_date = []).
    { apply flat_map_nil. intros path Hp. now rewrite Hlog. }
    rewrite Hl. reflexivity.
  - rewrite commit_count_closed, flat_map_nil; [reflexivity|].
    intros path Hp. now rewrite Hlog.
  - exists (fold_left (fun words word => <[word := 0]> words) wordlist ∅). split.
    + apply words_without_messages. intros path Hp. now rewrite Hlog.
    + intros w Hw. now rewrite init_words_lookup, decide_True.
  - unfold get_statistics. cbv zeta. rewrite Hemails. reflexivity.
Qed.

(** ** The number column *)

Example d9_example :
  Str.of_chars (Format.d9 7) = "        7" /\
  Str.of_chars (Format.d9 1234) = "    1,234" /\
  Str.of_chars (Format.d9 1234567) = "1,234,567" /\
  Str.of_chars (Format.d9 12345678) = "12,345,678" /\
  Str.of_chars (Format.d9 (-1234)) = "   -1,234" /\
  Format.row 42 "a@x.com" = "       42   a@x.com".
Proof. vm_compute. repeat split. Qed.

Module FormatFacts.
Import Format.

Lemma digit_value_digit d : 0 <= d < 10 -> Char.digit_value (digit d) = d.
Proof.
  intros Hd. unfold Char.digit_value, Char.code, digit.
  rewrite nat_ascii_embedding by lia. lia.
Qed.

Lemma digit_is_digit d : 0 <= d < 10 -> Char.is_digit (digit d) = true.
Proof.
  intros Hd. unfold Char.is_digit, Char.between, Char.code, digit.
  rewrite nat_ascii_embedding by lia.
  apply andb_true_intro. split; apply Nat.leb_le; lia.
Qed.

Lemma digits_low_value fuel : forall n,
  0 <= n < 2 ^ Z.of_nat fuel -> value_low (digits_low fuel n) = n.
Proof.
  induction fuel as [|fuel IH]; intros n Hn.
  - simpl in *. lia.
  - cbn [digits_low value_low fold_right].
    rewrite digit_value_digit by (apply Z.mod_pos_bound; lia).
    destruct (n <? 10) eqn:E.
    + apply Z.ltb_lt in E. change (fold_right _ 0 []) with 0.
      rewrite Z.mod_small by lia. lia.
    + apply Z.ltb_ge in E. fold (value_low (digits_low fuel (n / 10))).
      rewrite IH.
      * pose proof (Z.div_mod n 10). lia.
      * rewrite Nat2Z.inj_succ, Z.pow_succ_r in Hn by lia. split.
        -- apply Z.div_pos; lia.
        -- apply Z.div_lt_upper_bound; lia.
Qed.

Lemma enough_fuel n : 0 <= n -> n < 2 ^ Z.of_nat (S (Z.to_nat (Z.log2 n))).
Proof.
  intros Hn. rewrite Nat2Z.inj_succ, Z2Nat.id by apply Z.log2_nonneg.
  destruct (Z.eq_dec n 0) as [-> | Hne]; [reflexivity|].
  apply Z.log2_spec. lia.
Qed.

Lemma digits_value n : 0 <= n -> value_low (digits n) = n.
Proof. intros Hn. apply digits_low_value. split; [exact Hn | now apply enough_fuel]. Qed.

Lemma digits_low_Forall fuel : forall n,
  0 <= n -> Forall (fun c => Char.is_digit c = true) (digits_low fuel n).
Proof.
  induction fuel as [|fuel IH]; intros n Hn; [constructor|].
  cbn [digits_low]. constructor.
  - apply digit_is_digit, Z.mod_pos_bound. lia.
  - destruct (n <? 10); [constructor|]. apply IH, Z.div_pos; lia.
Qed.

Lemma digits_low_length fuel : forall n k,
  0 <= n < 2 ^ Z.of_nat fuel ->
  (length (digits_low fuel n) <= S k)%nat <-> n < 10 ^ Z.of_nat (S k).
Proof.
  induction fuel as [|fuel IH]; intros n k Hn.
  - simpl in Hn. simpl length. split; [intros _ | lia].
    assert (0 < 10 ^ Z.of_nat (S k)) by (apply Z.pow_pos_nonneg; lia). lia.
  - cbn [digits_low length]. destruct (n <? 10) eqn:E.
    + apply Z.ltb_lt in E. simpl length. split; [intros _|lia].
      assert (10 ^ 1 <= 10 ^ Z.of_nat (S k)) by (apply Z.pow_le_mono_r; lia). lia.
    + apply Z.ltb_ge in E.
      assert (Hd : 0 <= n / 10 < 2 ^ Z.of_nat fuel).
      { rewrite Nat2Z.inj_succ, Z.pow_succ_r in Hn by lia. split.
        - apply Z.div_pos; lia.
        - apply Z.div_lt_upper_bound; lia. }
      destruct k as [|k].
      * split; [|simpl; lia]. intros Hl. exfalso.
        destruct fuel as [|fuel']; [simpl in Hd; lia|].
        cbn [digits_low length] in Hl. lia.
      * rewrite <- Nat.succ_le_mono, (IH (n / 10) k Hd).
        rewrite (Nat2Z.inj_succ (S k)), Z.pow_succ_r by lia.
        pose proof (Z.div_mod n 10). pose proof (Z.mod_pos_bound n 10).
        split; intros Hlt.
        -- lia.
        -- apply Z.div_lt_upper_bound; lia.
Qed.

Lemma digits_length n k :
  0 <= n -> (length (digits n) <= S k)%nat <-> n < 10 ^ Z.of_nat (S k).
Proof.
  intros Hn. apply digits_low_length. split; [exact Hn | now apply enough_fuel].
Qed.

Lemma group3_length : forall l,
  length (group3 l) = (length l + (length l - 1) / 3)%nat.
Proof.
  assert (H : forall n l, (length l <= n)%nat ->
            length (group3 l) = (length l + (length l - 1) / 3)%nat).
  { induction n as [|n IH]; intros l Hl.
    - destruct l; [reflexivity | simpl in Hl; lia].
    - destruct l as [|a [|b [|c [|d l]]]]; try reflexivity.
      change (group3 (a :: b :: c :: d :: l))
        with (a :: b :: c :: ","%char :: group3 (d :: l)).
      cbn [length] in *. rewrite IH by (cbn [length]; lia). cbn [length].
      replace (S (S (S (S (length l)))) - 1)%nat with (S (length l) - 1 + 1 * 3)%nat by lia.
      rewrite Nat.div_add by lia. lia. }
  intros l. now apply (H (length l)).
Qed.

Lemma decimal_rev l : Str.decimal (rev l) = value_low l.
Proof.
  unfold Str.decimal, value_low.
  rewrite <- (rev_involutive l) at 2. rewrite fold_left_rev_right. reflexivity.
Qed.

Lemma digit_kept c : Char.is_digit c = true -> kept c /\ Ascii.eqb c "-" = false.
Proof.
  intros H. unfold kept. repeat split.
  - intros ->. discriminate.
  - intros ->. discriminate.
  - destruct (Ascii.eqb_spec c "-") as [-> |]; [discriminate | reflexivity].
Qed.

Lemma group3_filter : forall l,
  Forall (fun c => Char.is_digit c = true) l -> filter kept (group3 l) = l.
Proof.
  assert (H : forall n l, (length l <= n)%nat ->
            Forall (fun c => Char.is_digit c = true) l -> filter kept (group3 l) = l).
  { induction n as [|n IH]; intros l Hl Hd.
    - destruct l; [reflexivity | simpl in Hl; lia].
    - assert (Hk : filter kept l = l).
      { clear Hl. induction Hd as [|c l Hc _ IHd]; [reflexivity|].
        rewrite filter_cons, IHd. destruct (digit_kept c Hc) as [Hc' _].
        now rewrite decide_True. }
      destruct l as [|a [|b [|c [|d l]]]]; try exact Hk.
      change (group3 (a :: b :: c :: d :: l))
        with (a :: b :: c :: ","%char :: group3 (d :: l)).
      inversion Hd as [|? ? Ha Hd1]; subst. inversion Hd1 as [|? ? Hb Hd2]; subst.
      inversion Hd2 as [|? ? Hc Hd3]; subst.
      rewrite !filter_cons.
      rewrite (decide_True _ _ (proj1 (digit_kept a Ha))).
      rewrite (decide_True _ _ (proj1 (digit_kept b Hb))).
      rewrite (decide_True _ _ (proj1 (digit_kept c Hc))).
      rewrite decide_False by (unfold kept; tauto).
      rewrite IH; [reflexivity | cbn [length] in *; lia | exact Hd3]. }
  intros l. now apply (H (length l)).
Qed.

Lemma group3_lookup : forall l,
  Forall (fun c => Char.is_digit c = true) l ->
  forall i c, group3 l !! i = Some c ->
    if decide (i mod 4 = 3)%nat then c = ","%char else Char.is_digit c = true.
Proof.
  assert (H : forall n l, (length l <= n)%nat ->
            Forall (fun c => Char.is_digit c = true) l ->
            forall i c, group3 l !! i = Some c ->
              if decide (i mod 4 = 3)%nat then c = ","%char else Char.is_digit c = true).
  { induction n as [|n IH]; intros l Hl Hd i x Hi.
    - destruct l; [inversion Hi | simpl in Hl; lia].
    - assert (Hshort : (length l <= 3)%nat -> group3 l = l).
      { destruct l as [|a [|b [|c [|d l]]]]; try reflexivity. cbn [length]. lia. }
      destruct (le_lt_dec (length l) 3) as [Hs | Hs].
      + rewrite (Hshort Hs) in Hi. apply lookup_lt_Some in Hi as Hlt.
        rewrite decide_False.
        * rewrite Forall_forall in Hd. eapply Hd, list_elem_of_lookup_2, Hi.
        * rewrite Nat.mod_small by lia. lia.
      + destruct l as [|a [|b [|c [|d l]]]]; try (cbn [length] in Hs; lia).
        change (group3 (a :: b :: c :: d :: l))
          with (a :: b :: c :: ","%char :: group3 (d :: l)) in Hi.
        inversion Hd as [|? ? Ha Hd1]; subst. inversion Hd1 as [|? ? Hb Hd2]; subst.
        inversion Hd2 as [|? ? Hc Hd3]; subst.
        destruct i as [|[|[|[|i]]]]; cbn in Hi.
        * injection Hi as <-. exact Ha.
        * injection Hi as <-. exact Hb.
        * injection Hi as <-. exact Hc.
        * injection Hi as <-. reflexivity.
        * replace (S (S (S (S i))) mod 4)%nat with (i mod 4)%nat
            by (replace (S (S (S (S i)))) with (i + 1 * 4)%nat by lia;
                now rewrite Nat.Div0.mod_add).
          apply (IH (d :: l)); [cbn [length] in *; lia | exact Hd3 | exact Hi]. }
  intros l. now apply (H (length l)).
Qed.

Lemma digits_nonempty n : (1 <= length (digits n))%nat.
Proof. unfold digits. cbn [digits_low length]. lia. Qed.

Lemma digits_Forall n : 0 <= n -> Forall (fun c => Char.is_digit c = true) (digits n).
Proof. apply digits_low_Forall. Qed.

Lemma comma_d_length n :
  (length (comma_d n) <= 9)%nat <-> -1000000 < n < 10000000.
Proof.
  unfold comma_d. rewrite length_app, length_rev, group3_length.
  pose proof (digits_nonempty (Z.abs n)) as H1.
  assert (Hg : forall len k, (1 <= len)%nat ->
            (len + (len - 1) / 3 <= k + (k - 1) / 3)%nat <-> (len <= k)%nat).
  { intros len k _. split; intros Hle.
    - destruct (le_lt_dec len k) as [|Hlt]; [assumption|]. exfalso.
      assert (((k - 1) / 3 <= (len - 1) / 3)%nat) by (apply Nat.Div0.div_le_mono; lia).
      lia.
    - assert (((len - 1) / 3 <= (k - 1) / 3)%nat) by (apply Nat.Div0.div_le_mono; lia).
      lia. }
  destruct (n <? 0) eqn:E.
  - apply Z.ltb_lt in E. cbn [length].
    pose proof (digits_length (Z.abs n) 5 ltac:(lia)) as Hd.
    pose proof (Hg (length (digits (Z.abs n))) 6%nat H1) as Hg6.
    change (6 + (6 - 1) / 3)%nat with 7%nat in Hg6.
    change (10 ^ Z.of_nat 6) with 1000000 in Hd.
    assert (Hs : forall x, (x <= 7 <-> x <= 8)%nat \/ x = 8%nat) by (intros; lia).
    set (g := (length (digits (Z.abs n)) + (length (digits (Z.abs n)) - 1) / 3)%nat) in *.
    assert (g <> 8%nat).
    { unfold g. intros Hc.
      destruct (length (digits (Z.abs n))) as [|[|[|[|[|[|[|[|x]]]]]]]] eqn:El;
        try (vm_compute in Hc; discriminate).
      assert (((8 - 1) / 3 <= (S (S (S (S (S (S (S (S x))))))) - 1) / 3)%nat)
        by (apply Nat.Div0.div_le_mono; lia).
      change ((8 - 1) / 3)%nat with 2%nat in *. lia. }
    lia.
  - apply Z.ltb_ge in E. cbn [length].
    pose proof (digits_length (Z.abs n) 6 ltac:(lia)) as Hd.
    pose proof (Hg (length (digits (Z.abs n))) 7%nat H1) as Hg7.
    change (7 + (7 - 1) / 3)%nat with 9%nat in Hg7.
    change (10 ^ Z.of_nat 7) with 10000000 in Hd. lia.
Qed.

Lemma d9_length n : length (d9 n) = Nat.max 9 (length (comma_d n)).
Proof. unfold d9. rewrite length_app, length_replicate. lia. Qed.

Lemma read_d9 n : read (d9 n) = n.
Proof.
  unfold read, d9, comma_d. rewrite !filter_app.
  assert (Hsp : forall k, filter kept (replicate k " "%char) = []).
  { induction k as [|k IH]; [reflexivity|]. cbn [replicate].
    rewrite filter_cons, IH. rewrite decide_False by (unfold kept; tauto). reflexivity. }
  rewrite Hsp. cbn [app].
  pose proof (digits_Forall (Z.abs n) ltac:(lia)) as Hd.
  assert (Hr : filter kept (rev (group3 (digits (Z.abs n)))) = rev (digits (Z.abs n))).
  { rewrite <- (group3_filter _ Hd) at 2.
    generalize (group3 (digits (Z.abs n))). intros l.
    induction l as [|c l IH]; [reflexivity|]. cbn [rev].
    rewrite filter_app, IH, !filter_cons, filter_nil.
    destruct (decide (kept c)); [reflexivity | now rewrite app_nil_r]. }
  rewrite Hr. destruct (n <? 0) eqn:E.
  - apply Z.ltb_lt in E. rewrite filter_cons, filter_nil.
    rewrite decide_True by (unfold kept; split; discriminate). cbn [app].
    change (Ascii.eqb "-" "-") with true. cbv iota.
    rewrite decimal_rev, digits_value by lia. lia.
  - apply Z.ltb_ge in E. rewrite filter_nil. cbn [app].
    destruct (rev (digits (Z.abs n))) as [|c ds] eqn:El.
    + apply (f_equal (@length ascii)) in El. rewrite length_rev in El.
      pose proof (digits_nonempty (Z.abs n)). simpl in El. lia.
    + assert (Hc : Char.is_digit c = true).
      { rewrite Forall_forall in Hd. apply Hd. apply list_elem_of_In, in_rev, list_elem_of_In. rewrite El.
        apply elem_of_cons. auto. }
      rewrite (proj2 (digit_kept c Hc)), <- El, decimal_rev, digits_value by lia. lia.
Qed.

End FormatFacts.

Lemma chars_append s1 s2 : Str.chars (s1 +:+ s2) = Str.chars s1 ++ Str.chars s2.
Proof.
  induction s1 as [|c s1 IH]; [reflexivity|].
  change (String c s1 +:+ s2) with (String c (s1 +:+ s2)).
  unfold Str.chars in *. cbn [list_ascii_of_string app]. now rewrite IH.
Qed.

(** Property X13.  A row is the number column, three blanks and the email.
    The number column is at least 9 characters wide, and exactly 9, so that
    the emails of a section line up, for the numbers between -1,000,000 and
    10,000,000. *)
Theorem number_column_width n email :
  Str.chars (Format.row n email) =
    Format.d9 n ++ Str.chars "   " ++ Str.chars email /\
  (9 <= length (Format.d9 n))%nat /\
  (length (Format.d9 n) = 9%nat <-> -1000000 < n < 10000000).
Proof.
  split; [|split].
  - unfold Format.row. now rewrite !chars_append, chars_of_chars.
  - rewrite FormatFacts.d9_length. lia.
  - rewrite FormatFacts.d9_length, <- FormatFacts.comma_d_length. lia.
Qed.

(** Property X14.  The number column reads back as the number it was
    printed from, so different numbers are printed differently; and in the
    column of a number from 0 on, counted from the right, every fourth
    character is a comma and the others are digits. *)
Theorem number_column_reads_back n :
  Format.read (Format.d9 n) = n /\
  (forall m, Format.d9 n = Format.d9 m -> n = m) /\
  (0 <= n ->
   forall i c, rev (Format.comma_d n) !! i = Some c ->
     if decide (i mod 4 = 3)%nat then c = ","%char else Char.is_digit c = true).
Proof.
  split; [apply FormatFacts.read_d9 | split].
  - intros m E. rewrite <- (FormatFacts.read_d9 n), <- (FormatFacts.read_d9 m).
    now rewrite E.
  - intros Hn i c. unfold Format.comma_d.
    destruct (n <? 0) eqn:E; [apply Z.ltb_lt in E; lia|].
    cbn [app]. rewrite rev_involutive.
    apply FormatFacts.group3_lookup, FormatFacts.digits_Forall. lia.
Qed.

(** ** The pattern of [clone] *)

Module SearchFacts.

Lemma search_run_correct (p : Search.pattern) : forall st k,
  (forall m, Search.run p st k = Some m ->
     exists st', SearchSem.leads p st st' /\ k st' = Some m) /\
  (Search.run p st k = None -> forall st', SearchSem.leads p st st' -> k st' = None).
Proof.
  induction p as [r | | set | p1 IH1 p2 IH2 | n p1 IH1 | p1 IH1 | p1 IH1];
    intros st k; simpl.
  - apply ReFacts.run_correct.
  - destruct (seen st) eqn:Es; split.
    + intros m H. exists st. auto.
    + intros H st' [_ ->]. exact H.
    + discriminate.
    + intros _ st' [? _]. discriminate.
  - destruct (step st) as [[c st1]|] eqn:Hs.
    + destruct (Search.in_set set c) eqn:Ha; split.
      * intros m H. exists st1. split; [exists c; auto | exact H].
      * intros H st' (c' & Hc' & _). congruence.
      * discriminate.
      * intros _ st' (c' & Hc' & Ha'). congruence.
    + split; [discriminate | intros _ st' (c' & Hc' & _); discriminate].
  - split.
    + intros m H. apply IH1 in H as (st1 & H1 & H).
      apply IH2 in H as (st' & H2 & H). exists st'. split; [exists st1; auto | exact H].
    + intros H st' (st1 & H1 & H2).
      pose proof (proj2 (IH1 st _) H st1 H1) as H'. simpl in H'.
      exact (proj2 (IH2 st1 k) H' st' H2).
  - split.
    + intros m H. apply IH1 in H as (st1 & H1 & H).
      exists (capture n st st1). split; [exists st1; auto | exact H].
    + intros H st' (st1 & H1 & ->). exact (proj2 (IH1 st _) H st1 H1).
  - assert (Hfuel : (length (rest st) <= length (rest st))%nat) by lia.
    revert Hfuel. generalize (length (rest st)) at 2 3 4 as fuel.
    intros fuel. revert st.
    induction fuel as [|fuel IHf]; intros st Hfuel.
    + split.
      * intros m H. exists st. split; [apply rtc_refl | exact H].
      * intros H st' Hr. destruct Hr as [|a b c [_ Hs] _]; [exact H|].
        unfold shorter in Hs. lia.
    + match goal with
      | |- context [Search.run p1 st ?k1] => set (k' := k1)
      end.
      destruct (Search.run p1 st k') as [m1|] eqn:E1; split.
      * intros m [= <-]. apply IH1 in E1 as (st1 & H1 & Hk). unfold k' in Hk.
        destruct (length (rest st1) <? length (rest st))%nat eqn:Hlt; [|discriminate].
        apply Nat.ltb_lt in Hlt.
        apply IHf in Hk as (st' & Hr & Hk); [|lia].
        exists st'. split; [|exact Hk].
        eapply rtc_l; [split; [exact H1 | exact Hlt] | exact Hr].
      * discriminate.
      * intros m H. exists st. split; [apply rtc_refl | exact H].
      * intros H st' Hr. destruct Hr as [|a b c [H1 Hs] Hr]; [exact H|].
        pose proof (proj2 (IH1 a k') E1 b H1) as Hk. unfold k' in Hk.
        unfold shorter in Hs. apply Nat.ltb_lt in Hs as Hs'. rewrite Hs' in Hk.
        refine (proj2 (IHf b _) Hk c Hr). lia.
  - assert (Hfuel : (length (rest st) <= length (rest st))%nat) by lia.
    revert Hfuel. generalize (length (rest st)) at 2 3 4 as fuel.
    intros fuel. revert st.
    induction fuel as [|fuel IHf]; intros st Hfuel.
    + destruct (k st) as [m0|] eqn:Ek; split.
      * intros m [= <-]. exists st. split; [apply rtc_refl | exact Ek].
      * discriminate.
      * discriminate.
      * intros _ st' Hr. destruct Hr as [|a b c [_ Hs] _]; [exact Ek|].
        unfold shorter in Hs. lia.
    + destruct (k st) as [m0|] eqn:Ek; split.
      * intros m [= <-]. exists st. split; [apply rtc_refl | exact Ek].
      * discriminate.
      * intros m H. apply IH1 in H as (st1 & H1 & Hk).
        destruct (length (rest st1) <? length (rest st))%nat eqn:Hlt; [|discriminate].
        apply Nat.ltb_lt in Hlt.
        apply IHf in Hk as (st' & Hr & Hk); [|lia].
        exists st'. split; [|exact Hk].
        eapply rtc_l; [split; [exact H1 | exact Hlt] | exact Hr].
      * intros H st' Hr. destruct Hr as [|a b c [H1 Hs] Hr]; [exact Ek|].
        pose proof (proj2 (IH1 a _) H b H1) as Hk. cbv beta in Hk.
        unfold shorter in Hs. apply Nat.ltb_lt in Hs as Hs'. rewrite Hs' in Hk.
        refine (proj2 (IHf b _) Hk c Hr). lia.
Qed.

Lemma leads_many_set set st st' :
  SearchSem.leads (Search.Many (Search.OneOf set)) st st' <->
  exists t, moves st t st' /\ Forall (fun c => Search.in_set set c = true) t.
Proof.
  simpl. split.
  - induction 1 as [st | a b c [(x & Hs & Ha) _] _ (t & Hm & Ht)].
    + exists []. split; [apply moves_nil | constructor].
    + exists (x :: t). split; [|constructor; auto].
      apply step_moves in Hs. apply (moves_app _ [x] _ _ _ Hs Hm).
  - intros (t & Hm & Ht). revert st Hm. induction Ht as [|x t Hx Ht IH]; intros st Hm.
    + apply moves_inv in Hm as ->. apply rtc_refl.
    + set (st1 := MState (x :: seen st) (t ++ rest st') (caps st)).
      assert (Hs : step st = Some (x, st1)).
      { unfold step. destruct Hm as (-> & _). reflexivity. }
      apply rtc_l with st1.
      * split; [exists x; auto|]. unfold shorter, st1. simpl.
        destruct Hm as (-> & _). simpl. lia.
      * apply IH. destruct Hm as (R & S & C). repeat split; simpl; auto.
        rewrite S. simpl. now rewrite <- app_assoc.
Qed.

Lemma leads_many1_set set st st' :
  SearchSem.leads (Search.Many1 (Search.OneOf set)) st st' <->
  exists t, moves st t st' /\ Forall (fun c => Search.in_set set c = true) t /\ t <> [].
Proof.
  unfold Search.Many1.
  change (SearchSem.leads (Search.Seq ?a ?b) st st') with
    (exists st1, SearchSem.leads a st st1 /\ SearchSem.leads b st1 st'). split.
  - intros (st1 & (x & Hs & Ha) & H). apply leads_many_set in H as (t & Hm & Ht).
    exists (x :: t). split; [|split; [constructor; auto | discriminate]].
    apply step_moves in Hs. apply (moves_app _ [x] _ _ _ Hs Hm).
  - intros (t & Hm & Ht & Hne). destruct t as [|x t]; [congruence|].
    inversion Ht as [|? ? Hx Ht']; subst.
    set (st1 := MState (x :: seen st) (t ++ rest st') (caps st)).
    exists st1. split.
    + exists x. split; [|exact Hx]. unfold step. destruct Hm as (-> & _). reflexivity.
    + apply leads_many_set. exists t. split; [|exact Ht'].
      destruct Hm as (R & S & C). repeat split; simpl; auto.
      rewrite S. simpl. now rewrite <- app_assoc.
Qed.

Lemma leads_few1_dot st st' :
  SearchSem.leads (Search.Few1 (Search.Plain (Item Dot))) st st' <->
  exists t, moves st t st' /\ Forall (fun c => accepts Dot c = true) t /\ t <> [].
Proof. apply (leads_plus_items Dot). Qed.

Lemma slash_only c : Char.eq_icase "/" c = true -> c = "/"%char.
Proof.
  destruct c as [[] [] [] [] [] [] [] []]; vm_compute; intros H;
    first [reflexivity | discriminate].
Qed.

Lemma LF_only c : Char.is_LF c = true -> c = ascii_of_nat 10.
Proof.
  destruct c as [[] [] [] [] [] [] [] []]; vm_compute; intros H;
    first [reflexivity | discriminate].
Qed.

Lemma scan_anchored q : forall ahead behind,
  behind <> [] -> Search.scan (Search.Seq Search.StartOfString q) behind ahead = None.
Proof.
  intros ahead. induction ahead as [|c ahead IH]; intros behind Hs;
    (destruct behind as [|x behind]; [congruence|]);
    cbn [Search.scan Search.run Re.seen].
  - reflexivity.
  - apply IH. discriminate.
Qed.

Lemma search_anchored q s :
  Search.search (Search.Seq Search.StartOfString q) s =
  Search.run (Search.Seq Search.StartOfString q) (start s) Some.
Proof.
  unfold Search.search, start. destruct (Str.chars s) as [|c rest];
    cbn [Search.scan]; destruct (Search.run _ _ Some); try reflexivity.
  now apply scan_anchored.
Qed.

(** The end state of a match of the pattern gives the name. *)
Lemma repo_name_sound git_url m :
  SearchSem.leads repo_name_pattern (start git_url) m ->
  exists name, group m 1 = Some name /\ names git_url name.
Proof.
  unfold repo_name_pattern.
  intros (sta & [_ ->] & stb & Hpre & stc & Hslash & ste & Hname & stg & Hgit & Hend).
  apply leads_few1_dot in Hpre as (pre & Mpre & Fpre & Npre).
  destruct Hslash as (c & Hc & Ac). apply slash_only in Ac as ->.
  apply step_moves in Hc.
  destruct Hname as (std & Hname & ->).
  apply leads_many1_set in Hname as (nm & Mnm & Fnm & Nnm).
  destruct Hgit as (stf & Hgit & ->).
  apply leads_text in Hgit as (ext & Mext & Sext).
  destruct Hend as [Hend ->].
  exists (Str.of_chars nm). split.
  - unfold group, capture; cbn [caps].
    rewrite lookup_insert_ne by discriminate.
    destruct Mext as (_ & _ & ->). unfold capture. cbn [caps]. rewrite lookup_insert_eq.
    cbn. now rewrite (moves_consumed _ _ _ Mnm).
  - exists pre, ext, (rest stf). rewrite chars_of_chars.
    destruct Mpre as (R1 & _), Hc as (R2 & _), Mnm as (R3 & _), Mext as (R4 & _).
    cbn [capture rest] in *.
    split; [|split; [exact Npre | split; [|split; [exact Nnm | split; [exact Fnm | split; [exact Sext|]]]]]].
    + change (Str.chars git_url) with (rest (start git_url)).
      rewrite R1, R2, R3, R4. reflexivity.
    + eapply Forall_impl; [exact Fpre|]. intros x Hx.
      unfold accepts in Hx. now apply negb_true_iff in Hx.
    + unfold at_end, capture in Hend. cbn [rest] in Hend.
      destruct (rest stf) as [|x [|y l]]; [auto | right; eauto | discriminate].
Qed.

Lemma repo_name_complete git_url name :
  names git_url name -> exists st', SearchSem.leads repo_name_pattern (start git_url) st'.
Proof.
  intros (pre & ext & nl & E & Npre & Fpre & Nnm & Fnm & Sext & Hnl).
  set (nm := Str.chars name) in *.
  set (st0 := start git_url).
  set (stb := jump st0 pre ("/"%char :: nm ++ ext ++ nl)).
  set (stc := jump stb ["/"%char] (nm ++ ext ++ nl)).
  set (std := jump stc nm (ext ++ nl)).
  set (ste := capture 1 stc std).
  set (stf := jump ste ext nl).
  set (stg := capture 2 ste stf).
  exists stg. unfold repo_name_pattern.
  exists st0. split; [split; reflexivity|].
  exists stb. split.
  { apply leads_few1_dot. exists pre. split; [apply moves_jump; exact E|].
    split; [|exact Npre]. eapply Forall_impl; [exact Fpre|].
    intros x Hx. unfold accepts. now rewrite Hx. }
  exists stc. split.
  { exists "/"%char. split; [reflexivity | reflexivity]. }
  exists ste. split.
  { exists std. split; [|reflexivity]. apply leads_many1_set. exists nm.
    split; [apply moves_jump; reflexivity | split; assumption]. }
  exists stg. split.
  { exists stf. split; [|reflexivity]. apply leads_text. exists ext.
    split; [apply moves_jump; reflexivity | exact Sext]. }
  split; [|reflexivity]. unfold at_end. cbn [stg capture rest stf jump].
  destruct Hnl as [-> | (c & -> & Hc)]; [reflexivity | exact Hc].
Qed.

Lemma split_at_last {A} (x : A) : forall a1 a2 b1 b2,
  a1 ++ x :: b1 = a2 ++ x :: b2 -> x ∉ b1 -> x ∉ b2 -> a1 = a2 /\ b1 = b2.
Proof.
  induction a1 as [|y a1 IH]; intros a2 b1 b2 E H1 H2.
  - destruct a2 as [|z a2]; [injection E as ->; auto|].
    injection E as -> ->. destruct H1. apply elem_of_app. right. apply elem_of_cons. auto.
  - destruct a2 as [|z a2].
    + injection E as -> <-. destruct H2. apply elem_of_app. right. apply elem_of_cons. auto.
    + injection E as -> E. destruct (IH a2 b1 b2 E H1 H2) as [-> ->]. auto.
Qed.

Lemma name_no_slash c : Search.in_set name_set c = true -> c <> "/"%char.
Proof. intros H ->. vm_compute in H. discriminate. Qed.

Lemma name_no_LF c : Search.in_set name_set c = true -> Char.is_LF c = false.
Proof.
  intros H. destruct (Char.is_LF c) eqn:E; [|reflexivity].
  apply LF_only in E as ->. vm_compute in H. discriminate.
Qed.

Lemma dot_git ext :
  Spec.same_text (Str.chars ".git") ext ->
  length ext = 4%nat /\ ("/"%char ∉ ext) /\
  exists ext' c, ext = ext' ++ [c] /\ Char.is_LF c = false.
Proof.
  intros H. unfold Spec.same_text in H. cbn in H.
  inversion H as [|? e1 ? l1 H1 T1]; subst. inversion T1 as [|? e2 ? l2 H2 T2]; subst.
  inversion T2 as [|? e3 ? l3 H3 T3]; subst. inversion T3 as [|? e4 ? l4 H4 T4]; subst.
  inversion T4; subst. split; [reflexivity|]. split.
  - intros Hin. repeat (apply elem_of_cons in Hin as [<- | Hin]);
      try (vm_compute in H1; discriminate); try (vm_compute in H2; discriminate);
      try (vm_compute in H3; discriminate); try (vm_compute in H4; discriminate).
    inversion Hin.
  - exists [e1; e2; e3], e4. split; [reflexivity|].
    destruct (Char.is_LF e4) eqn:E; [|reflexivity].
    apply LF_only in E as ->. vm_compute in H4. discriminate.
Qed.

Lemma names_unique git_url n1 n2 : names git_url n1 -> names git_url n2 -> n1 = n2.
Proof.
  intros (pre1 & ext1 & nl1 & E1 & _ & _ & _ & F1 & S1 & L1)
         (pre2 & ext2 & nl2 & E2 & _ & _ & _ & F2 & S2 & L2).
  destruct (dot_git ext1 S1) as (Len1 & Ns1 & x1 & c1 & -> & Hc1).
  destruct (dot_git ext2 S2) as (Len2 & Ns2 & x2 & c2 & -> & Hc2).
  assert (Hno : forall nm (ext nl : list ascii),
            Forall (fun c => Search.in_set name_set c = true) nm ->
            ("/"%char ∉ ext) ->
            (nl = [] \/ exists c, nl = [c] /\ Char.is_LF c = true) ->
            ("/"%char ∉ nm ++ ext ++ nl)).
  { intros nm ext nl F Ne L Hin. rewrite !elem_of_app in Hin.
    destruct Hin as [Hin | [Hin | Hin]].
    - rewrite Forall_forall in F. now apply (name_no_slash _ (F _ Hin)).
    - contradiction.
    - destruct L as [-> | (c & -> & Hc)]; [inversion Hin|].
      apply list_elem_of_singleton in Hin as <-. vm_compute in Hc. discriminate. }
  rewrite E1 in E2.
  apply split_at_last in E2 as [_ E]; [|now apply Hno | now apply Hno].
  assert (Hnl : nl1 = nl2 /\ Str.chars n1 ++ x1 ++ [c1] = Str.chars n2 ++ x2 ++ [c2]).
  { rewrite !app_assoc in E.
    destruct L1 as [-> | (d1 & -> & Hd1)], L2 as [-> | (d2 & -> & Hd2)].
    - rewrite !app_nil_r in E. rewrite <- !app_assoc in E. auto.
    - rewrite app_nil_r in E. apply app_inj_tail in E as [_ ->]. congruence.
    - rewrite app_nil_r in E. symmetry in E. apply app_inj_tail in E as [_ ->]. congruence.
    - apply app_inj_tail in E as [E ->]. rewrite <- !app_assoc in E. auto. }
  destruct Hnl as [_ E'].
  apply app_inj_2 in E' as [E' _]; [|congruence].
  unfold Str.chars in E'. rewrite <- (string_of_list_ascii_of_string n1),
    <- (string_of_list_ascii_of_string n2). now rewrite E'.
Qed.

(** What the search of [clone] finds. *)
Lemma search_names git_url :
  (Search.search repo_name_pattern git_url = None /\ forall name, ~ names git_url name) \/
  (exists m name, Search.search repo_name_pattern git_url = Some m /\
                  group m 1 = Some name /\ names git_url name).
Proof.
  unfold repo_name_pattern at 1 2. rewrite search_anchored. fold repo_name_pattern.
  destruct (Search.run repo_name_pattern (start git_url) Some) as [m|] eqn:E.
  - right. apply (proj1 (search_run_correct _ _ _)) in E as (st' & Hl & [= ->]).
    destruct (repo_name_sound git_url m Hl) as (name & Hg & Hn). eauto.
  - left. split; [reflexivity|]. intros name Hn.
    destruct (repo_name_complete git_url name Hn) as (st' & Hl).
    pose proof (proj2 (search_run_correct _ _ _) E st' Hl). discriminate.
Qed.

End SearchFacts.

(** ** Paths and [clone] *)

Lemma of_chars_app a b : Str.of_chars (a ++ b) = Str.of_chars a +:+ Str.of_chars b.
Proof.
  induction a as [|c a IH]; [reflexivity|].
  cbn [app]. unfold Str.of_chars in *. cbn [string_of_list_ascii].
  rewrite IH. reflexivity.
Qed.

Lemma ends_with_sep_split p :
  ends_with_sep p = true -> exists d, p = d +:+ "/".
Proof.
  unfold ends_with_sep. destruct (rev (Str.chars p)) as [|c l] eqn:E; [discriminate|].
  intros Hc. apply Ascii.eqb_eq in Hc as ->.
  exists (Str.of_chars (rev l)).
  assert (Hp : Str.chars p = rev l ++ ["/"%char]).
  { rewrite <- (rev_involutive (Str.chars p)), E. reflexivity. }
  unfold Str.chars in Hp. rewrite <- (string_of_list_ascii_of_string p), Hp.
  apply of_chars_app.
Qed.

Lemma append_assoc (a b c : string) : (a +:+ b) +:+ c = a +:+ (b +:+ c).
Proof.
  induction a as [|x a IH]; [reflexivity|].
  change (String x a +:+ b) with (String x (a +:+ b)).
  change (String x (a +:+ b) +:+ c) with (String x ((a +:+ b) +:+ c)).
  now rewrite IH.
Qed.

Lemma starts_with_sep_append a b :
  starts_with_sep a = true -> starts_with_sep (a +:+ b) = true.
Proof. destruct a; [discriminate | exact id]. Qed.

Lemma name_starts name :
  Str.chars name <> [] ->
  Forall (fun c => Search.in_set name_set c = true) (Str.chars name) ->
  starts_with_sep name = false.
Proof.
  destruct name as [|c name]; [intros H; now destruct H|]. intros _ H.
  inversion H as [|? ? Hc _]; subst. cbn.
  destruct (Ascii.eqb_spec c "/") as [-> |]; [|reflexivity].
  vm_compute in Hc. discriminate.
Qed.

(** The local path of a repository: absolute, its last component the
    name. *)
Lemma repo_path_shape tmp_dir name :
  starts_with_sep name = false ->
  let repo_path := path_join "/" [tmp_dir; name] in
  starts_with_sep repo_path = true /\ exists dir, repo_path = dir +:+ "/" +:+ name.
Proof.
  intros Hn. unfold path_join. cbn [fold_left].
  set (p := join_step "/" tmp_dir).
  assert (Hp : starts_with_sep p = true).
  { unfold p, join_step. destruct (starts_with_sep tmp_dir) eqn:E; [exact E|].
    reflexivity. }
  assert (Hne : String.eqb p EmptyString = false).
  { destruct p; [discriminate | reflexivity]. }
  unfold join_step. rewrite Hn, Hne. cbn [orb].
  destruct (ends_with_sep p) eqn:E.
  - split; [now apply starts_with_sep_append|].
    destruct (ends_with_sep_split p E) as (d & ->). exists d. apply append_assoc.
  - split; [now apply starts_with_sep_append|]. exists p. reflexivity.
Qed.

Section CloneFacts.

Variable world : Type.
Variable opens : world -> string -> bool.
Variable has_origin : world -> string -> bool.
Variable fetch : world -> string -> bool * world.
Variable clone_from : world -> string -> string -> bool * world.

(** [clone] on a URL whose name is known. *)
Lemma clone_named git_url name tmp_dir init w :
  names git_url name ->
  clone opens has_origin fetch clone_from git_url tmp_dir init w =
  let repo_path := path_join "/" [tmp_dir; name] in
  if negb init then Reply w [] (Returns repo_path)
  else
    if opens w repo_path && negb (has_origin w repo_path)
    then Reply w [(Stdout, "Updating: " +:+ repo_path)]
           (Fails (AttributeError "'IterableList' object has no attribute 'origin'"))
    else
    if opens w repo_path && fst (fetch w repo_path)
    then Reply (snd (fetch w repo_path)) [(Stdout, "Updating: " +:+ repo_path)]
           (Returns repo_path)
    else
      let w1 := if opens w repo_path then snd (fetch w repo_path) else w in
      Reply (snd (clone_from w1 git_url repo_path))
        ((if opens w repo_path then [(Stdout, "Updating: " +:+ repo_path)] else []) ++
         [(Stdout, "Cloning : " +:+ repo_path)])
        (if fst (clone_from w1 git_url repo_path)
         then Returns repo_path else Fails UncaughtGitError).
Proof.
  intros Hn. unfold clone.
  destruct (SearchFacts.search_names git_url)
    as [[_ Hnone] | (m & name' & -> & -> & Hn')]; [now destruct (Hnone name)|].
  rewrite (SearchFacts.names_unique _ _ _ Hn' Hn). cbv zeta.
  generalize (path_join "/" [tmp_dir; name]). intros repo_path.
  destruct init; [|reflexivity]. cbn [negb].
  unfold fetch_origin, mbind, io_bind, ask, act, print, mret, io_ret, raise. cbn.
  destruct (opens w repo_path); cbn.
  - destruct (has_origin w repo_path); cbn; [|reflexivity].
    destruct (fetch w repo_path) as [[] w1]; cbn; [reflexivity|].
    destruct (clone_from w1 git_url repo_path) as [[] w2]; reflexivity.
  - destruct (clone_from w git_url repo_path) as [[] w2]; reflexivity.
Qed.

Lemma clone_unnamed git_url tmp_dir init w :
  (forall name, ~ names git_url name) ->
  clone opens has_origin fetch clone_from git_url tmp_dir init w =
  Reply w [] (Fails (AttributeError "'NoneType' object has no attribute 'group'")).
Proof.
  intros Hnone. unfold clone.
  destruct (SearchFacts.search_names git_url)
    as [[-> _] | (m & name' & _ & _ & Hn')]; [reflexivity | now destruct (Hnone name')].
Qed.

(** Property X16.  Without [init], [clone] looks at nothing and prints
    nothing.  On a URL the pattern does not match it raises
    [AttributeError].  On a URL with a name it returns the local path of the
    repository: an absolute path whose last component is the name; so two
    URLs with the same name get the same path. *)
Theorem clone_without_init git_url tmp_dir w :
  ((forall name, ~ names git_url name) ->
   clone opens has_origin fetch clone_from git_url tmp_dir false w =
   Reply w [] (Fails (AttributeError "'NoneType' object has no attribute 'group'"))) /\
  (forall name, names git_url name ->
     let repo_path := path_join "/" [tmp_dir; name] in
     clone opens has_origin fetch clone_from git_url tmp_dir false w =
       Reply w [] (Returns repo_path) /\
     starts_with_sep repo_path = true /\
     (exists dir, repo_path = dir +:+ "/" +:+ name) /\
     forall other, names other name ->
       clone opens has_origin fetch clone_from other tmp_dir false w =
       clone opens has_origin fetch clone_from git_url tmp_dir false w).
Proof.
  split; [apply clone_unnamed|]. intros name Hn repo_path.
  assert (Hshape : Str.chars name <> [] /\
            Forall (fun c => Search.in_set name_set c = true) (Str.chars name)).
  { destruct Hn as (pre & ext & nl & _ & _ & _ & Hne & Fn & _). auto. }
  destruct Hshape as [Hne Fn].
  destruct (repo_path_shape tmp_dir name (name_starts name Hne Fn)) as [Hs Hd].
  split; [now rewrite (clone_named git_url name)|]. split; [exact Hs|]. split; [exact Hd|].
  intros other Ho.
  rewrite (clone_named other name) by exact Ho.
  now rewrite (clone_named git_url name) by exact Hn.
Qed.

(** Property X17.  With [init], on a URL with a name, [clone] returns the
    same local path, or fails with the [GitError] of [Repo.clone_from] or
    with the [AttributeError] of a repository without a remote [origin],
    which nothing catches.  A repository that opens and has no remote
    [origin] ends the call after the line "Updating", the machine as it
    was.  A repository that opens and fetches is only updated.  Otherwise
    the URL is cloned, also over a repository that opened and whose fetch
    failed, and [clone] returns exactly when the cloning does.  The line
    "Updating" is printed exactly when the repository opens. *)
Theorem clone_with_init git_url tmp_dir name w :
  names git_url name ->
  let repo_path := path_join "/" [tmp_dir; name] in
  let r := clone opens has_origin fetch clone_from git_url tmp_dir true w in
  let no_origin := opens w repo_path && negb (has_origin w repo_path) in
  let updated := opens w repo_path && fst (fetch w repo_path) in
  (ending r = Returns repo_path \/ ending r = Fails UncaughtGitError \/
   ending r = Fails (AttributeError "'IterableList' object has no attribute 'origin'")) /\
  (no_origin = true ->
   r = Reply w [(Stdout, "Updating: " +:+ repo_path)]
         (Fails (AttributeError "'IterableList' object has no attribute 'origin'"))) /\
  (no_origin = false -> updated = true ->
   r = Reply (snd (fetch w repo_path)) [(Stdout, "Updating: " +:+ repo_path)]
         (Returns repo_path)) /\
  (no_origin = false -> updated = false ->
   (Stdout, "Cloning : " +:+ repo_path) ∈ output r /\
   exists w1,
     final r = snd (clone_from w1 git_url repo_path) /\
     (ending r = Returns repo_path <-> fst (clone_from w1 git_url repo_path) = true)) /\
  ((Stdout, "Updating: " +:+ repo_path) ∈ output r <-> opens w repo_path = true).
Proof.
  intros Hn repo_path r no_origin updated. unfold r.
  rewrite (clone_named _ name) by exact Hn.
  cbv zeta. cbn [negb]. fold repo_path. fold no_origin. fold updated.
  assert (Hne : forall s : string, (Stdout, "Updating: " +:+ s) <> (Stdout, "Cloning : " +:+ s)).
  { intros s. cbn. discriminate. }
  destruct no_origin eqn:En.
  { cbn [final output ending]. split; [auto|]. split; [auto|].
    split; [discriminate|]. split; [discriminate|].
    unfold no_origin in En. apply andb_true_iff in En as [Eo _]. rewrite Eo.
    split; [reflexivity | intros _; apply elem_of_cons; auto]. }
  destruct updated eqn:Eu.
  - cbn [final output ending]. split; [auto|]. split; [discriminate|].
    split; [auto|]. split; [discriminate|].
    unfold updated in Eu. apply andb_true_iff in Eu as [Eo _]. rewrite Eo.
    split; [reflexivity | intros _; apply elem_of_cons; auto].
  - cbn [final output ending]. split; [|split; [discriminate | split; [discriminate | split]]].
    + destruct (fst (clone_from _ git_url repo_path)); auto.
    + intros _ _. split.
      * apply elem_of_app. right. apply elem_of_cons. auto.
      * eexists. split; [reflexivity|].
        destruct (fst (clone_from _ git_url repo_path)); split; congruence.
    + destruct (opens w repo_path); cbn [app].
      * split; [reflexivity | intros _; apply elem_of_cons; auto].
      * split; [|discriminate]. intros Hin.
        apply list_elem_of_singleton in Hin. now apply Hne in Hin.
Qed.

End CloneFacts.

(** Property X15.  The search of [clone] finds a match whose first group is
    a given name exactly for the URLs made of some text without a newline, a
    slash, the name (letters, digits, hyphens, underscores, dots), [.git] in
    any case, and nothing more than a final newline; it finds nothing for
    all other URLs; and a URL has one name at most. *)
Theorem repo_name_of_url git_url :
  (forall name,
     (exists m, Search.search repo_name_pattern git_url = Some m /\
                group m 1 = Some name) <-> names git_url name) /\
  (Search.search repo_name_pattern git_url = None <->
   forall name, ~ names git_url name) /\
  (forall n1 n2, names git_url n1 -> names git_url n2 -> n1 = n2).
Proof.
  split; [|split; [|apply SearchFacts.names_unique]].
  - intros name. split.
    + intros (m & E & Hg).
      destruct (SearchFacts.search_names git_url)
        as [[En _] | (m' & name' & E' & Hg' & Hn')]; [congruence|].
      rewrite E in E'. injection E' as <-. rewrite Hg in Hg'. now injection Hg' as <-.
    + intros Hn.
      destruct (SearchFacts.search_names git_url)
        as [[_ Hnone] | (m' & name' & E' & Hg' & Hn')]; [now destruct (Hnone name)|].
      exists m'. split; [exact E'|].
      now rewrite (SearchFacts.names_unique _ _ _ Hn Hn').
  - destruct (SearchFacts.search_names git_url)
      as [[En Hnone] | (m' & name' & E' & Hg' & Hn')].
    + split; auto.
    + split; [congruence | intros Hnone; now destruct (Hnone name')].
Qed.

(** ** [validate_repos] and [parse_args] *)

Lemma is_in_spec opt names : is_in opt names = true <-> opt ∈ names.
Proof.
  unfold is_in. rewrite existsb_exists. split.
  - intros (x & Hx & E). apply String.eqb_eq in E as ->. now apply list_elem_of_In.
  - intros H. exists opt. split; [now apply list_elem_of_In | apply String.eqb_refl].
Qed.

Lemma is_in_disjoint opt a b :
  (forall x, x ∈ a -> x ∉ b) -> is_in opt a = true -> is_in opt b = false.
Proof.
  intros Hd Ha. destruct (is_in opt b) eqn:Hb; [|reflexivity].
  apply is_in_spec in Ha, Hb. now destruct (Hd opt Ha).
Qed.

Lemma names_disjoint (a b : list string) :
  forallb (fun x => negb (is_in x b)) a = true -> forall x, x ∈ a -> x ∉ b.
Proof.
  intros H x Ha Hb. rewrite forallb_forall in H.
  apply list_elem_of_In, H in Ha. apply is_in_spec in Hb. rewrite Hb in Ha. discriminate.
Qed.

Lemma last_snoc_filter names (opts : list (string * string)) o :
  last_arg names (opts ++ [o]) =
  if is_in (fst o) names then Some (snd o) else last_arg names opts.
Proof.
  unfold last_arg. rewrite filter_app, map_app, filter_cons, filter_nil.
  destruct (is_in (fst o) names) eqn:E.
  - rewrite decide_True by reflexivity. cbn [map]. apply last_snoc.
  - rewrite decide_False by discriminate. cbn [map]. now rewrite app_nil_r.
Qed.

(** A list splits at its first element without a property. *)
Lemma first_failure {A} (P : A -> bool) l :
  Forall (fun x => P x = true) l \/
  exists before x after,
    l = before ++ x :: after /\ Forall (fun x => P x = true) before /\ P x = false.
Proof.
  induction l as [|x l IH]; [left; constructor|].
  destruct (P x) eqn:E.
  - destruct IH as [IH | (b & y & a & -> & Hb & Hy)].
    + left. constructor; assumption.
    + right. exists (x :: b), y, a. repeat split; [constructor; assumption | exact Hy].
  - right. exists [], x, l. repeat split; [constructor | exact E].
Qed.

Lemma last_arg_cons names o (opts : list (string * string)) :
  last_arg names (o :: opts) =
  if is_in (fst o) names
  then from_option Some (Some (snd o)) (last_arg names opts)
  else last_arg names opts.
Proof.
  unfold last_arg. rewrite filter_cons. destruct (is_in (fst o) names) eqn:E.
  - rewrite decide_True by reflexivity. cbn [map]. rewrite last_cons.
    now destruct (last _).
  - now rewrite decide_False by discriminate.
Qed.

Lemma is_in_sub opt a b :
  (forall x, x ∈ a -> x ∈ b) -> is_in opt a = true -> is_in opt b = true.
Proof. rewrite !is_in_spec. auto. Qed.

Lemma options_after_nil options : options_after [] options = options.
Proof.
  unfold options_after, last_arg. cbn. rewrite orb_false_r. now destruct options.
Qed.

Lemma options_after_app before after options :
  options_after (before ++ after) options =
  options_after after (options_after before options).
Proof.
  unfold options_after, last_arg. cbn [opt_init opt_config opt_tmpdir].
  rewrite existsb_app, orb_assoc, !filter_app, !map_app, !last_app. f_equal.
  - now destruct (last (map snd (filter _ after))).
  - now destruct (last (map snd (filter _ after))).
Qed.

Section ValidateFacts.

Variable world : Type.
Variable opens : world -> string -> bool.

Lemma validate_repos_opens repo_paths w :
  Forall (fun p => opens w p = true) repo_paths ->
  validate_repos opens repo_paths w = Reply w [] (Returns tt).
Proof.
  induction 1 as [|p l Hp Hl IH]; [reflexivity|].
  cbn [validate_repos]. unfold mbind, io_bind, ask. cbn. rewrite Hp, IH. reflexivity.
Qed.

Lemma validate_repos_stops before p after w :
  Forall (fun p => opens w p = true) before -> opens w p = false ->
  validate_repos opens (before ++ p :: after) w =
  Reply w [(Stderr, "[ERR] Repo does not yet exist: " +:+ p);
           (Stderr, "Run with --init first, see --help")] (Exits 1).
Proof.
  induction 1 as [|q l Hq Hl IH]; intros Hp.
  - cbn [app validate_repos]. unfold mbind, io_bind, ask. cbn. rewrite Hp. reflexivity.
  - cbn [app validate_repos]. unfold mbind, io_bind, ask. cbn. rewrite Hq.
    rewrite (IH Hp). reflexivity.
Qed.

(** Property X18.  [validate_repos] leaves the machine as it is.  It
    returns, having printed nothing, exactly when every path opens as a
    repository; otherwise it exits with status 1 after two lines on the
    error stream that name the first path that does not open. *)
Theorem validate_repos_first_missing repo_paths w :
  let r := validate_repos opens repo_paths w in
  final r = w /\
  (ending r = Returns tt <-> Forall (fun p => opens w p = true) repo_paths) /\
  (ending r = Returns tt -> output r = []) /\
  (ending r = Returns tt \/ ending r = Exits 1) /\
  (forall before p after,
     repo_paths = before ++ p :: after ->
     Forall (fun p => opens w p = true) before -> opens w p = false ->
     r = Reply w [(Stderr, "[ERR] Repo does not yet exist: " +:+ p);
                  (Stderr, "Run with --init first, see --help")] (Exits 1)).
Proof.
  intros r. unfold r.
  assert (Hstop : forall before p after,
     repo_paths = before ++ p :: after ->
     Forall (fun p => opens w p = true) before -> opens w p = false ->
     validate_repos opens repo_paths w =
       Reply w [(Stderr, "[ERR] Repo does not yet exist: " +:+ p);
                (Stderr, "Run with --init first, see --help")] (Exits 1)).
  { intros before p after -> Hb Hp. now apply validate_repos_stops. }
  destruct (first_failure (opens w) repo_paths)
    as [Hall | (before & p & after & E & Hb & Hp)].
  - rewrite (validate_repos_opens _ _ Hall). cbn [final output ending].
    repeat split; auto.
    intros before p after -> Hb Hp. apply Forall_app in Hall as [_ Hall].
    inversion Hall; congruence.
  - rewrite (Hstop _ _ _ E Hb Hp). cbn [final output ending].
    split; [reflexivity|]. split; [|split; [discriminate | split; [auto|]]].
    + split; [discriminate|]. intros Hall. subst repo_paths.
      apply Forall_app in Hall as [_ Hall]. inversion Hall; congruence.
    + intros before' p' after' E' Hb' Hp'. rewrite <- (Hstop _ _ _ E Hb Hp).
      now apply Hstop with before' after'.
Qed.

End ValidateFacts.

Section ParseFacts.

Variable world : Type.
Variable isfile : world -> string -> bool.
Variable isdir : world -> string -> bool.

Lemma help_stops w opt arg :
  is_in opt ["-h"; "--help"] = true -> stops isfile isdir w (opt, arg).
Proof.
  intros H. left. cbn [fst]. revert H. apply is_in_sub.
  intros x. rewrite !elem_of_cons. tauto.
Qed.

Lemma version_stops w opt arg :
  is_in opt ["-v"; "--version"] = true -> stops isfile isdir w (opt, arg).
Proof.
  intros H. left. cbn [fst]. revert H. apply is_in_sub.
  intros x. rewrite !elem_of_cons. tauto.
Qed.

Lemma parse_opts_passes w opts : forall options,
  Forall (fun o => ~ stops isfile isdir w o) opts ->
  parse_opts isfile isdir opts options w =
  Reply w [] (Returns (options_after opts options)).
Proof.
  induction opts as [|[opt arg] opts IH]; intros options HF.
  - cbn. unfold mret, io_ret, options_after, last_arg. cbn.
    rewrite orb_false_r. now destruct options.
  - inversion HF as [|? ? Ho HF']; subst. cbn [parse_opts].
    destruct (is_in opt ["-h"; "--help"]) eqn:Eh; [now destruct Ho; apply help_stops|].
    destruct (is_in opt ["-v"; "--version"]) eqn:Ev; [now destruct Ho; apply version_stops|].
    assert (Hfin : forall o1,
      options_after opts o1 =
      Options (opt_init o1 || existsb (fun o => is_in (fst o) ["-i"; "--init"]) opts)
        (from_option Some (opt_config o1) (last_arg ["-c"; "--config"] opts))
        (from_option Some (opt_tmpdir o1) (last_arg ["-t"; "--tmpdir"] opts)))
      by reflexivity.
    unfold options_after at 1. rewrite !last_arg_cons. cbn [fst snd existsb].
    destruct (is_in opt ["-i"; "--init"]) eqn:Ei.
    { assert (Ec : is_in opt ["-c"; "--config"] = false)
        by (apply (is_in_disjoint opt ["-i"; "--init"]);
            [apply names_disjoint; reflexivity | exact Ei]).
      assert (Et : is_in opt ["-t"; "--tmpdir"] = false)
        by (apply (is_in_disjoint opt ["-i"; "--init"]);
            [apply names_disjoint; reflexivity | exact Ei]).
      rewrite (IH _ HF'), Hfin, Ec, Et. cbn [opt_init opt_config opt_tmpdir orb].
      now rewrite orb_true_r. }
    destruct (is_in opt ["-c"; "--config"]) eqn:Ec.
    { assert (Et : is_in opt ["-t"; "--tmpdir"] = false)
        by (apply (is_in_disjoint opt ["-c"; "--config"]);
            [apply names_disjoint; reflexivity | exact Ec]).
      unfold mbind, io_bind, ask. cbn [final output ending].
      destruct (isfile w arg) eqn:Ef; [|destruct Ho; right; left; auto].
      rewrite (IH _ HF'), Hfin, Et. cbn [final output ending app opt_init opt_config opt_tmpdir orb].
      do 3 f_equal. now destruct (last_arg ["-c"; "--config"] opts). }
    destruct (is_in opt ["-t"; "--tmpdir"]) eqn:Et.
    { unfold mbind, io_bind, ask. cbn [final output ending].
      destruct (isdir w arg) eqn:Ef; [|destruct Ho; right; right; auto].
      rewrite (IH _ HF'), Hfin. cbn [final output ending app opt_init opt_config opt_tmpdir orb].
      do 3 f_equal. now destruct (last_arg ["-t"; "--tmpdir"] opts). }
    rewrite (IH _ HF'), Hfin. reflexivity.
Qed.

Lemma Returns_inj {A} (w1 w2 : world) o1 o2 (a b : A) :
  Reply w1 o1 (Returns a) = Reply w2 o2 (Returns b) -> a = b.
Proof. now intros [= _ _ ->]. Qed.

Lemma parse_opts_app w before : forall after options,
  Forall (fun o => ~ stops isfile isdir w o) before ->
  parse_opts isfile isdir (before ++ after) options w =
  parse_opts isfile isdir after (options_after before options) w.
Proof.
  induction before as [|[opt arg] before IH]; intros after options HF.
  - cbn [app]. now rewrite options_after_nil.
  - inversion HF as [|? ? Ho HF']; subst.
    pose proof (parse_opts_passes w [(opt, arg)] options) as H1.
    specialize (H1 ltac:(constructor; [exact Ho | constructor])).
    change ((opt, arg) :: before) with ([(opt, arg)] ++ before).
    rewrite options_after_app, <- app_assoc. cbn [app parse_opts] in *.
    destruct (is_in opt ["-h"; "--help"]) eqn:Eh; [now destruct Ho; apply help_stops|].
    destruct (is_in opt ["-v"; "--version"]) eqn:Ev; [now destruct Ho; apply version_stops|].
    destruct (is_in opt ["-i"; "--init"]) eqn:Ei.
    { rewrite IH by exact HF'. now rewrite <- (Returns_inj _ _ _ _ _ _ H1). }
    destruct (is_in opt ["-c"; "--config"]) eqn:Ec.
    { unfold mbind, io_bind, ask in *. cbn [final output ending] in *.
      destruct (isfile w arg) eqn:Ef; [|discriminate].
      unfold mret, io_ret in H1. cbn [final output ending app] in H1.
      rewrite IH by exact HF'. rewrite <- (Returns_inj _ _ _ _ _ _ H1).
      now destruct (parse_opts _ _ _ _ _). }
    destruct (is_in opt ["-t"; "--tmpdir"]) eqn:Et.
    { unfold mbind, io_bind, ask in *. cbn [final output ending] in *.
      destruct (isdir w arg) eqn:Ef; [|discriminate].
      unfold mret, io_ret in H1. cbn [final output ending app] in H1.
      rewrite IH by exact HF'. rewrite <- (Returns_inj _ _ _ _ _ _ H1).
      now destruct (parse_opts _ _ _ _ _). }
    rewrite IH by exact HF'. now rewrite <- (Returns_inj _ _ _ _ _ _ H1).
Qed.

Lemma parse_opts_stop w opt arg after options :
  stops isfile isdir w (opt, arg) ->
  stop_reply isfile isdir w opt arg (parse_opts isfile isdir ((opt, arg) :: after) options w).
Proof.
  intros Hs. unfold stop_reply. cbn [parse_opts].
  destruct (is_in opt ["-h"; "--help"]) eqn:Eh; [left; split; reflexivity|].
  destruct (is_in opt ["-v"; "--version"]) eqn:Ev; [right; left; split; reflexivity|].
  assert (Hhv : is_in opt ["-h"; "--help"; "-v"; "--version"] = false).
  { destruct (is_in opt ["-h"; "--help"; "-v"; "--version"]) eqn:E; [|reflexivity].
    apply is_in_spec in E. rewrite !elem_of_cons, elem_of_nil in E.
    destruct E as [-> | [-> | [-> | [-> | []]]]]; discriminate. }
  destruct Hs as [Hs | [[Hc Hf] | [Ht Hd]]]; cbn [fst snd] in *; [congruence| |].
  - assert (Ei : is_in opt ["-i"; "--init"] = false)
      by (apply (is_in_disjoint opt ["-c"; "--config"]);
          [apply names_disjoint; reflexivity | exact Hc]).
    rewrite Ei, Hc. unfold mbind, io_bind, ask. cbn [final output ending]. rewrite Hf.
    right. right. left. repeat split.
  - assert (Ei : is_in opt ["-i"; "--init"] = false)
      by (apply (is_in_disjoint opt ["-t"; "--tmpdir"]);
          [apply names_disjoint; reflexivity | exact Ht]).
    assert (Ec : is_in opt ["-c"; "--config"] = false)
      by (apply (is_in_disjoint opt ["-t"; "--tmpdir"]);
          [apply names_disjoint; reflexivity | exact Ht]).
    rewrite Ei, Ec, Ht. unfold mbind, io_bind, ask. cbn [final output ending]. rewrite Hd.
    right. right. right. repeat split.
Qed.

Lemma passes_spec w o :
  (passes isfile isdir w o = true <-> ~ stops isfile isdir w o) /\
  (passes isfile isdir w o = false <-> stops isfile isdir w o).
Proof.
  unfold passes, stops.
  destruct (is_in (fst o) ["-h"; "--help"; "-v"; "--version"]),
    (is_in (fst o) ["-c"; "--config"]), (is_in (fst o) ["-t"; "--tmpdir"]),
    (isfile w (snd o)), (isdir w (snd o)); cbn; intuition congruence.
Qed.

Section Getopt.

Variable getopt : list string -> getopt_reply.

(** The three ways [parse_args] goes. *)
Lemma parse_args_cases argv w :
  let r := parse_args getopt isfile isdir argv w in
  (exists msg, getopt argv = GetoptError msg /\
     r = Reply w [] (Fails (TypeError "'GetoptError' object is not iterable"))) \/
  (exists opts args, getopt argv = Parsed opts args /\
     Forall (fun o => ~ stops isfile isdir w o) opts /\
     r = Reply w [] (Returns (options_after opts (Options false None None)))) \/
  (exists before opt arg after args,
     getopt argv = Parsed (before ++ (opt, arg) :: after) args /\
     Forall (fun o => ~ stops isfile isdir w o) before /\
     stops isfile isdir w (opt, arg) /\ stop_reply isfile isdir w opt arg r).
Proof.
  intros r. unfold r, parse_args.
  destruct (getopt argv) as [opts args | msg]; [|left; eauto].
  right. destruct (first_failure (passes isfile isdir w) opts)
    as [Hall | (before & [opt arg] & after & -> & Hb & Ho)].
  - left. exists opts, args. split; [reflexivity|].
    assert (Hp : Forall (fun o => ~ stops isfile isdir w o) opts).
    { eapply Forall_impl; [exact Hall|]. intros o. apply passes_spec. }
    split; [exact Hp | now apply parse_opts_passes].
  - right. exists before, opt, arg, after, args. split; [reflexivity|].
    assert (Hp : Forall (fun o => ~ stops isfile isdir w o) before).
    { eapply Forall_impl; [exact Hb|]. intros o. apply passes_spec. }
    apply passes_spec in Ho. split; [exact Hp | split; [exact Ho|]].
    rewrite parse_opts_app by exact Hp. now apply parse_opts_stop.
Qed.

(** Property X19.  When no option stops the loop (none asks for help or
    the version, every configuration file is a file, every directory a
    directory), [parse_args] returns without printing and without touching
    the machine: [init] is set exactly when an init option is given, and
    [config] and [tmpdir] are the arguments of the last such options, or
    absent. *)
Theorem parse_args_options argv opts args w :
  getopt argv = Parsed opts args ->
  Forall (fun o => ~ stops isfile isdir w o) opts ->
  parse_args getopt isfile isdir argv w =
  Reply w []
    (Returns (Options (existsb (fun o => is_in (fst o) ["-i"; "--init"]) opts)
                      (last_arg ["-c"; "--config"] opts)
                      (last_arg ["-t"; "--tmpdir"] opts))).
Proof.
  intros E Hp. unfold parse_args. rewrite E, (parse_opts_passes _ _ _ Hp).
  unfold options_after. cbn [opt_init opt_config opt_tmpdir orb].
  now destruct (last_arg ["-c"; "--config"] opts), (last_arg ["-t"; "--tmpdir"] opts).
Qed.

(** Property X20.  The first option that stops the loop decides the run,
    whatever follows it on the command line: help and version print their
    text and exit with status 0; a configuration file that is no file and a
    directory that is no directory give one line on the error stream and
    the exit status 2. *)
Theorem parse_args_first_stop argv before opt arg after args w :
  getopt argv = Parsed (before ++ (opt, arg) :: after) args ->
  Forall (fun o => ~ stops isfile isdir w o) before ->
  stops isfile isdir w (opt, arg) ->
  let r := parse_args getopt isfile isdir argv w in
  final r = w /\
  (is_in opt ["-h"; "--help"] = true ->
   output r = [(Stdout, "Help")] /\ ending r = Exits 0) /\
  (is_in opt ["-v"; "--version"] = true ->
   output r = [(Stdout, "Version")] /\ ending r = Exits 0) /\
  (is_in opt ["-c"; "--config"] = true ->
   output r = [(Stderr, "[ERR] " +:+ opt +:+ " specified config does not exist: " +:+ arg)] /\
   ending r = Exits 2) /\
  (is_in opt ["-t"; "--tmpdir"] = true ->
   output r = [(Stderr, "[ERR] " +:+ opt +:+ " specified directory does not exist: " +:+ arg)] /\
   ending r = Exits 2).
Proof.
  intros E Hp Hs r. unfold r, parse_args. rewrite E, parse_opts_app by exact Hp.
  pose proof (parse_opts_stop w opt arg after
                (options_after before (Options false None None)) Hs) as Hr.
  assert (Hd : forall a b, forallb (fun x => negb (is_in x b)) a = true ->
            is_in opt a = true -> is_in opt b = true -> False).
  { intros a b Hab Ha Hb.
    rewrite (is_in_disjoint opt a b (names_disjoint a b Hab) Ha) in Hb. discriminate. }
  destruct Hr as [[H ->] | [[H ->] | [(H & _ & ->) | (H & _ & ->)]]];
    cbn [final output ending]; (split; [reflexivity|]);
    (split; [intros Hx | split; [intros Hx | split; [intros Hx | intros Hx]]]);
    first [ split; reflexivity | exfalso; refine (Hd _ _ _ H Hx); reflexivity ].
Qed.

(** Property X21.  [parse_args] never changes the machine and ends in one
    of three ways.  An exception leaves it exactly when [getopt] rejects
    the command line: the handler raises [TypeError] before it prints or
    exits, so a command line that is wrong does not give the exit status 2.
    It exits only with status 0 or 2, at an option that stops the loop.  It
    returns only after printing nothing. *)
Theorem parse_args_endings argv w :
  let r := parse_args getopt isfile isdir argv w in
  final r = w /\
  (forall e, ending r = Fails e <->
     (exists msg, getopt argv = GetoptError msg) /\
     e = TypeError "'GetoptError' object is not iterable") /\
  ((exists msg, getopt argv = GetoptError msg) -> output r = []) /\
  (forall status, ending r = Exits status ->
     (status = 0 \/ status = 2) /\
     exists opts args o,
       getopt argv = Parsed opts args /\ o ∈ opts /\ stops isfile isdir w o) /\
  (forall options, ending r = Returns options -> output r = []).
Proof.
  intros r.
  destruct (parse_args_cases argv w)
    as [(msg & E & Hr) | [(opts & args & E & Hp & Hr) |
        (before & opt & arg & after & args & E & Hp & Hs & Hr)]]; fold r in Hr.
  - rewrite Hr. cbn [final output ending]. split; [reflexivity|]. split; [|split; [|split]].
    + intros e. split; [intros [= <-]; eauto | intros [_ ->]; reflexivity].
    + reflexivity.
    + discriminate.
    + discriminate.
  - rewrite Hr. cbn [final output ending]. split; [reflexivity|]. split; [|split; [|split]].
    + intros e. split; [discriminate | intros [(msg & Em) _]; congruence].
    + reflexivity.
    + discriminate.
    + reflexivity.
  - assert (Hin : (opt, arg) ∈ before ++ (opt, arg) :: after).
    { apply elem_of_app. right. apply elem_of_cons. auto. }
    destruct Hr as [[_ ->] | [[_ ->] | [(_ & _ & ->) | (_ & _ & ->)]]];
      cbn [final output ending]; (split; [reflexivity|]);
      (split; [intros e; split; [discriminate | intros [(msg & Em) _]; congruence]|]);
      (split; [intros (msg & Em); congruence|]);
      (split; [|discriminate]);
      intros status [= <-]; (split; [auto|]); eauto 6.
Qed.

End Getopt.

End ParseFacts.

(** ** The report *)

Section ReportFacts.

Variable world : Type.

Lemma bind_returns {A B} (m : io world A) (f : A -> io world B) w w1 o1 a :
  m w = Reply w1 o1 (Returns a) ->
  (m ≫= f) w = Reply (final (f a w1)) (o1 ++ output (f a w1)) (ending (f a w1)).
Proof. intros E. unfold mbind, io_bind. now rewrite E. Qed.

Lemma bind_exits {A B} (m : io world A) (f : A -> io world B) w w1 o1 status :
  m w = Reply w1 o1 (Exits status) -> (m ≫= f) w = Reply w1 o1 (Exits status).
Proof. intros E. unfold mbind, io_bind. now rewrite E. Qed.

Lemma bind_fails {A B} (m : io world A) (f : A -> io world B) w w1 o1 e :
  m w = Reply w1 o1 (Fails e) -> (m ≫= f) w = Reply w1 o1 (Fails e).
Proof. intros E. unfold mbind, io_bind. now rewrite E. Qed.

Lemma reply_eta {A} (r : reply world A) : Reply (final r) (output r) (ending r) = r.
Proof. now destruct r. Qed.

Lemma print_lines_reply lines (w : world) :
  print_lines lines w = Reply w (on_stdout lines) (Returns tt).
Proof.
  induction lines as [|line lines IH]; [reflexivity|].
  cbn [print_lines]. rewrite (bind_returns _ _ w w [(Stdout, line)] tt) by reflexivity.
  rewrite IH. reflexivity.
Qed.

Lemma print_section_reply title m statistics (w : world) :
  print_section title m statistics w =
  Reply w (on_stdout (section_lines title (section show_top m statistics))) (Returns tt).
Proof.
  unfold print_section.
  rewrite (bind_returns _ _ w w (on_stdout (heading title)) tt)
    by apply print_lines_reply.
  rewrite print_lines_reply. cbn [final output ending].
  unfold section_lines, on_stdout. now rewrite map_app.
Qed.

Lemma print_word_rows_ok word l : forall cnt out (w : world),
  word_rows word cnt l = Ok out ->
  print_word_rows word cnt l w = Reply w (on_stdout (map row_of out)) (Returns tt).
Proof.
  induction l as [|item l IH]; intros cnt out w; cbn [word_rows print_word_rows].
  - intros [= <-]. reflexivity.
  - destruct (words item !! word) as [n|]; [|discriminate].
    destruct (word_rows word (S cnt) l) as [out'|e] eqn:E; [|discriminate].
    rewrite bind_Ok. intros [= <-].
    destruct ((0 <? n) && (cnt <? show_top)%nat).
    + rewrite (bind_returns _ _ w w [(Stdout, Format.row n (email item))] tt) by reflexivity.
      rewrite (IH _ _ w E). reflexivity.
    + rewrite (bind_returns _ _ w w [] tt) by reflexivity.
      rewrite (IH _ _ w E). reflexivity.
Qed.


Lemma print_word_section_ok statistics word out (w : world) :
  word_section word statistics = Ok out ->
  print_word_section statistics word w =
  Reply w (on_stdout (section_lines (" WORD: " +:+ word) out)) (Returns tt).
Proof.
  intros E. unfold print_word_section.
  rewrite (bind_returns _ _ w w (on_stdout (heading (" WORD: " +:+ word))) tt)
    by apply print_lines_reply.
  rewrite (print_word_rows_ok _ _ _ _ w E). cbn [final output ending].
  unfold section_lines, on_stdout. now rewrite map_app.
Qed.

(** The sections of the words, one after the other. *)
Lemma word_sections_ok statistics wordlist (w : world) :
  (forall word, word ∈ wordlist -> exists out, word_section word statistics = Ok out) ->
  exists outs,
    Forall2 (fun word out => word_section word statistics = Ok out) wordlist outs /\
    exists units,
      for_io wordlist (print_word_section statistics) w =
      Reply w (on_stdout (concat (zip_with (fun word out =>
                  section_lines (" WORD: " +:+ word) out) wordlist outs)))
        (Returns units).
Proof.
  induction wordlist as [|word wordlist IH]; intros Hall.
  - exists []. split; [constructor|]. exists []. reflexivity.
  - destruct (Hall word) as (out & E); [apply elem_of_cons; auto|].
    destruct IH as (outs & HF & units & Er).
    { intros x Hx. apply Hall, elem_of_cons. auto. }
    exists (out :: outs). split; [constructor; assumption|].
    exists (tt :: units). cbn [for_io].
    rewrite (bind_returns _ _ w w _ tt (print_word_section_ok _ _ _ w E)).
    rewrite (bind_returns _ _ w w _ units Er). cbn [final output ending].
    cbn [zip_with concat]. unfold on_stdout. rewrite !map_app, app_nil_r. reflexivity.
Qed.

Lemma numeric_sections_reply statistics (w : world) {B} (k : io world B) :
  (print_section " NUMBER OF COMMITS" Commits statistics;;
   print_section " CHANGED FILES" Files statistics;;
   print_section " MAX CHANGED FILES PER COMMIT" MaxFiles statistics;;
   print_section " LINES OF ADDITIONS" Adds statistics;;
   print_section " MAX LINES OF ADDITIONS PER COMMIT" MaxAdds statistics;;
   print_section " LINES OF DELETIONS" Dels statistics;;
   print_section " MAX LINES OF DELETIONS PER COMMIT" MaxDels statistics;;
   k) w =
  Reply (final (k w)) (on_stdout (numeric_lines statistics) ++ output (k w))
    (ending (k w)).
Proof.
  repeat (rewrite (bind_returns _ _ w w _ tt (print_section_reply _ _ _ w));
          cbn [final output ending]).
  unfold numeric_lines, numeric_titles, on_stdout. cbn [map concat fst snd].
  rewrite !map_app, app_nil_r, <- !app_assoc. reflexivity.
Qed.

Lemma word_defined word statistics :
  (forall d, d ∈ statistics -> is_Some (words d !! word)) ->
  exists out, word_section word statistics = Ok out.
Proof.
  intros H. apply word_rows_defined. intros d Hd. apply H.
  now apply sorted_reverse_elem in Hd.
Qed.

Lemma reply_intro {A} (r : reply world A) w o e :
  final r = w -> output r = o -> ending r = e -> r = Reply w o e.
Proof. destruct r. cbn. now intros -> -> ->. Qed.



Lemma report_ok statistics wordlist (w : world) :
  (forall word d, word ∈ wordlist -> d ∈ statistics -> is_Some (words d !! word)) ->
  exists outs,
    Forall2 (fun word out => word_section word statistics = Ok out) wordlist outs /\
    report statistics wordlist w =
    Reply w
      (on_stdout (numeric_lines statistics ++
         concat (zip_with (fun word out => section_lines (" WORD: " +:+ word) out)
                   wordlist outs)))
      (Returns tt).
Proof.
  intros Hall.
  destruct (word_sections_ok statistics wordlist w) as (outs & HF & units & Er).
  { intros word Hw. apply word_defined. intros d Hd. now apply Hall. }
  exists outs. split; [exact HF|].
  unfold report. rewrite numeric_sections_reply.
  rewrite (bind_returns _ _ w w _ units Er). cbn [final output ending].
  unfold on_stdout. now rewrite map_app, app_nil_r.
Qed.

(** Property X22.  When every record has a count for every word of the
    wordlist, the report returns, having printed on the standard output the
    seven numeric sections in their order and then one section for each
    word, in the order of the wordlist, a word listed twice getting two
    sections: each section the empty line, the rule, the title, the rule
    and the rows.  With an empty wordlist no section of a word is
    printed. *)
Theorem report_sections statistics wordlist (w : world) :
  (forall word d, word ∈ wordlist -> d ∈ statistics -> is_Some (words d !! word)) ->
  exists outs,
    Forall2 (fun word out => word_section word statistics = Ok out) wordlist outs /\
    report statistics wordlist w =
    Reply w
      (on_stdout (numeric_lines statistics ++
         concat (zip_with (fun word out => section_lines (" WORD: " +:+ word) out)
                   wordlist outs)))
      (Returns tt) /\
    (wordlist = [] ->
     report statistics wordlist w =
     Reply w (on_stdout (numeric_lines statistics)) (Returns tt)).
Proof.
  intros Hall. destruct (report_ok statistics wordlist w Hall) as (outs & HF & E).
  exists outs. split; [exact HF|]. split; [exact E|].
  intros ->. rewrite E. inversion HF; subst. cbn [zip_with concat].
  now rewrite app_nil_r.
Qed.


End ReportFacts.

(** ** [main] *)

Lemma before_report_app o1 o2 :
  before_report o1 -> before_report o2 -> before_report (o1 ++ o2).
Proof. unfold before_report. rewrite elem_of_app. tauto. Qed.

Lemma before_report_nil : before_report [].
Proof. unfold before_report. apply not_elem_of_nil. Qed.

Lemma before_report_stderr out :
  Forall (fun ev => fst ev = Stderr) out -> before_report out.
Proof.
  intros H Hin. rewrite Forall_forall in H. apply H in Hin. discriminate.
Qed.

Section MainFacts.

Variable world : Type.
Variable isfile : world -> string -> bool.
Variable isdir : world -> string -> bool.
Variable load : world -> string -> yaml_reply.
Variable opens : world -> string -> bool.
Variable has_origin : world -> string -> bool.
Variable fetch : world -> string -> bool * world.
Variable clone_from : world -> string -> string -> bool * world.
Variable TMPDIR_PATH : string.

(** What [read_config] does: it returns, or lets through what [open] or
    [yaml.load] raised. *)
Lemma read_config_cases path w :
  (exists out settings,
     read_config isfile load TMPDIR_PATH path w = Reply w out (Returns settings) /\
     Forall (fun ev => fst ev = Stderr) out) \/
  (exists name text,
     isfile w path = true /\ load w path = LoadFails name text /\
     read_config isfile load TMPDIR_PATH path w = Reply w [] (Fails (Other name text))).
Proof.
  unfold read_config, mbind, io_bind, ask. cbn [final output ending].
  destruct (isfile w path); [|left; do 2 eexists; split; [reflexivity | constructor]].
  destruct (load w path) as [[data|] | text | name text]; cbn;
    [left | left | left | right; exists name, text; auto];
    do 2 eexists; (split; [reflexivity|]); repeat constructor.
Qed.

(** Property X27.  [read_config] never exits and leaves the machine as it
    is.  It fails exactly when the file is there and [open] or [yaml.load]
    raises an exception that is no [YAMLError]: with that exception, and
    nothing printed.  Otherwise it returns.  A file that is missing, empty
    or not valid YAML gives the defaults: the temporary directory of the
    system, no repository, no word; only the invalid file is reported, by
    two lines on the error stream.  A document keeps the keys it has and
    gets the defaults for the others. *)
Theorem read_config_defaults path w :
  let r := read_config isfile load TMPDIR_PATH path w in
  final r = w /\
  (forall status, ending r <> Exits status) /\
  (forall e, ending r = Fails e <->
     isfile w path = true /\ exists name text,
       load w path = LoadFails name text /\ e = Other name text) /\
  (isfile w path = false \/ load w path = Loaded None \/
   (exists text, load w path = YAMLError text) ->
   ending r = Returns (Settings TMPDIR_PATH [] [])) /\
  (forall data, isfile w path = true -> load w path = Loaded (Some data) ->
   ending r = Returns (Settings (default TMPDIR_PATH (doc_tmpdir data))
                                (default [] (doc_repositories data))
                                (default [] (doc_wordlist data)))) /\
  (forall text, isfile w path = true -> load w path = YAMLError text ->
   output r = [(Stderr, "[ERR] Cannot read yaml file"); (Stderr, text)]) /\
  (isfile w path = false \/ (exists data, load w path = Loaded data) \/
   (exists name text, load w path = LoadFails name text) -> output r = []).
Proof.
  intros r. unfold r, read_config, mbind, io_bind, ask. cbn [final output ending].
  destruct (isfile w path) eqn:Ef; cbn [final output ending].
  - destruct (load w path) as [[data|] | text | name text] eqn:El; cbn.
    + split; [reflexivity|]. split; [discriminate|]. split; [|split; [|split; [|split]]].
      * intros e. split; [discriminate | intros (_ & n & x & H & _); discriminate].
      * intros [H | [H | (x & H)]]; discriminate.
      * now intros d _ [= <-].
      * discriminate.
      * reflexivity.
    + split; [reflexivity|]. split; [discriminate|]. split; [|split; [|split; [|split]]].
      * intros e. split; [discriminate | intros (_ & n & x & H & _); discriminate].
      * reflexivity.
      * discriminate.
      * discriminate.
      * reflexivity.
    + split; [reflexivity|]. split; [discriminate|]. split; [|split; [|split; [|split]]].
      * intros e. split; [discriminate | intros (_ & n & x & H & _); discriminate].
      * reflexivity.
      * discriminate.
      * now intros x _ [= <-].
      * intros [H | [(d & H) | (n & x & H)]]; discriminate.
    + split; [reflexivity|]. split; [discriminate|]. split; [|split; [|split; [|split]]].
      * intros e. split.
        -- intros [= <-]. split; [reflexivity|]. exists name, text. auto.
        -- intros (_ & n & x & [= <- <-] & ->). reflexivity.
      * intros [H | [H | (x & H)]]; discriminate.
      * discriminate.
      * discriminate.
      * reflexivity.
  - split; [reflexivity|]. split; [discriminate|]. split; [|split; [|split; [|split]]].
    + intros e. split; [discriminate | intros (H & _); discriminate].
    + reflexivity.
    + discriminate.
    + discriminate.
    + reflexivity.
Qed.

Lemma clone_cases git_url tmp_dir init w :
  let r := clone opens has_origin fetch clone_from git_url tmp_dir init w in
  before_report (output r) /\
  (forall status, ending r <> Exits status) /\
  (forall e, ending r = Fails e -> escapes e) /\
  (init = false -> final r = w /\ output r = []).
Proof.
  intros r. unfold r.
  destruct (SearchFacts.search_names git_url)
    as [[_ Hnone] | (m & name & _ & _ & Hn)].
  - rewrite (clone_unnamed _ _ _ _ _ _ _ _ _ Hnone). cbn [final output ending].
    split; [apply before_report_nil|]. split; [discriminate|].
    split; [|auto]. intros e [= <-]. right. right. left. reflexivity.
  - rewrite (clone_named _ _ _ _ _ _ name _ _ _ Hn). cbv zeta.
    set (repo_path := path_join "/" [tmp_dir; name]).
    assert (Hu : (Stdout, "Updating: " +:+ repo_path) <> (Stdout, rule))
      by (cbn; discriminate).
    assert (Hc : (Stdout, "Cloning : " +:+ repo_path) <> (Stdout, rule))
      by (cbn; discriminate).
    destruct init; cbn [negb].
    + destruct (opens w repo_path && negb (has_origin w repo_path)).
      { cbn [final output ending]. split; [|split; [discriminate | split; [|discriminate]]].
        - unfold before_report. rewrite list_elem_of_singleton. congruence.
        - intros e [= <-]. right. right. right. left. reflexivity. }
      destruct (opens w repo_path && fst (fetch w repo_path)).
      * cbn [final output ending]. split; [|split; [discriminate | split; discriminate]].
        unfold before_report. rewrite list_elem_of_singleton. congruence.
      * cbn [final output ending]. split; [|split; [|split; [|discriminate]]].
        -- unfold before_report. destruct (opens w repo_path); cbn [app];
             rewrite ?elem_of_cons, elem_of_nil; intuition congruence.
        -- intros status. destruct (fst (clone_from _ git_url repo_path)); discriminate.
        -- intros e. destruct (fst (clone_from _ git_url repo_path)); [discriminate|].
           intros [= <-]. do 4 right. left. reflexivity.
    + cbn [final output ending]. split; [apply before_report_nil|].
      split; [discriminate | split; [discriminate | auto]].
Qed.

Lemma clones_cases repositories tmp_dir init : forall w,
  let r := for_io repositories
             (fun repo => clone opens has_origin fetch clone_from repo tmp_dir init) w in
  before_report (output r) /\
  (forall status, ending r <> Exits status) /\
  (forall e, ending r = Fails e -> escapes e) /\
  (init = false -> final r = w /\ output r = []).
Proof.
  induction repositories as [|repo repositories IH]; intros w; cbv zeta.
  - cbn. split; [apply before_report_nil|]. repeat split; discriminate.
  - specialize (fun w => IH w). cbv zeta in IH.
    cbn [for_io]. unfold mbind, io_bind, mret, io_ret.
    destruct (clone_cases repo tmp_dir init w) as (Hq & Hx & Hf & Hi).
    destruct (clone opens has_origin fetch clone_from repo tmp_dir init w) as [w1 o1 [p|s|e]] eqn:Ec;
      cbn [final output ending] in *.
    + destruct (IH w1) as (Hq' & Hx' & Hf' & Hi').
      destruct (for_io repositories _ w1) as [w2 o2 [ps|s|e]] eqn:Er;
        cbn [final output ending] in *.
      * rewrite !app_nil_r. split; [now apply before_report_app|].
        split; [discriminate | split; [discriminate|]].
        intros Hinit. destruct (Hi Hinit) as [-> ->]. destruct (Hi' Hinit) as [-> ->]. auto.
      * now destruct (Hx' s).
      * split; [now apply before_report_app|]. split; [discriminate|].
        split; [exact Hf'|].
        intros Hinit. destruct (Hi Hinit) as [-> ->]. destruct (Hi' Hinit) as [-> ->]. auto.
    + now destruct (Hx s).
    + split; [exact Hq | split; [discriminate | split; [|exact Hi]]].
      intros e' [= <-]. now apply Hf.
Qed.

Section Whole.

Variable getopt : list string -> getopt_reply.
Variable git_log : world -> string -> list string -> git_reply.
Variable sre : string -> string -> re_reply.
Variable list_set : list string -> list string.
Variable CONFIG_PATH : string.

(** The statistics of [main]: every record counts every word of the
    wordlist, and the only exception is the [re.error] of a keyword. *)
Lemma statistics_step repo_paths wordlist w :
  match get_statistics sre (git_log w) list_set repo_paths start_date end_date wordlist
  with
  | Ok stats => forall word d, word ∈ wordlist -> d ∈ stats -> is_Some (words d !! word)
  | Raise e => exists pattern, e = ReError pattern
  end.
Proof.
  pose proof (get_statistics_outcome sre (git_log w) list_set repo_paths start_date
                end_date wordlist) as H.
  destruct (get_statistics sre (git_log w) list_set repo_paths start_date end_date wordlist)
    as [stats|e]; [|apply H].
  destruct H as [_ Hr]. intros word d Hw Hd.
  rewrite Forall_forall in Hr. destruct (Hr d Hd) as (_ & _ & Ew).
  apply elem_of_dom. rewrite (words_keys sre _ _ _ _ _ _ _ Ew).
  now apply elem_of_list_to_set.
Qed.

Lemma main_cases argv w :
  let r := main getopt isfile isdir load opens has_origin fetch clone_from git_log sre
             list_set CONFIG_PATH TMPDIR_PATH argv w in
  (before_report (output r) /\
   ((exists status, ending r = Exits status /\ (status = 0 \/ status = 1 \/ status = 2)) \/
    (exists e, ending r = Fails e /\ escapes e))) \/
  (exists options settings repo_paths stats outs o_cfg o_clone w1,
     parse_args getopt isfile isdir argv w = Reply w [] (Returns options) /\
     read_config isfile load TMPDIR_PATH (default CONFIG_PATH (opt_config options)) w =
       Reply w o_cfg (Returns settings) /\
     for_io (cfg_repositories settings)
       (fun repo => clone opens has_origin fetch clone_from repo
                      (default (cfg_tmpdir settings) (opt_tmpdir options))
                      (opt_init options)) w =
       Reply w1 o_clone (Returns repo_paths) /\
     Forall (fun p => opens w1 p = true) repo_paths /\
     get_statistics sre (git_log w1) list_set repo_paths start_date end_date
       (cfg_wordlist settings) = Ok stats /\
     Forall2 (fun word out => word_section word stats = Ok out)
       (cfg_wordlist settings) outs /\
     r = Reply w1
           (o_cfg ++ o_clone ++
            on_stdout (numeric_lines stats ++
              concat (zip_with (fun word out => section_lines (" WORD: " +:+ word) out)
                        (cfg_wordlist settings) outs)))
           (Returns tt)).
Proof.
  intros r. unfold r, main. clear r.
  destruct (parse_args_cases _ isfile isdir getopt argv w)
    as [(msg & _ & Hr) | [(opts & args & _ & _ & Hr) |
        (before & opt & arg & after & args & _ & _ & _ & Hr)]].
  - (* getopt rejects the command line *)
    rewrite (bind_fails _ _ _ w w [] _ Hr). cbn [final output ending]. left.
    split; [apply before_report_nil|]. right. eexists. split; [reflexivity|].
    left. reflexivity.
  - (* the options are returned *)
    rewrite (bind_returns _ _ _ w w [] _ Hr). cbn [app]. rewrite reply_eta.
    set (options := options_after opts (Options false None None)) in *.
    destruct (read_config_cases (default CONFIG_PATH (opt_config options)) w)
      as [(o_cfg & settings & Ec & Herr) | (name & text & _ & _ & Ec)].
    2:{ (* the configuration cannot be read *)
        rewrite (bind_fails _ _ _ w w [] _ Ec). cbn [final output ending]. left.
        split; [apply before_report_nil|]. right. eexists. split; [reflexivity|].
        right. left. eauto. }
    rewrite (bind_returns _ _ _ w w o_cfg settings Ec). cbv zeta.
    set (tmpdir := default (cfg_tmpdir settings) (opt_tmpdir options)).
    destruct (clones_cases (cfg_repositories settings) tmpdir (opt_init options) w)
      as (Hq & Hx & Hf & _).
    destruct (for_io (cfg_repositories settings)
                (fun repo => clone opens has_origin fetch clone_from repo tmpdir
                               (opt_init options)) w)
      as [w1 o_clone [repo_paths|s|e]] eqn:Ecl; cbn [final output ending] in *.
    + rewrite (bind_returns _ _ _ w w1 o_clone repo_paths Ecl).
      destruct (first_failure (opens w1) repo_paths)
        as [Hall | (b & p & a & -> & Hb & Hp)].
      * rewrite (bind_returns _ _ _ w1 w1 [] tt (validate_repos_opens _ _ _ _ Hall)).
        pose proof (statistics_step repo_paths (cfg_wordlist settings) w1) as Hk.
        destruct (get_statistics sre (git_log w1) list_set repo_paths start_date end_date
                    (cfg_wordlist settings)) as [stats|e] eqn:Es.
        -- assert (Est : (fun w0 : world =>
                  lift (get_statistics sre (git_log w0) list_set repo_paths start_date
                          end_date (cfg_wordlist settings)) w0) w1
                  = Reply w1 [] (Returns stats)).
           { cbv beta. rewrite Es. reflexivity. }
           rewrite (bind_returns _ _ _ w1 w1 [] stats Est).
           destruct (report_ok _ stats (cfg_wordlist settings) w1 Hk) as (outs & HF & Erep).
           rewrite Erep. cbn [final output ending app]. right.
           exists options, settings, repo_paths, stats, outs, o_cfg, o_clone, w1.
           repeat split; auto.
        -- (* a keyword is no pattern *)
           assert (Est : (fun w0 : world =>
                  lift (get_statistics sre (git_log w0) list_set repo_paths start_date
                          end_date (cfg_wordlist settings)) w0) w1
                  = Reply w1 [] (Fails (Exn e))).
           { cbv beta. rewrite Es. reflexivity. }
           rewrite (bind_fails _ _ _ w1 w1 [] _ Est). cbn [final output ending app].
           left. split.
           ++ apply before_report_app; [now apply before_report_stderr|].
              rewrite !app_nil_r. exact Hq.
           ++ right. eexists. split; [reflexivity|]. do 5 right.
              destruct Hk as (pattern & ->). eauto.
      * rewrite (bind_exits _ _ _ w1 w1 _ _ (validate_repos_stops _ _ _ _ _ _ Hb Hp)).
        cbn [final output ending]. left. split.
        -- apply before_report_app; [now apply before_report_stderr|].
           apply before_report_app; [exact Hq|].
           apply before_report_stderr. repeat constructor.
        -- left. exists 1. auto.
    + now destruct (Hx s).
    + rewrite (bind_fails _ _ _ w w1 o_clone e Ecl). cbn [final output ending]. left.
      split; [apply before_report_app; [now apply before_report_stderr | exact Hq]|].
      right. exists e. split; [reflexivity | now apply Hf].
  - (* an option stops the loop *)
    left.
    destruct Hr as [[_ Hr] | [[_ Hr] | [(_ & _ & Hr) | (_ & _ & Hr)]]];
      rewrite (bind_exits _ _ _ w w _ _ Hr); cbn [final output ending];
      (split; [|left; eexists; split; [reflexivity | auto]]).
    + unfold before_report. rewrite list_elem_of_singleton. discriminate.
    + unfold before_report. rewrite list_elem_of_singleton. discriminate.
    + apply before_report_stderr. repeat constructor.
    + apply before_report_stderr. repeat constructor.
Qed.


(** Property X25.  When [main] returns, [parse_args] has returned the
    options without printing, [read_config] the settings, every repository
    of the settings has been given its local path under the directory of
    the options or else of the settings, every path opened, and what was
    printed is the messages about the configuration, the lines of [clone],
    and the whole report of the statistics of these paths for the wordlist
    of the settings between 2019-01-01 and 2019-12-31. *)
Theorem main_report argv w :
  let r := main getopt isfile isdir load opens has_origin fetch clone_from git_log sre list_set
             CONFIG_PATH TMPDIR_PATH argv w in
  ending r = Returns tt ->
  exists options settings repo_paths stats outs o_cfg o_clone,
    parse_args getopt isfile isdir argv w = Reply w [] (Returns options) /\
    read_config isfile load TMPDIR_PATH (default CONFIG_PATH (opt_config options)) w =
      Reply w o_cfg (Returns settings) /\
    for_io (cfg_repositories settings)
      (fun repo => clone opens has_origin fetch clone_from repo
                     (default (cfg_tmpdir settings) (opt_tmpdir options))
                     (opt_init options)) w =
      Reply (final r) o_clone (Returns repo_paths) /\
    Forall (fun p => opens (final r) p = true) repo_paths /\
    get_statistics sre (git_log (final r)) list_set repo_paths
      (Some "2019-01-01") (Some "2019-12-31") (cfg_wordlist settings) = Ok stats /\
    Forall2 (fun word out => word_section word stats = Ok out)
      (cfg_wordlist settings) outs /\
    output r =
      o_cfg ++ o_clone ++
      on_stdout (numeric_lines stats ++
        concat (zip_with (fun word out => section_lines (" WORD: " +:+ word) out)
                  (cfg_wordlist settings) outs)).
Proof.
  intros r Hr. pose proof (main_cases argv w) as Hc. cbv zeta in Hc. fold r in Hc.
  destruct Hc
    as [(_ & [(s & Hs & _) | (e & He & _)]) | (o & st & rp & sts & outs & oc & ocl & w1 & H)];
    [congruence | congruence |].
  destruct H as (H1 & H2 & H3 & H4 & H5 & H6 & H7).
  exists o, st, rp, sts, outs, oc, ocl. rewrite H7. cbn [final output ending].
  repeat split; assumption.
Qed.

End Whole.

End MainFacts.

(** ** The year of the statistics *)

Lemma for_each_ext {A S} (l : list A) (f g : S -> A -> result S) :
  (forall s x, f s x = g s x) -> forall s, for_each l f s = for_each l g s.
Proof.
  intros H. induction l as [|x l IH]; intros s; cbn [for_each]; [reflexivity|].
  rewrite H. destruct (g s x) as [s'|e]; [apply IH | reflexivity].
Qed.

Lemma fold_left_ext_all {A B} (f g : A -> B -> A) (l : list B) :
  (forall a b, f a b = g a b) -> forall a, fold_left f l a = fold_left g l a.
Proof.
  intros H. induction l as [|x l IH]; intros a; cbn [fold_left]; [reflexivity|].
  now rewrite H, IH.
Qed.

Section Year.

Variable sre : string -> string -> re_reply.
Variable git git' : string -> list string -> git_reply.
Variable start_date end_date : option string.

(** The two answer alike the queries with both bounds of the range. *)
Hypothesis alike : forall path args,
  git path (after start_date :: before end_date :: args) =
  git' path (after start_date :: before end_date :: args).

Hypothesis bounded : truthy start_date = true /\ truthy end_date = true.

Lemma get_git_log_alike path args :
  _get_git_log git path start_date end_date args =
  _get_git_log git' path start_date end_date args.
Proof.
  unfold _get_git_log, log. destruct bounded as [-> ->]. cbn [andb].
  now rewrite alike.
Qed.

Lemma get_statistics_alike list_set git_paths wordlist :
  get_statistics sre git list_set git_paths start_date end_date wordlist =
  get_statistics sre git' list_set git_paths start_date end_date wordlist.
Proof.
  assert (Hw : forall email,
    _get_git_words sre git git_paths email wordlist start_date end_date =
    _get_git_words sre git' git_paths email wordlist start_date end_date).
  { intros email. unfold _get_git_words. cbv zeta. apply for_each_ext.
    intros s path. now rewrite get_git_log_alike. }
  assert (Hc : forall email,
    _get_git_files_adds_dels git git_paths email start_date end_date =
    _get_git_files_adds_dels git' git_paths email start_date end_date).
  { intros email. unfold _get_git_files_adds_dels. apply for_each_ext.
    intros s path. cbv zeta. now rewrite get_git_log_alike. }
  assert (Hn : forall email,
    _get_git_contributor_commit_count git git_paths email start_date end_date =
    _get_git_contributor_commit_count git' git_paths email start_date end_date).
  { intros email. unfold _get_git_contributor_commit_count. cbv zeta. do 2 f_equal.
    apply fold_left_ext_all. intros a path. now rewrite get_git_log_alike. }
  assert (He :
    _get_git_contributor_emails git list_set git_paths start_date end_date =
    _get_git_contributor_emails git' list_set git_paths start_date end_date).
  { unfold _get_git_contributor_emails. apply fold_left_ext_all.
    intros a path. cbv zeta. now rewrite !get_git_log_alike. }
  unfold get_statistics. cbv zeta. rewrite He. apply for_each_ext.
  intros stats email. now rewrite Hc, Hn, Hw.
Qed.

End Year.

Lemma bind_ext {world A B} (m : io world A) (f g : A -> io world B) w :
  (forall a w', f a w' = g a w') -> (m ≫= f) w = (m ≫= g) w.
Proof.
  intros H. unfold mbind, io_bind. destruct (ending (m w)); [|reflexivity..].
  now rewrite H.
Qed.

Section MainYear.

Variable world : Type.
Variable getopt : list string -> getopt_reply.
Variable isfile : world -> string -> bool.
Variable isdir : world -> string -> bool.
Variable load : world -> string -> yaml_reply.
Variable opens : world -> string -> bool.
Variable has_origin : world -> string -> bool.
Variable fetch : world -> string -> bool * world.
Variable clone_from : world -> string -> string -> bool * world.
Variable git_log git_log' : world -> string -> list string -> git_reply.
Variable sre : string -> string -> re_reply.
Variable list_set : list string -> list string.
Variable CONFIG_PATH : string.
Variable TMPDIR_PATH : string.

(** Property X26.  [main] asks only for the year 2019: two machines whose
    logs answer alike every query that begins with the two bounds
    [--after="2019-01-01"] and [--before="2019-12-31"] give the same
    statistics and the same run, whatever else their logs hold. *)
Theorem main_reads_2019 argv w :
  (forall w path args,
     git_log w path (after (Some "2019-01-01") :: before (Some "2019-12-31") :: args) =
     git_log' w path (after (Some "2019-01-01") :: before (Some "2019-12-31") :: args)) ->
  (forall git_paths wordlist,
     get_statistics sre (git_log w) list_set git_paths start_date end_date wordlist =
     get_statistics sre (git_log' w) list_set git_paths start_date end_date wordlist) /\
  main getopt isfile isdir load opens has_origin fetch clone_from git_log sre list_set
    CONFIG_PATH TMPDIR_PATH argv w =
  main getopt isfile isdir load opens has_origin fetch clone_from git_log' sre list_set
    CONFIG_PATH TMPDIR_PATH argv w.
Proof.
  intros Halike.
  assert (Hs : forall w git_paths wordlist,
     get_statistics sre (git_log w) list_set git_paths start_date end_date wordlist =
     get_statistics sre (git_log' w) list_set git_paths start_date end_date wordlist).
  { intros w0 git_paths wordlist. apply get_statistics_alike; [apply Halike|].
    split; reflexivity. }
  split; [apply Hs|]. unfold main.
  apply bind_ext. intros options w1.
  apply bind_ext. intros settings w2. cbv zeta.
  apply bind_ext. intros repo_paths w3.
  apply bind_ext. intros _ w4.
  unfold mbind, io_bind. now rewrite Hs.
Qed.

End MainYear.

Example bounds_of_main :
  after start_date = "--after=" +:+ Str.dquote +:+ "2019-01-01" +:+ Str.dquote /\
  before end_date = "--before=" +:+ Str.dquote +:+ "2019-12-31" +:+ Str.dquote.
Proof. split; reflexivity. Qed.

(** ** Runs of [main] on the machine of the examples *)

(** With [--init] and no repository on the machine: the repository is
    cloned and the report printed; [b@x.com], who only committed, is in no
    section. *)
Example run_with_init :
  let r := example_main ["-i"; "-c"; "conf.yml"] [] in
  final r = ["/tmp/git-stats"] /\ ending r = Returns tt /\
  length (output r) = 41%nat /\
  take 6 (output r) =
    [(Stdout, "Cloning : /tmp/git-stats"); (Stdout, EmptyString); (Stdout, rule);
     (Stdout, " NUMBER OF COMMITS"); (Stdout, rule); (Stdout, "        3   a@x.com")] /\
  drop 36 (output r) =
    [(Stdout, EmptyString); (Stdout, rule); (Stdout, " WORD: fix"); (Stdout, rule);
     (Stdout, "        2   a@x.com")].
Proof. vm_compute. repeat split. Qed.

(** Without [--init] the repository is missing: exit status 1. *)
Example run_without_init :
  example_main ["-c"; "conf.yml"] [] =
  Reply [] [(Stderr, "[ERR] Repo does not yet exist: /tmp/git-stats");
            (Stderr, "Run with --init first, see --help")] (Exits 1).
Proof. vm_compute. reflexivity. Qed.

(** Help is asked for before the directory that does not exist is looked
    at; a command line [getopt] rejects ends in [TypeError]. *)
Example run_help_and_bad_option :
  example_main ["-c"; "conf.yml"; "--help"; "-t"; "/nowhere"] [] =
    Reply [] [(Stdout, "Help")] (Exits 0) /\
  example_main ["--bogus"] [] =
    Reply [] [] (Fails (TypeError "'GetoptError' object is not iterable")).
Proof. vm_compute. repeat split. Qed.

(** A configuration file that cannot be opened, a keyword that is no
    pattern and a repository without a remote [origin] end the run with an
    exception: before anything is printed, after the cloning, and after
    the line of the update. *)
Example run_failures :
  failing_main unreadable_load example_has_origin ["-i"; "-c"; "conf.yml"] [] =
    Reply [] [] (Fails (Other "PermissionError" "[Errno 13] Permission denied")) /\
  failing_main bad_keyword_load example_has_origin ["-i"; "-c"; "conf.yml"] [] =
    Reply ["/tmp/git-stats"] [(Stdout, "Cloning : /tmp/git-stats")]
      (Fails (Exn (ReError (forgiving_text "fix(")))) /\
  failing_main example_load without_origin ["-i"; "-c"; "conf.yml"] ["/tmp/git-stats"] =
    Reply ["/tmp/git-stats"] [(Stdout, "Updating: /tmp/git-stats")]
      (Fails (AttributeError "'IterableList' object has no attribute 'origin'")).
Proof. vm_compute. repeat split. Qed.

(** URLs and the names [clone] takes from them. *)
Example repo_names :
  (m ← Search.search repo_name_pattern "https://github.com/cytopia/git-stats.git";
   group m 1) = Some "git-stats" /\
  (m ← Search.search repo_name_pattern "git@github.com:cytopia/git-stats.GIT";
   group m 1) = Some "git-stats" /\
  Search.search repo_name_pattern "https://github.com/cytopia/git-stats" = None /\
  Search.search repo_name_pattern "/git-stats.git" = None /\
  path_join "/" ["/tmp"; "git-stats"] = "/tmp/git-stats" /\
  path_join "/" ["/tmp/"; "git-stats"] = "/tmp/git-stats".
Proof. vm_compute. repeat split. Qed.

(** ** Contributors without activity *)

Lemma NoDup_map_inj {A B} (f : A -> B) (l : list A) x y :
  NoDup (map f l) -> x ∈ l -> y ∈ l -> f x = f y -> x = y.
Proof.
  induction l as [|a l IH]; intros Hn Hx Hy E; [inversion Hx|].
  cbn [map] in Hn. apply NoDup_cons in Hn as [Ha Hn].
  assert (Hin : forall z, z ∈ l -> f z ∈ map f l).
  { intros z Hz. apply list_elem_of_In, in_map, list_elem_of_In, Hz. }
  apply elem_of_cons in Hx as [-> | Hx], Hy as [-> | Hy].
  - reflexivity.
  - destruct Ha. rewrite E. now apply Hin.
  - destruct Ha. rewrite <- E. now apply Hin.
  - now apply IH.
Qed.

Lemma listed_email (key : stat -> Z) (l : list stat) x :
  x ∈ map snd (map (printed key) l) -> exists d, d ∈ l /\ email d = x.
Proof.
  rewrite printed_email. intros H.
  apply list_elem_of_In, in_map_iff in H as (d & E & Hd).
  exists d. split; [now apply list_elem_of_In | exact E].
Qed.

(** Property X28.  For ordinary keywords [get_statistics] returns; in its
    records, a contributor whose number for a metric is 0 has no row in the
    section of the metric, and a contributor who is counted 0 times for a
    word has no row in the section of the word: no row carries the email. *)
Theorem inactive_contributor_unlisted
  sre git list_set git_paths start_date end_date wordlist :
  lists_a_set list_set -> Forall ordinary wordlist ->
  exists stats,
    get_statistics sre git list_set git_paths start_date end_date wordlist = Ok stats /\
    (forall d m top, d ∈ stats -> value m d = 0 ->
       email d ∉ map snd (section top m stats)) /\
    (forall d word out, d ∈ stats -> words d !! word = Some 0 ->
       word_section word stats = Ok out -> email d ∉ map snd out).
Proof.
  intros Hset Ho.
  destruct (get_statistics_spec sre git list_set git_paths start_date end_date wordlist
              (all_embedded wordlist Ho)) as (stats & E & Hm & Hr).
  destruct (contributor_emails_fold git list_set start_date end_date git_paths Hset []
              NoDup_nil_2) as [Hnd _].
  assert (Hn : NoDup (map email stats)) by (rewrite Hm; exact Hnd).
  exists stats. split; [exact E|]. split.
  - intros d m top Hd H0 Hin. unfold section in Hin. rewrite section_items_take in Hin.
    apply listed_email in Hin as (d' & Hd' & Ee).
    apply elem_of_take in Hd' as (i & Hd' & _). apply list_elem_of_lookup_2 in Hd'.
    apply list_elem_of_filter in Hd' as [Hp Hd']. apply sorted_reverse_elem in Hd'.
    rewrite (NoDup_map_inj email stats d' d Hn Hd' Hd Ee) in Hp. lia.
  - intros d word out Hd H0 Eo Hin.
    assert (Hall : forall x, x ∈ stats -> is_Some (words x !! word)).
    { intros x Hx.
      destruct (decide (Exists (fun d => words d !! word = None) stats)) as [He | Hne].
      - apply Exists_exists in He as (y & Hy & Hnone).
        unfold word_section in Eo.
        rewrite (word_rows_raises word _ 0%nat y) in Eo; [discriminate| |exact Hnone].
        now apply sorted_reverse_elem.
      - destruct (words x !! word) eqn:Ex; [eauto|].
        destruct Hne. apply Exists_exists. eauto. }
    rewrite (word_section_take word stats Hall) in Eo. injection Eo as <-.
    apply listed_email in Hin as (d' & Hd' & Ee).
    apply elem_of_take in Hd' as (i & Hd' & _). apply list_elem_of_lookup_2 in Hd'.
    apply list_elem_of_filter in Hd' as [Hp Hd']. apply sorted_reverse_elem in Hd'.
    rewrite (NoDup_map_inj email stats d' d Hn Hd' Hd Ee) in Hp.
    unfold word_key in Hp. rewrite H0 in Hp. cbn in Hp. lia.
Qed.

(** ** Instances of the properties above *)

Lemma churn_repository_order_witness :
  ["one"; "two"] ≡ₚ ["two"; "one"] /\
  _get_git_files_adds_dels example_git ["one"; "two"] "a@x.com" None None =
  _get_git_files_adds_dels example_git ["two"; "one"] "a@x.com" None None.
Proof.
  assert (Hp : ["one"; "two"] ≡ₚ ["two"; "one"]) by apply perm_swap.
  split; [exact Hp|].
  apply (churn_repository_order example_git ["one"; "two"] ["two"; "one"] "a@x.com"
           None None Hp).
Defined.


Lemma keyword_counts_bounded_witness :
  Forall ordinary ["fix"; "add"] /\ NoDup ["fix"; "add"] /\
  exists words,
    _get_git_words no_sre example_git ["repo"] "a@x.com" ["fix"; "add"] None None = Ok words /\
    forall w n, words !! w = Some n ->
      0 <= n <= Z.of_nat (length (oneline_messages example_git ["repo"] "a@x.com" None None)).
Proof.
  assert (Hn : NoDup ["fix"; "add"]).
  { repeat constructor; rewrite ?elem_of_cons, ?elem_of_nil; intuition discriminate. }
  assert (Ho : Forall ordinary ["fix"; "add"]) by repeat constructor.
  split; [exact Ho | split; [exact Hn|]].
  apply (keyword_counts_bounded no_sre example_git ["repo"] "a@x.com" ["fix"; "add"]
           None None Ho Hn).
Defined.

Lemma keyword_counts_order_witness :
  Forall ordinary ["fix"; "add"] /\
  ["one"; "two"] ≡ₚ ["two"; "one"] /\ ["fix"; "add"] ≡ₚ ["add"; "fix"] /\
  _get_git_words no_sre example_git ["one"; "two"] "a@x.com" ["fix"; "add"] None None =
  _get_git_words no_sre example_git ["two"; "one"] "a@x.com" ["add"; "fix"] None None.
Proof.
  assert (Hp : ["one"; "two"] ≡ₚ ["two"; "one"]) by apply perm_swap.
  assert (Hl : ["fix"; "add"] ≡ₚ ["add"; "fix"]) by apply perm_swap.
  assert (Ho : Forall ordinary ["fix"; "add"]) by repeat constructor.
  split; [exact Ho | split; [exact Hp | split; [exact Hl|]]].
  apply (keyword_counts_order no_sre example_git ["one"; "two"] ["two"; "one"] "a@x.com"
           ["fix"; "add"] ["add"; "fix"] None None Ho Hp Hl).
Defined.

Lemma sections_list_a_contributor_once_witness :
  lists_a_set remove_dups /\ Forall ordinary ["fix"] /\
  exists stats,
    get_statistics no_sre example_git remove_dups ["repo"] None None ["fix"] = Ok stats /\
    NoDup (map email stats) /\
    (forall top m, NoDup (map snd (section top m stats))) /\
    (forall word, word ∈ ["fix"] ->
       exists out, word_section word stats = Ok out /\ NoDup (map snd out)).
Proof.
  assert (Ho : Forall ordinary ["fix"]) by repeat constructor.
  split; [exact remove_dups_lists_a_set | split; [exact Ho|]].
  apply (sections_list_a_contributor_once no_sre example_git remove_dups ["repo"] None None
           ["fix"] remove_dups_lists_a_set Ho).
Defined.

Lemma totals_and_maxima_sections_witness :
  Forall ordinary ["fix"] /\
  exists stats,
    get_statistics no_sre example_git remove_dups ["repo"] None None ["fix"] = Ok stats /\
    (forall d, d ∈ stats ->
       (0 < files d <-> 0 < max_files d) /\
       (0 < adds d <-> 0 < max_adds d) /\
       (0 < dels d <-> 0 < max_dels d)) /\
    (forall top,
       length (section top Files stats) = length (section top MaxFiles stats) /\
       length (section top Adds stats) = length (section top MaxAdds stats) /\
       length (section top Dels stats) = length (section top MaxDels stats)).
Proof.
  assert (Ho : Forall ordinary ["fix"]) by repeat constructor.
  split; [exact Ho|].
  apply (totals_and_maxima_sections no_sre example_git remove_dups ["repo"] None None
           ["fix"] Ho).
Defined.

Lemma statistics_of_failing_queries_witness :
  lists_a_set remove_dups /\
  (forall path argv, path ∈ ["repo"] -> failing_git path argv = GitError) /\
  _get_git_files_adds_dels failing_git ["repo"] "a@x.com" None None =
    Ok (Churn 0 0 0 0 0 0) /\
  _get_git_contributor_commit_count failing_git ["repo"] "a@x.com" None None = 0 /\
  (exists words,
     _get_git_words no_sre failing_git ["repo"] "a@x.com" ["fix"] None None = Ok words /\
     forall w, w ∈ ["fix"] -> words !! w = Some 0) /\
  _get_git_contributor_emails failing_git remove_dups ["repo"] None None = [] /\
  get_statistics no_sre failing_git remove_dups ["repo"] None None ["fix"] = Ok [].
Proof.
  assert (Hf : forall path argv, path ∈ ["repo"] -> failing_git path argv = GitError)
    by reflexivity.
  split; [exact remove_dups_lists_a_set | split; [exact Hf|]].
  apply (statistics_of_failing_queries no_sre failing_git remove_dups ["repo"] "a@x.com"
           None None ["fix"] remove_dups_lists_a_set Hf).
Defined.

Lemma example_url_names :
  names "https://github.com/cytopia/git-stats.git" "git-stats".
Proof.
  exists (Str.chars "https://github.com/cytopia"), (Str.chars ".git"), [].
  split; [reflexivity|]. split; [discriminate|].
  split; [repeat constructor|]. split; [discriminate|].
  split; [repeat constructor|]. split; [repeat constructor | left; reflexivity].
Defined.

Lemma clone_with_init_witness :
  names "https://github.com/cytopia/git-stats.git" "git-stats" /\
  let repo_path := path_join "/" ["/tmp"; "git-stats"] in
  let r := clone example_opens example_has_origin example_fetch example_clone_from
             "https://github.com/cytopia/git-stats.git" "/tmp" true [] in
  let no_origin := example_opens [] repo_path && negb (example_has_origin [] repo_path) in
  let updated := example_opens [] repo_path && fst (example_fetch [] repo_path) in
  (ending r = Returns repo_path \/ ending r = Fails UncaughtGitError \/
   ending r = Fails (AttributeError "'IterableList' object has no attribute 'origin'")) /\
  (no_origin = true ->
   r = Reply [] [(Stdout, "Updating: " +:+ repo_path)]
         (Fails (AttributeError "'IterableList' object has no attribute 'origin'"))) /\
  (no_origin = false -> updated = true ->
   r = Reply (snd (example_fetch [] repo_path)) [(Stdout, "Updating: " +:+ repo_path)]
         (Returns repo_path)) /\
  (no_origin = false -> updated = false ->
   (Stdout, "Cloning : " +:+ repo_path) ∈ output r /\
   exists w1,
     final r = snd (example_clone_from w1 "https://github.com/cytopia/git-stats.git"
                      repo_path) /\
     (ending r = Returns repo_path <->
      fst (example_clone_from w1 "https://github.com/cytopia/git-stats.git" repo_path)
        = true)) /\
  ((Stdout, "Updating: " +:+ repo_path) ∈ output r <->
   example_opens [] repo_path = true).
Proof.
  split; [exact example_url_names|].
  apply (clone_with_init (list string) example_opens example_has_origin example_fetch
           example_clone_from "https://github.com/cytopia/git-stats.git" "/tmp"
           "git-stats" [] example_url_names).
Defined.

Lemma parse_args_options_witness :
  example_getopt ["-i"; "-c"; "conf.yml"] =
    Parsed [("-i", EmptyString); ("-c", "conf.yml")] [] /\
  Forall (fun o => ~ stops example_isfile example_isdir [] o)
    [("-i", EmptyString); ("-c", "conf.yml")] /\
  parse_args example_getopt example_isfile example_isdir ["-i"; "-c"; "conf.yml"] [] =
  Reply [] [] (Returns (Options true (Some "conf.yml") None)).
Proof.
  assert (Hp : Forall (fun o => ~ stops example_isfile example_isdir [] o)
                 [("-i", EmptyString); ("-c", "conf.yml")]).
  { repeat constructor; intros [H | [[H1 H2] | [H1 H2]]]; vm_compute in *; congruence. }
  split; [reflexivity | split; [exact Hp|]].
  apply (parse_args_options (list string) example_isfile example_isdir example_getopt
           ["-i"; "-c"; "conf.yml"] [("-i", EmptyString); ("-c", "conf.yml")] [] []
           eq_refl Hp).
Defined.

Lemma parse_args_first_stop_witness :
  example_getopt ["-c"; "conf.yml"; "--help"; "-t"; "/nowhere"] =
    Parsed ([("-c", "conf.yml")] ++ ("--help", EmptyString) :: [("-t", "/nowhere")]) [] /\
  Forall (fun o => ~ stops example_isfile example_isdir [] o) [("-c", "conf.yml")] /\
  stops example_isfile example_isdir [] ("--help", EmptyString) /\
  let r := parse_args example_getopt example_isfile example_isdir
             ["-c"; "conf.yml"; "--help"; "-t"; "/nowhere"] [] in
  final r = [] /\
  (is_in "--help" ["-h"; "--help"] = true ->
   output r = [(Stdout, "Help")] /\ ending r = Exits 0) /\
  (is_in "--help" ["-v"; "--version"] = true ->
   output r = [(Stdout, "Version")] /\ ending r = Exits 0) /\
  (is_in "--help" ["-c"; "--config"] = true ->
   output r = [(Stderr, "[ERR] " +:+ "--help" +:+ " specified config does not exist: "
                          +:+ EmptyString)] /\
   ending r = Exits 2) /\
  (is_in "--help" ["-t"; "--tmpdir"] = true ->
   output r = [(Stderr, "[ERR] " +:+ "--help" +:+ " specified directory does not exist: "
                          +:+ EmptyString)] /\
   ending r = Exits 2).
Proof.
  assert (Hp : Forall (fun o => ~ stops example_isfile example_isdir [] o)
                 [("-c", "conf.yml")]).
  { repeat constructor; intros [H | [[H1 H2] | [H1 H2]]]; vm_compute in *; congruence. }
  assert (Hs : stops example_isfile example_isdir [] ("--help", EmptyString))
    by (left; reflexivity).
  split; [reflexivity | split; [exact Hp | split; [exact Hs|]]].
  apply (parse_args_first_stop (list string) example_isfile example_isdir
           example_getopt ["-c"; "conf.yml"; "--help"; "-t"; "/nowhere"]
           [("-c", "conf.yml")] "--help" EmptyString [("-t", "/nowhere")] [] []
           eq_refl Hp Hs).
Defined.

Lemma report_sections_witness :
  (forall word d, word ∈ ["fix"] -> d ∈ [Stat "a@x.com" 3 7 11 7 4 10 5 {["fix" := 2]}] ->
     is_Some (words d !! word)) /\
  exists outs,
    Forall2 (fun word out =>
               word_section word [Stat "a@x.com" 3 7 11 7 4 10 5 {["fix" := 2]}] = Ok out)
      ["fix"] outs /\
    report [Stat "a@x.com" 3 7 11 7 4 10 5 {["fix" := 2]}] ["fix"] tt =
    Reply tt
      (on_stdout (numeric_lines [Stat "a@x.com" 3 7 11 7 4 10 5 {["fix" := 2]}] ++
         concat (zip_with (fun word out => section_lines (" WORD: " +:+ word) out)
                   ["fix"] outs)))
      (Returns tt) /\
    (["fix"] = [] ->
     report [Stat "a@x.com" 3 7 11 7 4 10 5 {["fix" := 2]}] ["fix"] tt =
     Reply tt (on_stdout (numeric_lines [Stat "a@x.com" 3 7 11 7 4 10 5 {["fix" := 2]}]))
       (Returns tt)).
Proof.
  assert (H : forall word d, word ∈ ["fix"] ->
            d ∈ [Stat "a@x.com" 3 7 11 7 4 10 5 {["fix" := 2]}] ->
            is_Some (words d !! word)).
  { intros word d Hw Hd. apply list_elem_of_singleton in Hw as ->.
    apply list_elem_of_singleton in Hd as ->. eexists. reflexivity. }
  split; [exact H|].
  apply (report_sections unit [Stat "a@x.com" 3 7 11 7 4 10 5 {["fix" := 2]}] ["fix"] tt H).
Defined.


Lemma main_report_witness :
  ending (example_main ["-i"; "-c"; "conf.yml"] []) = Returns tt /\
  exists options settings repo_paths stats outs o_cfg o_clone,
    parse_args example_getopt example_isfile example_isdir ["-i"; "-c"; "conf.yml"] [] =
      Reply [] [] (Returns options) /\
    read_config example_isfile example_load "/tmp"
      (default "/home/user/.config/git-stats/conf.yml" (opt_config options)) [] =
      Reply [] o_cfg (Returns settings) /\
    for_io (cfg_repositories settings)
      (fun repo => clone example_opens example_has_origin example_fetch
                     example_clone_from repo
                     (default (cfg_tmpdir settings) (opt_tmpdir options))
                     (opt_init options)) [] =
      Reply (final (example_main ["-i"; "-c"; "conf.yml"] [])) o_clone
        (Returns repo_paths) /\
    Forall (fun p => example_opens (final (example_main ["-i"; "-c"; "conf.yml"] [])) p
                       = true) repo_paths /\
    get_statistics no_sre (example_git_log (final (example_main ["-i"; "-c"; "conf.yml"] [])))
      remove_dups repo_paths (Some "2019-01-01") (Some "2019-12-31")
      (cfg_wordlist settings) = Ok stats /\
    Forall2 (fun word out => word_section word stats = Ok out)
      (cfg_wordlist settings) outs /\
    output (example_main ["-i"; "-c"; "conf.yml"] []) =
      o_cfg ++ o_clone ++
      on_stdout (numeric_lines stats ++
        concat (zip_with (fun word out => section_lines (" WORD: " +:+ word) out)
                  (cfg_wordlist settings) outs)).
Proof.
  assert (H : ending (example_main ["-i"; "-c"; "conf.yml"] []) = Returns tt)
    by (vm_compute; reflexivity).
  split; [exact H|].
  apply (main_report (list string) example_isfile example_isdir example_load example_opens
           example_has_origin example_fetch example_clone_from "/tmp" example_getopt
           example_git_log no_sre remove_dups "/home/user/.config/git-stats/conf.yml"
           ["-i"; "-c"; "conf.yml"] [] H).
Defined.

Lemma main_reads_2019_witness :
  (forall w path args,
     example_git_log w path
       (after (Some "2019-01-01") :: before (Some "2019-12-31") :: args) =
     example_git_2019 w path
       (after (Some "2019-01-01") :: before (Some "2019-12-31") :: args)) /\
  (forall git_paths wordlist,
     get_statistics no_sre (example_git_log []) remove_dups git_paths start_date end_date
       wordlist =
     get_statistics no_sre (example_git_2019 []) remove_dups git_paths start_date end_date
       wordlist) /\
  main example_getopt example_isfile example_isdir example_load example_opens
    example_has_origin example_fetch example_clone_from example_git_log no_sre remove_dups
    "/home/user/.config/git-stats/conf.yml" "/tmp" ["-i"; "-c"; "conf.yml"] [] =
  main example_getopt example_isfile example_isdir example_load example_opens
    example_has_origin example_fetch example_clone_from example_git_2019 no_sre remove_dups
    "/home/user/.config/git-stats/conf.yml" "/tmp" ["-i"; "-c"; "conf.yml"] [].
Proof.
  assert (H : forall w path args,
     example_git_log w path
       (after (Some "2019-01-01") :: before (Some "2019-12-31") :: args) =
     example_git_2019 w path
       (after (Some "2019-01-01") :: before (Some "2019-12-31") :: args))
    by reflexivity.
  split; [exact H|].
  apply (main_reads_2019 (list string) example_getopt example_isfile example_isdir
           example_load example_opens example_has_origin example_fetch example_clone_from
           example_git_log example_git_2019 no_sre remove_dups
           "/home/user/.config/git-stats/conf.yml" "/tmp" ["-i"; "-c"; "conf.yml"] [] H).
Defined.

Lemma inactive_contributor_unlisted_witness :
  lists_a_set remove_dups /\ Forall ordinary ["fix"] /\
  exists stats,
    get_statistics no_sre example_git remove_dups ["repo"] None None ["fix"] = Ok stats /\
    (forall d m top, d ∈ stats -> value m d = 0 ->
       email d ∉ map snd (section top m stats)) /\
    (forall d word out, d ∈ stats -> words d !! word = Some 0 ->
       word_section word stats = Ok out -> email d ∉ map snd out).
Proof.
  assert (Ho : Forall ordinary ["fix"]) by repeat constructor.
  split; [exact remove_dups_lists_a_set | split; [exact Ho|]].
  apply (inactive_contributor_unlisted no_sre example_git remove_dups ["repo"] None None
           ["fix"] remove_dups_lists_a_set Ho).
Defined.
